(** * newtmgr transport core: CoAP option codec, serial framing, LoRa fragmentation

    A shallow embedding of
    - [vendor/github.com/runtimeco/go-coap/message.go] (module [Coap]),
    - [nmxact/nmserial/serial_xport.go] (module [Serial]),
    - [nmxact/mtech_lora/mtech_lora_sesn.go] (module [Lora]),
    followed by the properties of the specification that these files decide.

    Conventions.  A Go [int] is a [Z]; conversions to fixed-width unsigned
    types are written out as [mod].  A Go [byte] is a [Byte.byte]; a [[]byte]
    is a [list byte]; a Go [string] is a [String.string].  A function that can
    fail (an [error] result or a panic) returns a [result]. *)

From Stdlib Require Import ZArith NArith List Lia Bool.
From Stdlib Require Import Init.Byte Strings.Byte Strings.Ascii Strings.String.
From Stdlib Require Import Sorting.Permutation Sorting.Sorted.
Import ListNotations.

Local Open Scope Z_scope.

(** ** Bytes and fixed-width conversions *)

Module Bytes.

Definition to_Z (b : byte) : Z := Z.of_N (Byte.to_N b).

(** Go's [byte(z)]: the low eight bits. *)
Definition of_Z (z : Z) : byte :=
  match Byte.of_N (Z.to_N (z mod 256)) with
  | Some b => b
  | None => x00
  end.

Definition uint8 (z : Z) : Z := z mod 256.
Definition uint16 (z : Z) : Z := z mod 65536.
Definition uint32 (z : Z) : Z := z mod 4294967296.

(** [a | b] on bytes. *)
Definition or (a b : byte) : byte := of_Z (Z.lor (to_Z a) (to_Z b)).

Definition eqb (a b : byte) : bool := to_Z a =? to_Z b.

(** [len(s)] as a Go [int]. *)
Definition len {A} (l : list A) : Z := Z.of_nat (List.length l).

(** [binary.BigEndian.PutUint16], [PutUint32], [Uint16], [Uint32]. *)
Definition PutUint16 (v : Z) : list byte :=
  [of_Z (Z.shiftr v 8); of_Z v].

Definition PutUint32 (v : Z) : list byte :=
  [of_Z (Z.shiftr v 24); of_Z (Z.shiftr v 16); of_Z (Z.shiftr v 8); of_Z v].

Definition Uint16 (b0 b1 : byte) : Z :=
  Z.lor (to_Z b1) (Z.shiftl (to_Z b0) 8).

Definition Uint32 (b0 b1 b2 b3 : byte) : Z :=
  Z.lor (Z.lor (Z.lor (to_Z b3) (Z.shiftl (to_Z b2) 8))
               (Z.shiftl (to_Z b1) 16))
        (Z.shiftl (to_Z b0) 24).

End Bytes.

(** ** Results of fallible code *)

Inductive error : Type :=
| ErrInvalidTokenLen  (* errors.New("invalid token length") *)
| ErrOptionTooLong    (* errors.New("option is too long") *)
| ErrOptionGapTooLarge (* errors.New("option gap too large") *)
| ErrExtMarker        (* errors.New("unexpected extended option marker") *)
| ErrTruncated        (* errors.New("truncated") *)
| PanicInvalidType    (* panic in option.toBytes: invalid type for option *)
| PanicSliceBounds    (* run-time panic: slice bounds out of range *)
| ErrCRC              (* fmt.Errorf("CRC error") *)
| ErrBase64           (* "Couldn't decode base64 string" *)
| ErrTimeout          (* "Timeout reading from serial connection" *)
| ErrXport            (* an error returned by a collaborator *)
| OutOfFuel.          (* the model's loop bound was reached *)

Inductive result (A : Type) : Type :=
| Ok (a : A)
| Err (e : error).
Arguments Ok {A} a.
Arguments Err {A} e.

Definition bind {A B} (r : result A) (k : A -> result B) : result B :=
  match r with
  | Ok a => k a
  | Err e => Err e
  end.

Declare Scope result_scope.
Delimit Scope result_scope with result.
Notation "x <- r ;; k" := (bind r (fun x => k))
  (at level 61, r at next level, right associativity) : result_scope.
Notation "' p <- r ;; k" := (bind r (fun x => let p := x in k))
  (at level 61, p pattern, r at next level, right associativity) : result_scope.

Definition is_ok {A} (r : result A) : bool :=
  match r with Ok _ => true | Err _ => false end.

(** ** message.go *)

Module Coap.
Import Bytes.
Local Open Scope result_scope.

(** Option IDs ([OptionID] is a [uint8]). *)
Definition IfMatch : Z := 1.
Definition URIHost : Z := 3.
Definition ETag : Z := 4.
Definition IfNoneMatch : Z := 5.
Definition Observe : Z := 6.
Definition URIPort : Z := 7.
Definition LocationPath : Z := 8.
Definition URIPath : Z := 11.
Definition ContentFormat : Z := 12.
Definition MaxAge : Z := 14.
Definition URIQuery : Z := 15.
Definition Accept : Z := 17.
Definition LocationQuery : Z := 20.
Definition ProxyURI : Z := 35.
Definition ProxyScheme : Z := 39.
Definition Size1 : Z := 60.

Inductive valueFormat : Type :=
| valueUnknown | valueEmpty | valueOpaque | valueUint | valueString.

Record optionDef : Type := mkDef {
  format : valueFormat;
  minLen : Z;
  maxLen : Z
}.

(** The table [optionDefs]; entries not listed are the zero value. *)
Definition optionDefs (id : Z) : optionDef :=
  match id with
  | 1 => mkDef valueOpaque 0 8
  | 3 => mkDef valueString 1 255
  | 4 => mkDef valueOpaque 1 8
  | 5 => mkDef valueEmpty 0 0
  | 6 => mkDef valueUint 0 3
  | 7 => mkDef valueUint 0 2
  | 8 => mkDef valueString 0 255
  | 11 => mkDef valueString 0 255
  | 12 => mkDef valueUint 0 2
  | 14 => mkDef valueUint 0 4
  | 15 => mkDef valueString 0 255
  | 17 => mkDef valueUint 0 2
  | 20 => mkDef valueString 0 255
  | 35 => mkDef valueString 1 1034
  | 39 => mkDef valueString 1 255
  | 60 => mkDef valueUint 0 4
  | _ => mkDef valueUnknown 0 0
  end.

(** The dynamic type of an [interface{}] option value.  [VNil] is the nil
    interface; [VOther] stands for a value of any Go type that
    [option.toBytes] does not list. *)
Inductive iface : Type :=
| VNil
| VString (s : string)
| VBytes (b : list byte)
| VMediaType (v : Z)     (* MediaType is a byte *)
| VInt (v : Z)
| VInt32 (v : Z)
| VUint (v : Z)
| VUint32 (v : Z)
| VStringSlice (l : list string)   (* []string, expanded by AddOption *)
| VOther.

Record option_ : Type := mkOpt {
  ID : Z;
  Value : iface
}.

Definition options : Type := list option_.

Definition encodeInt (v : Z) : list byte :=
  if v =? 0 then []
  else if v <? 256 then [of_Z v]
  else if v <? 65536 then PutUint16 (uint16 v)
  else if v <? 16777216 then tl (PutUint32 v)
  else PutUint32 v.

(** [copy(tmp[4-len(b):], b)] panics when [len(b) > 4]. *)
Definition decodeInt (b : list byte) : result Z :=
  match b with
  | [] => Ok (Uint32 x00 x00 x00 x00)
  | [b3] => Ok (Uint32 x00 x00 x00 b3)
  | [b2; b3] => Ok (Uint32 x00 x00 b2 b3)
  | [b1; b2; b3] => Ok (Uint32 x00 b1 b2 b3)
  | [b0; b1; b2; b3] => Ok (Uint32 b0 b1 b2 b3)
  | _ => Err PanicSliceBounds
  end.

Definition toBytes (o : option_) : result (list byte) :=
  match Value o with
  | VString i => Ok (list_byte_of_string i)
  | VBytes i => Ok i
  | VMediaType i => Ok (encodeInt (uint32 i))
  | VInt i => Ok (encodeInt (uint32 i))
  | VInt32 i => Ok (encodeInt (uint32 i))
  | VUint i => Ok (encodeInt (uint32 i))
  | VUint32 i => Ok (encodeInt i)
  | VNil | VStringSlice _ | VOther => Err PanicInvalidType
  end.

Definition parseOptionValue (optionID : Z) (valueBuf : list byte) : result iface :=
  let def := optionDefs optionID in
  match format def with
  | valueUnknown => Ok VNil
  | fmt =>
    if (len valueBuf <? minLen def) || (len valueBuf >? maxLen def) then Ok VNil
    else
      match fmt with
      | valueUint =>
        intValue <- decodeInt valueBuf ;;
        if (optionID =? ContentFormat) || (optionID =? Accept)
        then Ok (VMediaType (uint8 intValue))
        else Ok (VUint32 intValue)
      | valueString => Ok (VString (string_of_list_byte valueBuf))
      | valueOpaque | valueEmpty => Ok (VBytes valueBuf)
      | valueUnknown => Ok VNil
      end
  end.

(** [options.Less]: by id, ties by position. *)
Definition Less (o : options) (i j : nat) : bool :=
  match nth_error o i, nth_error o j with
  | Some oi, Some oj =>
    if ID oi =? ID oj then Nat.ltb i j else ID oi <? ID oj
  | _, _ => false
  end.

Definition Minus (o : options) (oid : Z) : options :=
  filter (fun opt => negb (ID opt =? oid)) o.

Definition extoptByteCode : Z := 13.
Definition extoptByteAddend : Z := 13.
Definition extoptWordCode : Z := 14.
Definition extoptWordAddend : Z := 269.
Definition extoptError : Z := 15.

(** The closures of [writeOpt]. *)
Definition extendOpt (opt : Z) : Z * Z :=
  if opt >=? extoptByteAddend then
    if opt >=? extoptWordAddend then (extoptWordCode, opt - extoptWordAddend)
    else (extoptByteCode, opt - extoptByteAddend)
  else (opt, 0).

Definition writeExt (opt ext : Z) : list byte :=
  if opt =? extoptByteCode then [of_Z ext]
  else if opt =? extoptWordCode then PutUint16 (uint16 ext)
  else [].

Definition writeOptHeader (delta length : Z) : list byte :=
  let '(d, dx) := extendOpt delta in
  let '(l, lx) := extendOpt length in
  [or (of_Z (Z.shiftl d 4)) (of_Z l)] ++ writeExt d dx ++ writeExt l lx.

(** [writeOpt]: the writer [buf] is the list of bytes written so far. *)
Definition writeOpt (o : option_) (buf : list byte) (delta : Z)
  : result (list byte) :=
  b <- toBytes o ;;
  Ok (buf ++ writeOptHeader delta (len b) ++ b).

Fixpoint writeOptsFrom (prev : Z) (buf : list byte) (opts : options)
  : result (list byte) :=
  match opts with
  | [] => Ok buf
  | o :: rest =>
    buf' <- writeOpt o buf (ID o - prev) ;;
    writeOptsFrom (ID o) buf' rest
  end.

Definition writeOpts (buf : list byte) (opts : options) : result (list byte) :=
  writeOptsFrom 0 buf opts.

(** The closure [parseExtOpt] of [parseBody]; it consumes from [data]. *)
Definition parseExtOpt (opt : Z) (data : list byte) : result (Z * list byte) :=
  if opt =? extoptByteCode then
    match data with
    | b0 :: data' => Ok (to_Z b0 + extoptByteAddend, data')
    | [] => Err ErrTruncated
    end
  else if opt =? extoptWordCode then
    match data with
    | b0 :: b1 :: data' => Ok (Uint16 b0 b1 + extoptWordAddend, data')
    | _ => Err ErrTruncated
    end
  else Ok (opt, data).

(** One iteration of the loop of [parseBody], entered with [data = b :: data1]
    and [b <> 0xff]: the option id, the parsed value ([VNil] when the option is
    skipped) and the remaining input. *)
Definition parseOpt (prev : Z) (b : byte) (data1 : list byte)
  : result (Z * iface * list byte) :=
  let delta := Z.shiftr (to_Z b) 4 in
  let length := Z.land (to_Z b) 15 in
  if (delta =? extoptError) || (length =? extoptError) then Err ErrExtMarker
  else
    '(delta, data2) <- parseExtOpt delta data1 ;;
    '(length, data3) <- parseExtOpt length data2 ;;
    if len data3 <? length then Err ErrTruncated
    else
      let oid := uint8 (prev + delta) in
      opval <- parseOptionValue oid (firstn (Z.to_nat length) data3) ;;
      Ok (oid, opval, skipn (Z.to_nat length) data3).

Definition appendOpt (opts : options) (oid : Z) (opval : iface) : options :=
  match opval with
  | VNil => opts
  | _ => opts ++ [mkOpt oid opval]
  end.

(** The loop of [parseBody]; every iteration consumes at least one byte, so
    [length data] iterations always suffice (lemma [parseLoop_fuel]). *)
Fixpoint parseLoop (fuel : nat) (prev : Z) (data : list byte) (opts : options)
  : result (options * list byte) :=
  match data with
  | [] => Ok (opts, [])
  | b :: data1 =>
    if eqb b xff then Ok (opts, data1)
    else
      match fuel with
      | O => Err OutOfFuel
      | S fuel' =>
        '(oid, opval, data') <- parseOpt prev b data1 ;;
        parseLoop fuel' oid data' (appendOpt opts oid opval)
      end
  end.

Definition parseBody (data : list byte) : result (options * list byte) :=
  parseLoop (List.length data) 0 data [].

(** [MessageBase] and its mutators. *)
Record MessageBase : Type := mkMsg {
  typ : Z;
  code : Z;
  messageID : Z;
  token : list byte;
  payload : list byte;
  opts : options
}.

Definition setOpts (m : MessageBase) (o : options) : MessageBase :=
  mkMsg (typ m) (code m) (messageID m) (token m) (payload m) o.

Definition SetPayload (m : MessageBase) (p : list byte) : MessageBase :=
  mkMsg (typ m) (code m) (messageID m) (token m) p (opts m).

Definition RemoveOption (m : MessageBase) (opID : Z) : MessageBase :=
  setOpts m (Minus (opts m) opID).

Definition AddOption (m : MessageBase) (opID : Z) (val : iface) : MessageBase :=
  match val with
  | VStringSlice l => setOpts m (opts m ++ map (fun s => mkOpt opID (VString s)) l)
  | _ => setOpts m (opts m ++ [mkOpt opID val])
  end.

Definition SetOption (m : MessageBase) (opID : Z) (val : iface) : MessageBase :=
  AddOption (RemoveOption m opID) opID val.

(** Modelled from the spec: [MarshalBinary] and [UnmarshalBinary], the callers
    of [writeOpts] and [parseBody], are not in message.go.  For the region that
    follows the token the spec says: "writes options in ascending-id order"
    ("ordering is by numeric option id, ties broken by insertion order", the
    order of [options.Less]); "A payload present after options is preceded by a
    single 0xFF marker byte; no marker is written if payload is empty"; the
    header fields "are produced/consumed by the excluded header layer". *)
Fixpoint insertOption (o : option_) (l : options) : options :=
  match l with
  | [] => [o]
  | h :: t => if ID o <=? ID h then o :: l else h :: insertOption o t
  end.

Definition sortOptions (l : options) : options :=
  fold_right insertOption [] l.

Definition writePayload (buf p : list byte) : list byte :=
  match p with
  | [] => buf
  | _ => buf ++ xff :: p
  end.

Definition encodeBody (m : MessageBase) : result (list byte) :=
  buf <- writeOpts [] (sortOptions (opts m)) ;;
  Ok (writePayload buf (payload m)).

Definition decodeBody (hdr : MessageBase) (data : list byte) : result MessageBase :=
  '(o, p) <- parseBody data ;;
  Ok (mkMsg (typ hdr) (code hdr) (messageID hdr) (token hdr) p o).

End Coap.

(** ** message.go: the accessors of [MessageBase] *)

Module CoapMsg.
Import Bytes Coap.

(** A run-time panic of the accessors. *)
Inductive panic : Type :=
| PanicTypeAssertion   (* interface conversion: the value is not a string *)
| PanicIndexRange.     (* index out of range *)

Inductive outcome (A : Type) : Type :=
| Returns (a : A)
| Panics (p : panic).
Arguments Returns {A} a.
Arguments Panics {A} p.

Definition Confirmable : Z := 0.
Definition NonConfirmable : Z := 1.
Definition Acknowledgement : Z := 2.
Definition Reset : Z := 3.

Definition IsConfirmable (m : MessageBase) : bool := typ m =? Confirmable.

(** [options.Len] *)
Definition Len (o : options) : Z := len o.

(** The loop of [MessageBase.Options]. *)
Fixpoint optionValues (o : Z) (l : options) : list iface :=
  match l with
  | [] => []
  | v :: rest =>
    if o =? ID v then Value v :: optionValues o rest else optionValues o rest
  end.

Definition Options (m : MessageBase) (o : Z) : list iface :=
  optionValues o (opts m).

(** The loop of [MessageBase.Option]. *)
Fixpoint firstValue (o : Z) (l : options) : iface :=
  match l with
  | [] => VNil
  | v :: rest => if o =? ID v then Value v else firstValue o rest
  end.

Definition Option (m : MessageBase) (o : Z) : iface :=
  firstValue o (opts m).

(** The loop of [optionStrings]: [o.(string)] panics on any other value. *)
Fixpoint assertStrings (l : list iface) : outcome (list string) :=
  match l with
  | [] => Returns []
  | VString s :: rest =>
    match assertStrings rest with
    | Returns t => Returns (s :: t)
    | Panics p => Panics p
    end
  | _ :: _ => Panics PanicTypeAssertion
  end.

Definition optionStrings (m : MessageBase) (o : Z) : outcome (list string) :=
  assertStrings (Options m o).

Definition Path (m : MessageBase) : outcome (list string) :=
  optionStrings m URIPath.

(** [strings.Join(a, "/")] and [strings.Split(s, "/")]. *)
Fixpoint Join (a : list string) : string :=
  match a with
  | [] => EmptyString
  | [x] => x
  | x :: rest => String.append x (String "/"%char (Join rest))
  end.

Fixpoint Split (s : string) : list string :=
  match s with
  | EmptyString => [EmptyString]
  | String c rest =>
    if Ascii.eqb c "/"%char then EmptyString :: Split rest
    else
      match Split rest with
      | h :: t => String c h :: t
      | [] => [String c EmptyString]
      end
  end.

Definition PathString (m : MessageBase) : outcome string :=
  match Path m with
  | Returns l => Returns (Join l)
  | Panics p => Panics p
  end.

Definition SetPath (m : MessageBase) (s : list string) : MessageBase :=
  SetOption m URIPath (VStringSlice s).

(** The loop [for s[0] == '/' { s = s[1:] }] of [SetPathString]. *)
Fixpoint trimSlashes (s : string) : outcome string :=
  match s with
  | EmptyString => Panics PanicIndexRange
  | String c rest =>
    if Ascii.eqb c "/"%char then trimSlashes rest else Returns s
  end.

Definition SetPathString (m : MessageBase) (s : string) : outcome MessageBase :=
  match trimSlashes s with
  | Returns s' => Returns (SetPath m (Split s'))
  | Panics p => Panics p
  end.

Definition SetURIQuery (m : MessageBase) (s : string) : MessageBase :=
  AddOption m URIQuery (VString s).

(** The values [AddOption] stores for [val]: the strings of a [[]string] one
    by one, any other value as it is. *)
Definition addedValues (val : iface) : list iface :=
  match val with
  | VStringSlice l => map VString l
  | _ => [val]
  end.

(** A decoded option is well typed: its id is an [OptionID] with a registry
    entry, and its value has the Go type and the size of that entry. *)
Definition wellTyped (x : option_) : Prop :=
  let def := optionDefs (ID x) in
  0 <= ID x <= 255 /\
  match format def, Value x with
  | valueString, VString s =>
    minLen def <= len (list_byte_of_string s) <= maxLen def
  | valueOpaque, VBytes b => minLen def <= len b <= maxLen def
  | valueEmpty, VBytes b => b = []
  | valueUint, VMediaType v =>
    (ID x = ContentFormat \/ ID x = Accept) /\ 0 <= v < 256
  | valueUint, VUint32 v =>
    ID x <> ContentFormat /\ ID x <> Accept /\ 0 <= v < 256 ^ maxLen def
  | _, _ => False
  end.

(** [b] without its leading zero bytes. *)
Fixpoint dropZeros (b : list byte) : list byte :=
  match b with
  | x :: rest => if eqb x x00 then dropZeros rest else b
  | [] => []
  end.

(** The strings on which the loop of [SetPathString] runs off the end. *)
Fixpoint allSlashes (s : string) : bool :=
  match s with
  | EmptyString => true
  | String c rest => Ascii.eqb c "/"%char && allSlashes rest
  end.

End CoapMsg.

(** ** The wire format of the option region

    Vocabulary for the statements about [writeOpts] and [parseBody]: an option
    on the wire is its header followed by its value bytes. *)

Module CoapWire.
Import Bytes Coap.

(** The largest value a nibble with a two-byte extension can carry. *)
Definition maxExt : Z := 65535 + extoptWordAddend.

(** An option as it is laid out on the wire by [writeOpt]. *)
Definition wireOpt (delta : Z) (v : list byte) : list byte :=
  writeOptHeader delta (len v) ++ v.

(** A wire entry: the delta and the value bytes of one option. *)
Definition entry : Type := (Z * list byte)%type.

Definition wf_entry (e : entry) : Prop :=
  0 <= fst e <= maxExt /\ len (snd e) <= maxExt.

Fixpoint wire (es : list entry) : list byte :=
  match es with
  | [] => []
  | (d, v) :: es' => wireOpt d v ++ wire es'
  end.

(** The value [parseOptionValue] returns ([VNil] for a skipped option). *)
Definition valueOf (id : Z) (buf : list byte) : iface :=
  match parseOptionValue id buf with
  | Ok v => v
  | Err _ => VNil
  end.

Definition keepOpt (oid : Z) (opval : iface) : options :=
  appendOpt [] oid opval.

(** The id reached after a sequence of entries, and the options they decode
    to, starting from the running id [prev]. *)
Fixpoint lastId (prev : Z) (es : list entry) : Z :=
  match es with
  | [] => prev
  | (d, _) :: es' => lastId (uint8 (prev + d)) es'
  end.

Fixpoint decodeEntries (prev : Z) (es : list entry) : options :=
  match es with
  | [] => []
  | (d, v) :: es' =>
    let oid := uint8 (prev + d) in
    keepOpt oid (valueOf oid v) ++ decodeEntries oid es'
  end.

(** What may follow the last option: nothing, or the payload marker and the
    payload [p]. *)
Definition is_tail (tail p : list byte) : Prop :=
  tail = [] /\ p = [] \/ tail = xff :: p.

(** The nibble and the extension bytes the format prescribes for a delta or a
    length: 0-12 direct; 13-268 as nibble 13 and one byte holding the value
    minus 13; from 269 as nibble 14 and two bytes, big-endian, holding the
    value minus 269. *)
Definition specNibble (v : Z) : Z :=
  if v <=? 12 then v else if v <=? 268 then 13 else 14.

Definition specExt (v : Z) : list byte :=
  if v <=? 12 then []
  else if v <=? 268 then [of_Z (v - 13)]
  else [of_Z ((v - 269) / 256); of_Z ((v - 269) mod 256)].

(** The number of extension bytes a nibble announces. *)
Definition extSize (nibble : Z) : Z :=
  if nibble =? 13 then 1 else if nibble =? 14 then 2 else 0.

(** The bytes [toBytes] yields for an option, and the wire entries
    [writeOpts] produces for a list of options: each delta is the option's id
    minus the previous id. *)
Definition bytesOf (o : option_) : list byte :=
  match toBytes o with
  | Ok b => b
  | Err _ => []
  end.

Fixpoint entriesOf (prev : Z) (opts : options) : list entry :=
  match opts with
  | [] => []
  | o :: rest => (ID o - prev, bytesOf o) :: entriesOf (ID o) rest
  end.

(** The Go types [toBytes] maps to text, opaque bytes or an integer. *)
Definition mappable (v : iface) : bool :=
  match v with
  | VNil | VStringSlice _ | VOther => false
  | _ => true
  end.

(** An option conforms to the registry: its id is an [OptionID] with an
    entry, its value has the entry's shape (a value of the Go type it is held
    in) and its encoded length is within the entry's bounds. *)
Definition conforms (o : option_) : bool :=
  let def := optionDefs (ID o) in
  let inb := (minLen def <=? len (bytesOf o)) && (len (bytesOf o) <=? maxLen def) in
  (0 <=? ID o) && (ID o <=? 255) &&
  match format def, Value o with
  | valueString, VString _ => inb
  | valueOpaque, VBytes _ => inb
  | valueEmpty, VBytes _ => inb
  | valueUint, VMediaType v => (0 <=? v) && (v <? 256) && inb
  | valueUint, VInt v =>
    (- 9223372036854775808 <=? v) && (v <? 9223372036854775808) && inb
  | valueUint, VInt32 v => (- 2147483648 <=? v) && (v <? 2147483648) && inb
  | valueUint, VUint v => (0 <=? v) && (v <? 18446744073709551616) && inb
  | valueUint, VUint32 v => (0 <=? v) && (v <? 4294967296) && inb
  | _, _ => false
  end.

(** The value is held in the Go type [parseOptionValue] produces for the id:
    [MediaType] for Content-Format and Accept, [uint32] for the other integer
    options, [string] and [[]byte]. *)
Definition canonical (o : option_) : bool :=
  match Value o with
  | VString _ | VBytes _ => true
  | VMediaType _ => (ID o =? ContentFormat) || (ID o =? Accept)
  | VUint32 _ => negb ((ID o =? ContentFormat) || (ID o =? Accept))
  | _ => false
  end.

(** Ascending ids. *)
Definition ascending (opts : options) : Prop :=
  Sorted (fun a b => ID a <= ID b) opts.

(** The loop of [parseBody] entered with running id [prev] and the options
    [acc] collected so far. *)
Definition parseFrom (prev : Z) (data : list byte) (acc : options)
  : result (options * list byte) :=
  parseLoop (List.length data) prev data acc.

End CoapWire.

(** ** serial_xport.go *)

Module Serial.
Import Bytes.
Local Open Scope result_scope.

(** What reaches the port: [sx.port.Write] calls and the pauses between
    them. *)
Inductive event : Type :=
| Write (bs : list byte)
| Sleep (ms : Z).

(** [bufio.Scanner] over the port: the lines it will still deliver and the
    value of [Err()] once [Scan()] has returned false. *)
Record Scanner : Type := mkScanner {
  lines : list (list byte);
  scanErr : option error
}.

(** [s[i:j]] for [0 <= i <= j <= len(s)]. *)
Definition slice {A} (s : list A) (i j : Z) : list A :=
  firstn (Z.to_nat (j - i)) (skipn (Z.to_nat i) s).

(** The loop that drops leading carriage returns. *)
Fixpoint stripCR (line : list byte) : list byte :=
  match line with
  | b :: (_ :: _) as rest => if eqb b x0d then stripCR rest else line
  | _ => line
  end.

Definition isStart (line : list byte) : bool :=
  match line with
  | b0 :: b1 :: _ => eqb b0 x06 && eqb b1 x09
  | _ => false
  end.

Definition isCont (line : list byte) : bool :=
  match line with
  | b0 :: b1 :: _ => eqb b0 x04 && eqb b1 x14
  | _ => false
  end.

Section SerialXport.

(** Collaborators outside the repository: [crc16.Crc16] (a [uint16]) and
    [base64.StdEncoding]. *)
Variable Crc16 : list byte -> Z.
Variable base64Encode : list byte -> list byte.
Variable base64Decode : list byte -> option (list byte).

(** The reassembly unit of nmserial/packet.go, which is not embedded here;
    [Rx] is stated over its four operations.  A [*Packet] is
    mutated in place, so the operations return the updated packet. *)
Variable Packet : Type.
Variable NewPacket : Z -> result Packet.
Variable AddBytes : Packet -> list byte -> Packet * bool.
Variable GetBytes : Packet -> list byte.
Variable TrimEnd : Packet -> Z -> Packet.

Record SerialXport : Type := mkXport {
  port_tx : list event;               (* written to the port so far *)
  port_rx : list Scanner;             (* what later scanners will read *)
  scanner : Scanner;
  pkt : option Packet
}.

Definition txRaw (sx : SerialXport) (bytes : list byte) : SerialXport :=
  mkXport (port_tx sx ++ [Write bytes]) (port_rx sx) (scanner sx) (pkt sx).

Definition sleep (sx : SerialXport) (ms : Z) : SerialXport :=
  mkXport (port_tx sx ++ [Sleep ms]) (port_rx sx) (scanner sx) (pkt sx).

(** The loop of [Tx]; [written] grows by at least one per iteration. *)
Fixpoint txLoop (fuel : nat) (base64Data : list byte) (written : Z)
    (sx : SerialXport) : result SerialXport :=
  let totlen := len base64Data in
  if written <? totlen then
    match fuel with
    | O => Err OutOfFuel
    | S fuel' =>
      let sx1 :=
        if written =? 0 then txRaw sx [x06; x09]
        else txRaw (sleep sx 20) [x04; x14] in
      let writeLen := Z.min 124 (totlen - written) in
      let writeBytes := slice base64Data written (written + writeLen) in
      let sx2 := txRaw sx1 writeBytes in
      let sx3 := txRaw sx2 [x0a] in
      txLoop fuel' base64Data (written + writeLen) sx3
    end
  else Ok sx.

Definition Tx (sx : SerialXport) (bytes : list byte) : result SerialXport :=
  let crc := Crc16 bytes in
  let pktData := PutUint16 crc in
  let bytes := bytes ++ pktData in
  let dLen := uint16 (len bytes) in
  let pktData := PutUint16 dLen in
  let pktData := pktData ++ bytes in
  let base64Data := base64Encode pktData in
  txLoop (List.length base64Data) base64Data 0 sx.

Definition setPkt (sx : SerialXport) (p : option Packet) : SerialXport :=
  mkXport (port_tx sx) (port_rx sx) (scanner sx) p.

Definition setScanner (sx : SerialXport) (sc : Scanner) : SerialXport :=
  mkXport (port_tx sx) (port_rx sx) sc (pkt sx).

(** [bufio.NewScanner(sx.port)] *)
Definition newScanner (sx : SerialXport) : SerialXport :=
  match port_rx sx with
  | [] => mkXport (port_tx sx) [] (mkScanner [] None) (pkt sx)
  | sc :: later => mkXport (port_tx sx) later sc (pkt sx)
  end.

(** The body of the [for sx.scanner.Scan()] loop on one line: [None] when the
    loop goes on to the next line, [Some r] when [Rx] returns [r]. *)
Definition rxLine (sx : SerialXport) (line : list byte)
  : SerialXport * option (result (list byte)) :=
  let line := stripCR line in
  if (len line <? 2) || negb (isCont line || isStart line) then (sx, None)
  else
    let base64Data := skipn 2 line in
    match base64Decode base64Data with
    | None => (sx, Some (Err ErrBase64))
    | Some data =>
      let k (sx : SerialXport) (data : list byte) :=
        match pkt sx with
        | None => (sx, None)
        | Some p =>
          let '(p, full) := AddBytes p data in
          let sx := setPkt sx (Some p) in
          if full then
            if negb (Crc16 (GetBytes p) =? 0) then (sx, Some (Err ErrCRC))
            else
              let p := TrimEnd p 2 in
              let b := GetBytes p in
              (setPkt sx None, Some (Ok b))
          else (sx, None)
        end in
      if isStart line then
        match data with
        | d0 :: d1 :: data' =>
          let pktLen := Uint16 d0 d1 in
          match NewPacket pktLen with
          | Err e => (setPkt sx None, Some (Err e))   (* sx.pkt, err = ... *)
          | Ok p => k (setPkt sx (Some p)) data'
          end
        | _ => (sx, None)
        end
      else k sx data
    end.

(** The part of [rxLine] that feeds decoded bytes to the packet in progress,
    on its own. *)
Definition feed (sx : SerialXport) (data : list byte)
  : SerialXport * option (result (list byte)) :=
  match pkt sx with
  | None => (sx, None)
  | Some p =>
    let '(p, full) := AddBytes p data in
    let sx := setPkt sx (Some p) in
    if full then
      if negb (Crc16 (GetBytes p) =? 0) then (sx, Some (Err ErrCRC))
      else (setPkt sx None, Some (Ok (GetBytes (TrimEnd p 2))))
    else (sx, None)
  end.

Fixpoint rxLoop (ls : list (list byte)) (sx : SerialXport)
  : SerialXport * result (list byte) :=
  match ls with
  | [] =>
    let sx := setScanner sx (mkScanner [] (scanErr (scanner sx))) in
    match scanErr (scanner sx) with
    | None => (newScanner sx, Err ErrTimeout)
    | Some e => (sx, Err e)
    end
  | line :: rest =>
    match rxLine sx line with
    | (sx', Some r) => (setScanner sx' (mkScanner rest (scanErr (scanner sx))), r)
    | (sx', None) => rxLoop rest sx'
    end
  end.

Definition Rx (sx : SerialXport) : SerialXport * result (list byte) :=
  rxLoop (lines (scanner sx)) sx.

End SerialXport.

End Serial.

(** ** mtech_lora_sesn.go *)

Module Lora.
Import Bytes.
Local Open Scope result_scope.

(** Modelled from the spec: the declarations of package [lora]
    ([CoapLoraFragStart], [CoapLoraFrag], [COAP_LORA_LAST_FRAG]) are missing.
    "Fragment Header: fragmentNumber (7 bits) +
    lastFragment flag (high bit) for continuation fragments; the first fragment
    additionally carries a 16-bit checksum of the entire un-fragmented
    payload." *)
Definition COAP_LORA_LAST_FRAG : Z := 128.

Inductive FragHdr : Type :=
| CoapLoraFragStart (FragNum : Z) (Crc : Z)
| CoapLoraFrag (FragNum : Z).

Definition FragNum (h : FragHdr) : Z :=
  match h with
  | CoapLoraFragStart n _ => n
  | CoapLoraFrag n => n
  end.

(** A segment: the header handed to [binary.Write] and the payload slice
    written after it. *)
Record Segment : Type := mkSeg {
  hdr : FragHdr;
  blk : list byte
}.

(** [b[i:j]]; panics unless [0 <= i <= j <= len(b)]. *)
Definition slice {A} (b : list A) (i j : Z) : result (list A) :=
  if (0 <=? i) && (i <=? j) && (j <=? len b)
  then Ok (firstn (Z.to_nat (j - i)) (skipn (Z.to_nat i) b))
  else Err PanicSliceBounds.

(** The fields of [LoraSesn] that [Mtu] reads: [s.cfg.Lora.SegSz], [s.mtu]
    and the value of [s.xport.minMtu()]. *)
Record LoraSesn : Type := mkSesn {
  cfg_Lora_SegSz : Z;
  mtu : Z;
  xport_minMtu : Z
}.

Definition Mtu (s : LoraSesn) : Z :=
  if negb (cfg_Lora_SegSz s =? 0) then cfg_Lora_SegSz s
  else if negb (mtu s =? 0) then mtu s
  else xport_minMtu s.

Section LoraSesn.

Variable Crc16 : list byte -> Z.
(** [s.xport.Tx] applied to the enveloped segment: [None] is a nil error. *)
Variable xportTx : Segment -> option error.

(** The loop of [sendFragments]: the segments handed to [s.xport.Tx] so far,
    and the value returned. *)
Fixpoint sendLoop (fuel : nat) (segSz : Z) (b : list byte) (crc : Z)
    (off idx : Z) (sent : list Segment) : list Segment * result unit :=
  if off <? len b then
    match fuel with
    | O => (sent, Err OutOfFuel)
    | S fuel' =>
      let r :=
        if off =? 0 then
          let blkLen := segSz - 4 in
          let '(blkLen, fragNum) :=
            if blkLen >=? len b
            then (len b, Z.lor 0 COAP_LORA_LAST_FRAG)
            else (blkLen, 0) in
          s <- slice b 0 blkLen ;;
          Ok (blkLen, mkSeg (CoapLoraFragStart fragNum crc) s)
        else
          let blkLen := segSz - 1 in
          let '(blkLen, fragNum) :=
            if blkLen >=? len b - off
            then (len b - off, Z.lor (uint8 idx) COAP_LORA_LAST_FRAG)
            else (blkLen, uint8 idx) in
          s <- slice b off (off + blkLen) ;;
          Ok (blkLen, mkSeg (CoapLoraFrag fragNum) s) in
      match r with
      | Err e => (sent, Err e)
      | Ok (blkLen, seg) =>
        let sent := sent ++ [seg] in
        match xportTx seg with
        | Some e => (sent, Err e)
        | None => sendLoop fuel' segSz b crc (off + blkLen) (idx + 1) sent
        end
      end
    end
  else (sent, Ok tt).

Definition sendFragments (fuel : nat) (s : LoraSesn) (b : list byte)
  : list Segment * result unit :=
  let segSz := Mtu s in
  let crc := Crc16 b in
  sendLoop fuel segSz b crc 0 0 [].

End LoraSesn.

End Lora.

(** ** Splitting a byte string into pieces of bounded size

    Both transports cut a buffer into consecutive pieces of at most [c]
    elements: piece [i] is [l[c*i : min(c*(i+1), len(l))]]. *)

Module Chunks.

Definition chunk {A} (c : nat) (l : list A) (i : nat) : list A :=
  firstn c (skipn (c * i) l).

Definition chunkCount (c n : nat) : nat := (n + c - 1) / c.

Definition chunks {A} (c : nat) (l : list A) : list (list A) :=
  map (chunk c l) (seq 0 (chunkCount c (List.length l))).

End Chunks.

(** ** The frames of [serial_xport.go], as the specification words them *)

Module SerialWire.
Import Bytes Serial Chunks.

(** "appends a 16-bit checksum (computed over payload) to payload, prepends a
    16-bit big-endian length of the checksummed payload" *)
Definition frame (Crc16 : list byte -> Z) (payload : list byte) : list byte :=
  let body := payload ++ PutUint16 (Crc16 payload) in
  PutUint16 (uint16 (len body)) ++ body.

(** "The first burst is preceded by a two-byte start marker; every subsequent
    burst is preceded by a different two-byte continuation marker and a short
    fixed delay; every burst is terminated by a newline." *)
Definition burstEvents (data : list byte) (i : nat) : list event :=
  (if Nat.eqb i 0 then [Write [x06; x09]] else [Sleep 20; Write [x04; x14]])
  ++ [Write (chunk 124 data i); Write [x0a]].

Definition txEvents (data : list byte) : list event :=
  flat_map (burstEvents data) (seq 0 (chunkCount 124 (List.length data))).

(** The transport after the events [evs] have reached the port. *)
Definition wrote {Packet} (sx : SerialXport Packet) (evs : list event)
  : SerialXport Packet :=
  mkXport Packet (port_tx _ sx ++ evs) (port_rx _ sx) (scanner _ sx) (pkt _ sx).

(** The bytes that reach the port, in the order of the writes. *)
Definition written (evs : list event) : list byte :=
  flat_map (fun e => match e with Write bs => bs | Sleep _ => [] end) evs.

(** Line [i] of the text [Tx] puts on the port for the base64 text [data]: the
    marker and burst [i], without the newline that ends it. *)
Definition txLine (data : list byte) (i : nat) : list byte :=
  (if Nat.eqb i 0 then [x06; x09] else [x04; x14]) ++ chunk 124 data i.

Definition txLines (data : list byte) : list (list byte) :=
  map (txLine data) (seq 0 (chunkCount 124 (List.length data))).

(** A line [Rx] passes over: after the leading carriage returns it begins
    with neither marker (or has fewer than two bytes). *)
Definition noise (line : list byte) : bool :=
  negb (isStart (stripCR line)) && negb (isCont (stripCR line)).

End SerialWire.

(** ** The segments of [sendFragments], as the specification words them *)

Module LoraWire.
Import Bytes Lora Chunks.

Definition lastFlag (h : FragHdr) : bool := Z.testbit (FragNum h) 7.
Definition fragNumber (h : FragHdr) : Z := Z.land (FragNum h) 127.

(** "First segment reserves 4 header bytes (fragment number=0, payload
    checksum over the whole payload) and carries segmentSize-4 payload bytes
    (or fewer if payload is shorter, in which case the last-fragment flag is
    set on this first segment and no further segments are sent).  Subsequent
    segments reserve 1 header byte (fragment number = running index,
    last-fragment flag set when the remaining bytes fit) and carry
    segmentSize-1 payload bytes." *)
Definition flagIf (last : bool) : Z := if last then COAP_LORA_LAST_FRAG else 0.

(** Continuation segment [j] (fragment number [j + 1]) of [k], cut from the
    bytes [rest] that follow the first segment's. *)
Definition contSeg (c : nat) (rest : list byte) (k j : nat) : Segment :=
  mkSeg (CoapLoraFrag (Z.of_nat (S j) + flagIf (Nat.eqb (S j) k)))
        (chunk c rest j).

Definition fragments (segSz : Z) (crc : Z) (b : list byte) : list Segment :=
  let first := firstn (Z.to_nat (segSz - 4)) b in
  let rest := skipn (Z.to_nat (segSz - 4)) b in
  let c := Z.to_nat (segSz - 1) in
  let k := chunkCount c (List.length rest) in
  mkSeg (CoapLoraFragStart (flagIf (Nat.eqb k 0)) crc) first
  :: map (contSeg c rest k) (seq 0 k).

(** The segments that reach a transport offered [segs] in order when the
    sender stops at the first one it rejects, and what the sender returns; [r]
    is returned if none is rejected. *)
Fixpoint deliver (xportTx : Segment -> option error) (segs : list Segment)
    (r : result unit) : list Segment * result unit :=
  match segs with
  | [] => ([], r)
  | seg :: rest =>
    match xportTx seg with
    | Some e => ([seg], Err e)
    | None => (seg :: fst (deliver xportTx rest r), snd (deliver xportTx rest r))
    end
  end.

End LoraWire.

(** ** mtech_lora_sesn.go: opening and closing a session

    [Open] and [Close] up to the calls they make on their collaborators (the
    transceiver, the listener map, the transport's lock, the session's
    goroutine), which are recorded in order.  The outcomes of
    [mgmt.NewTransceiver] and [AddListener] are arguments. *)

Module LoraLifecycle.

Inductive call : Type :=
| XportLock
| XportUnlock
| NewTransceiver
| NewListener
| AddListener
| TxvrStop
| TxvrErrorAll
| WgAdd
| Go
| CloseStopChan
| ListenerClose
| WgWait.

Inductive sesnError : Type :=
| SesnAlreadyOpenError
| SesnClosedError
| Other (e : error).

(** [isOpen], whether [s.txvr] and [s.stopChan] are non-nil, and the calls
    made so far. *)
Record LoraSesn : Type := mkLoraSesn {
  isOpen : bool;
  txvr : bool;
  stopChan : bool;
  calls : list call
}.

Definition called (s : LoraSesn) (cs : list call) : LoraSesn :=
  mkLoraSesn (isOpen s) (txvr s) (stopChan s) (calls s ++ cs).

Definition Open (newTransceiver addListener : option error) (s : LoraSesn)
  : LoraSesn * option sesnError :=
  if isOpen s then (s, Some SesnAlreadyOpenError)
  else
    let s := called s [XportLock; NewTransceiver] in
    match newTransceiver with
    | Some e => (s, Some (Other e))
    | None =>
      let s := mkLoraSesn (isOpen s) true true (calls s ++ [NewListener; AddListener]) in
      match addListener with
      | Some e => (called s [TxvrStop], Some (Other e))
      | None =>
        let s := called s [XportUnlock; WgAdd; Go] in
        (mkLoraSesn true (txvr s) (stopChan s) (calls s), None)
      end
    end.

Definition Close (s : LoraSesn) : LoraSesn * option sesnError :=
  if negb (isOpen s) then (s, Some SesnClosedError)
  else
    let s := mkLoraSesn false (txvr s) (stopChan s)
               (calls s ++ [TxvrErrorAll; TxvrStop; CloseStopChan;
                            ListenerClose; WgWait]) in
    (mkLoraSesn (isOpen s) false false (calls s), None).

Definition IsOpen (s : LoraSesn) : bool := isOpen s.

(** How many more times the transport was locked than unlocked. *)
Fixpoint locksHeld (cs : list call) : Z :=
  match cs with
  | [] => 0
  | XportLock :: cs' => locksHeld cs' + 1
  | XportUnlock :: cs' => locksHeld cs' - 1
  | _ :: cs' => locksHeld cs'
  end.

End LoraLifecycle.

(** ** Instances of the collaborators

    The transports are embedded over their collaborators.  To run them on
    concrete inputs this module supplies instances: the CRC-16 of the serial
    link (polynomial 0x1021, initial value 0), the standard padded base64
    alphabet, and the reassembly packet. *)

Module Instances.
Import Bytes.

Fixpoint crcBits (n : nat) (crc : Z) : Z :=
  match n with
  | O => crc
  | S n' =>
    let shifted := uint16 (Z.shiftl crc 1) in
    crcBits n' (if Z.testbit crc 15 then Z.lxor shifted 4129 else shifted)
  end.

Definition crcByte (crc : Z) (b : byte) : Z :=
  crcBits 8 (Z.lxor crc (Z.shiftl (to_Z b) 8)).

Definition Crc16 (bs : list byte) : Z := fold_left crcByte bs 0.

Definition alphabet : list byte :=
  list_byte_of_string
    "ABCDEFGHIJKLMNOPQRSTUVWXYZabcdefghijklmnopqrstuvwxyz0123456789+/".

Definition b64char (n : Z) : byte := nth (Z.to_nat n) alphabet x00.

Fixpoint indexOf (c : byte) (l : list byte) (i : Z) : option Z :=
  match l with
  | [] => None
  | h :: t => if eqb c h then Some i else indexOf c t (i + 1)
  end.

Definition b64val (c : byte) : option Z := indexOf c alphabet 0.

Fixpoint base64Encode (l : list byte) : list byte :=
  match l with
  | [] => []
  | [a] =>
    let n := to_Z a * 16 in
    [b64char (n / 64); b64char (n mod 64); x3d; x3d]
  | [a; b] =>
    let n := (to_Z a * 256 + to_Z b) * 4 in
    [b64char (n / 4096); b64char (n / 64 mod 64); b64char (n mod 64); x3d]
  | a :: b :: c :: rest =>
    let n := to_Z a * 65536 + to_Z b * 256 + to_Z c in
    b64char (n / 262144) :: b64char (n / 4096 mod 64)
    :: b64char (n / 64 mod 64) :: b64char (n mod 64) :: base64Encode rest
  end.

Fixpoint base64Decode (l : list byte) : option (list byte) :=
  match l with
  | [] => Some []
  | c0 :: c1 :: c2 :: c3 :: rest =>
    match b64val c0, b64val c1, b64val c2, b64val c3, rest with
    | Some v0, Some v1, Some v2, Some v3, _ =>
      let n := ((v0 * 64 + v1) * 64 + v2) * 64 + v3 in
      match base64Decode rest with
      | Some r => Some (of_Z (n / 65536) :: of_Z (n / 256) :: of_Z n :: r)
      | None => None
      end
    | Some v0, Some v1, Some v2, None, [] =>
      if eqb c3 x3d
      then Some [of_Z ((v0 * 64 + v1) / 16); of_Z (((v0 * 64 + v1) * 64 + v2) / 4)]
      else None
    | Some v0, Some v1, None, None, [] =>
      if eqb c2 x3d && eqb c3 x3d then Some [of_Z ((v0 * 64 + v1) / 16)]
      else None
    | _, _, _, _, _ => None
    end
  | _ => None
  end.

(** Modelled from the spec: [Packet] of nmserial/packet.go is missing.
    "Packet (reassembly unit): expectedLength, buffer (append-only),
    complete flag set when buffer reaches expectedLength." *)
Record Packet : Type := mkPacket {
  expectedLen : Z;
  buffer : list byte
}.

Definition NewPacket (expectedLen : Z) : result Packet :=
  Ok (mkPacket expectedLen []).

Definition AddBytes (p : Packet) (bs : list byte) : Packet * bool :=
  let p' := mkPacket (expectedLen p) (buffer p ++ bs) in
  (p', len (buffer p') >=? expectedLen p').

Definition GetBytes (p : Packet) : list byte := buffer p.

Definition TrimEnd (p : Packet) (count : Z) : Packet :=
  mkPacket (expectedLen p)
           (firstn (List.length (buffer p) - Z.to_nat count) (buffer p)).

(** The packet [p] expects [n] bytes and has collected [buf]. *)
Definition holds (p : Packet) (n : Z) (buf : list byte) : Prop :=
  expectedLen p = n /\ buffer p = buf.

End Instances.

(** * Properties *)

(** ** Facts about bytes and fixed-width conversions *)

Module BytesFacts.
Import Bytes.

Lemma to_Z_range b : 0 <= to_Z b < 256.
Proof.
  unfold to_Z. pose proof (Byte.to_N_bounded b). lia.
Qed.

Lemma to_of_Z z : to_Z (of_Z z) = z mod 256.
Proof.
  unfold of_Z, to_Z.
  pose proof (Z.mod_pos_bound z 256 eq_refl) as Hb.
  destruct (Byte.of_N (Z.to_N (z mod 256))) as [b|] eqn:E.
  - apply Byte.to_of_N in E. rewrite E. lia.
  - apply Byte.of_N_None_iff in E. lia.
Qed.

Lemma of_to_Z b : of_Z (to_Z b) = b.
Proof.
  unfold of_Z, to_Z.
  pose proof (Byte.to_N_bounded b) as Hb.
  rewrite Z.mod_small by lia.
  rewrite N2Z.id, Byte.of_to_N. reflexivity.
Qed.

Lemma to_Z_inj a b : to_Z a = to_Z b -> a = b.
Proof.
  intros H. rewrite <- (of_to_Z a), <- (of_to_Z b). now rewrite H.
Qed.

Lemma eqb_eq a b : eqb a b = true <-> a = b.
Proof.
  unfold eqb. rewrite Z.eqb_eq. split; [apply to_Z_inj | now intros ->].
Qed.

Lemma len_nonneg {A} (l : list A) : 0 <= len l.
Proof. unfold len. lia. Qed.

Lemma len_app {A} (l1 l2 : list A) : len (l1 ++ l2) = len l1 + len l2.
Proof. unfold len. rewrite length_app. lia. Qed.

(** Disjoint bit ranges: [lo | hi << n] is [lo + hi * 2^n]. *)
Lemma lor_shiftl lo hi n :
  0 <= n -> 0 <= lo < 2 ^ n -> Z.lor lo (Z.shiftl hi n) = lo + hi * 2 ^ n.
Proof.
  intros Hn Hlo.
  assert (Hand : Z.land lo (Z.shiftl hi n) = 0).
  { apply Z.bits_inj'. intros i Hi.
    rewrite Z.land_spec, Z.bits_0.
    destruct (Z.lt_ge_cases i n) as [Hlt | Hge].
    - rewrite Z.shiftl_spec_low by assumption. apply andb_false_r.
    - rewrite <- (Z.mod_small lo (2 ^ n)) by assumption.
      rewrite Z.mod_pow2_bits_high by lia. reflexivity. }
  rewrite <- Z.lxor_lor by assumption.
  rewrite <- Z.add_nocarry_lxor by assumption.
  rewrite Z.shiftl_mul_pow2 by assumption. reflexivity.
Qed.

Lemma Uint16_eq b0 b1 : Uint16 b0 b1 = to_Z b0 * 256 + to_Z b1.
Proof.
  unfold Uint16. pose proof (to_Z_range b1).
  rewrite (lor_shiftl _ _ 8) by lia. change (2 ^ 8) with 256. lia.
Qed.

Lemma Uint16_range b0 b1 : 0 <= Uint16 b0 b1 < 65536.
Proof.
  rewrite Uint16_eq. pose proof (to_Z_range b0). pose proof (to_Z_range b1). lia.
Qed.

Lemma Uint32_eq b0 b1 b2 b3 :
  Uint32 b0 b1 b2 b3 =
  to_Z b0 * 16777216 + to_Z b1 * 65536 + to_Z b2 * 256 + to_Z b3.
Proof.
  unfold Uint32.
  pose proof (to_Z_range b0). pose proof (to_Z_range b1).
  pose proof (to_Z_range b2). pose proof (to_Z_range b3).
  rewrite (lor_shiftl _ _ 8) by lia. change (2 ^ 8) with 256.
  rewrite (lor_shiftl _ _ 16) by (change (2 ^ 16) with 65536; lia).
  change (2 ^ 16) with 65536.
  rewrite (lor_shiftl _ _ 24) by (change (2 ^ 24) with 16777216; lia).
  change (2 ^ 24) with 16777216. lia.
Qed.

Lemma Uint16_PutUint16 v :
  0 <= v < 65536 ->
  exists b0 b1, PutUint16 v = [b0; b1] /\ Uint16 b0 b1 = v.
Proof.
  intros Hv. unfold PutUint16. do 2 eexists. split; [reflexivity|].
  rewrite Uint16_eq, !to_of_Z, Z.shiftr_div_pow2 by lia.
  change (2 ^ 8) with 256. Z.div_mod_to_equations. lia.
Qed.

End BytesFacts.

(** ** The option codec of message.go *)

Module CoapFacts.
Import Bytes BytesFacts Coap CoapWire.
Local Open Scope result_scope.

(** *** The option header *)

Lemma extendOpt_direct v : 0 <= v <= 12 -> extendOpt v = (v, 0).
Proof.
  intros H. unfold extendOpt, extoptByteAddend.
  destruct (Z.geb_spec v 13); [lia | reflexivity].
Qed.

Lemma extendOpt_byte v : 13 <= v <= 268 -> extendOpt v = (13, v - 13).
Proof.
  intros H. unfold extendOpt, extoptByteAddend, extoptWordAddend.
  destruct (Z.geb_spec v 13); [|lia].
  destruct (Z.geb_spec v 269); [lia | reflexivity].
Qed.

Lemma extendOpt_word v : 269 <= v -> extendOpt v = (14, v - 269).
Proof.
  intros H. unfold extendOpt, extoptByteAddend, extoptWordAddend.
  destruct (Z.geb_spec v 13); [|lia].
  destruct (Z.geb_spec v 269); [reflexivity | lia].
Qed.

Lemma extendOpt_code v : 0 <= v -> 0 <= fst (extendOpt v) <= 14.
Proof.
  intros H.
  destruct (Z.le_gt_cases v 12); [rewrite extendOpt_direct by lia; simpl; lia|].
  destruct (Z.le_gt_cases v 268); [rewrite extendOpt_byte by lia; simpl; lia|].
  rewrite extendOpt_word by lia. simpl. lia.
Qed.

(** The first byte of an option packs the two nibbles. *)
Lemma hdr_byte d l :
  0 <= d < 16 -> 0 <= l < 16 ->
  to_Z (or (of_Z (Z.shiftl d 4)) (of_Z l)) = 16 * d + l.
Proof.
  intros Hd Hl. unfold or.
  rewrite !to_of_Z, Z.shiftl_mul_pow2 by lia. change (2 ^ 4) with 16.
  rewrite (Z.mod_small (d * 16)), (Z.mod_small l) by lia.
  rewrite Z.lor_comm. replace (d * 16) with (Z.shiftl d 4)
    by (rewrite Z.shiftl_mul_pow2 by lia; reflexivity).
  rewrite (lor_shiftl l d 4) by (change (2 ^ 4) with 16; lia).
  change (2 ^ 4) with 16. rewrite Z.mod_small by lia. lia.
Qed.

Lemma hdr_nibbles d l :
  0 <= d < 16 -> 0 <= l < 16 ->
  Z.shiftr (16 * d + l) 4 = d /\ Z.land (16 * d + l) 15 = l.
Proof.
  intros Hd Hl. split.
  - rewrite Z.shiftr_div_pow2 by lia. change (2 ^ 4) with 16.
    Z.div_mod_to_equations. lia.
  - change 15 with (Z.ones 4). rewrite Z.land_ones by lia.
    change (2 ^ 4) with 16. Z.div_mod_to_equations. lia.
Qed.

Lemma nibbles_range b :
  0 <= Z.shiftr (to_Z b) 4 < 16 /\ 0 <= Z.land (to_Z b) 15 < 16.
Proof.
  pose proof (to_Z_range b). split.
  - rewrite Z.shiftr_div_pow2 by lia. change (2 ^ 4) with 16.
    Z.div_mod_to_equations. lia.
  - change 15 with (Z.ones 4). rewrite Z.land_ones by lia.
    change (2 ^ 4) with 16. Z.div_mod_to_equations. lia.
Qed.

(** The extension bytes written for a value are read back as that value. *)
Lemma parseExtOpt_writeExt v rest :
  0 <= v <= maxExt ->
  parseExtOpt (fst (extendOpt v))
              (writeExt (fst (extendOpt v)) (snd (extendOpt v)) ++ rest)
  = Ok (v, rest).
Proof.
  unfold maxExt, extoptWordAddend. intros Hv.
  destruct (Z.le_gt_cases v 12).
  { rewrite extendOpt_direct by lia. simpl fst; simpl snd.
    unfold parseExtOpt, writeExt, extoptByteCode, extoptWordCode.
    destruct (Z.eqb_spec v 13); [lia|]. destruct (Z.eqb_spec v 14); [lia|].
    reflexivity. }
  destruct (Z.le_gt_cases v 268).
  { rewrite extendOpt_byte by lia. simpl fst; simpl snd.
    unfold parseExtOpt, writeExt. simpl.
    rewrite to_of_Z, Z.mod_small by lia. unfold extoptByteAddend.
    f_equal. f_equal. lia. }
  rewrite extendOpt_word by lia. cbn [fst snd].
  unfold parseExtOpt, writeExt, extoptByteCode, extoptWordCode.
  change (14 =? 13) with false. change (14 =? 14) with true. cbv iota.
  unfold uint16. rewrite Z.mod_small by lia.
  destruct (Uint16_PutUint16 (v - 269)) as (b0 & b1 & -> & E); [lia|].
  cbn [app]. rewrite E. unfold extoptWordAddend. f_equal. f_equal. lia.
Qed.

Lemma writeOptHeader_cons delta length :
  writeOptHeader delta length =
  or (of_Z (Z.shiftl (fst (extendOpt delta)) 4)) (of_Z (fst (extendOpt length)))
  :: writeExt (fst (extendOpt delta)) (snd (extendOpt delta))
  ++ writeExt (fst (extendOpt length)) (snd (extendOpt length)).
Proof.
  unfold writeOptHeader.
  destruct (extendOpt delta), (extendOpt length). reflexivity.
Qed.

Lemma firstn_skipn_app {A} (v rest : list A) :
  firstn (Z.to_nat (len v)) (v ++ rest) = v /\
  skipn (Z.to_nat (len v)) (v ++ rest) = rest.
Proof.
  unfold len. rewrite Nat2Z.id. split.
  - rewrite firstn_app, Nat.sub_diag, firstn_all. simpl. apply app_nil_r.
  - rewrite skipn_app, Nat.sub_diag, skipn_all. reflexivity.
Qed.

(** Reading back one option laid out by [writeOpt]. *)
Lemma parseOpt_wire prev d v rest hb tl :
  0 <= d <= maxExt -> len v <= maxExt ->
  wireOpt d v = hb :: tl ->
  hb <> xff /\
  parseOpt prev hb (tl ++ rest) =
    (opval <- parseOptionValue (uint8 (prev + d)) v ;;
     Ok (uint8 (prev + d), opval, rest)).
Proof.
  intros Hd Hv Hw. unfold wireOpt in Hw.
  rewrite writeOptHeader_cons in Hw. rewrite <- app_comm_cons in Hw.
  remember (or _ _) as h eqn:Hh in Hw.
  injection Hw as Hhb Htl. subst hb tl h.
  pose proof (len_nonneg v) as Hv0.
  pose proof (extendOpt_code d ltac:(lia)) as Hcd.
  pose proof (extendOpt_code (len v) Hv0) as Hcl.
  set (cd := fst (extendOpt d)) in *. set (cl := fst (extendOpt (len v))) in *.
  assert (Hb : to_Z (or (of_Z (Z.shiftl cd 4)) (of_Z cl)) = 16 * cd + cl)
    by (apply hdr_byte; lia).
  destruct (hdr_nibbles cd cl) as [Hsh Hla]; [lia | lia |].
  split.
  { intros E. apply (f_equal to_Z) in E. rewrite Hb in E.
    change (to_Z xff) with 255 in E. lia. }
  unfold parseOpt. rewrite Hb, Hsh, Hla. unfold extoptError.
  destruct (Z.eqb_spec cd 15); [lia|]. destruct (Z.eqb_spec cl 15); [lia|].
  simpl orb. cbv iota.
  rewrite <- !app_assoc. unfold cd at 1 2.
  rewrite parseExtOpt_writeExt by lia. cbn [bind].
  unfold cl at 1 2. rewrite parseExtOpt_writeExt by lia. cbn [bind].
  rewrite len_app. destruct (Z.ltb_spec (len v + len rest) (len v)).
  { pose proof (len_nonneg rest). lia. }
  destruct (firstn_skipn_app v rest) as [-> ->]. reflexivity.
Qed.

(** *** The decoding loop always has enough fuel *)

Lemma parseExtOpt_length opt data v data' :
  parseExtOpt opt data = Ok (v, data') ->
  (List.length data' <= List.length data)%nat.
Proof.
  unfold parseExtOpt.
  destruct (opt =? extoptByteCode).
  { destruct data; intros [= <- <-]. simpl. lia. }
  destruct (opt =? extoptWordCode).
  { destruct data as [|? [|? ?]]; intros [= <- <-]. simpl. lia. }
  intros [= <- <-]. lia.
Qed.

Lemma parseOpt_length prev b data1 oid v data' :
  parseOpt prev b data1 = Ok (oid, v, data') ->
  (List.length data' <= List.length data1)%nat.
Proof.
  unfold parseOpt.
  destruct (_ || _); [discriminate|].
  destruct (parseExtOpt _ data1) as [[d data2]|] eqn:E1; [|discriminate].
  cbn [bind].
  destruct (parseExtOpt _ data2) as [[l data3]|] eqn:E2; [|discriminate].
  cbn [bind].
  destruct (len data3 <? l); [discriminate|].
  destruct (parseOptionValue _ _); [|discriminate]. cbn [bind].
  intros [= <- <- <-].
  apply parseExtOpt_length in E1, E2. rewrite length_skipn. lia.
Qed.

Lemma parseLoop_fuel fuel prev data acc :
  (List.length data <= fuel)%nat ->
  parseLoop fuel prev data acc = parseLoop (List.length data) prev data acc.
Proof.
  revert prev data acc.
  induction fuel as [fuel IH] using lt_wf_ind. intros prev data acc Hf.
  destruct data as [|b data1]; [destruct fuel; reflexivity|].
  destruct fuel as [|fuel']; [simpl in Hf; lia|].
  simpl. destruct (eqb b xff); [reflexivity|].
  destruct (parseOpt prev b data1) as [[[oid v] data']|] eqn:E; [|reflexivity].
  cbn [bind]. apply parseOpt_length in E. simpl in Hf.
  rewrite (IH fuel') by lia.
  rewrite (IH (List.length data1)) by lia. reflexivity.
Qed.

(** [parseBody] never stops for lack of fuel: it is total. *)
Lemma parseLoop_total fuel prev data acc :
  (List.length data <= fuel)%nat ->
  parseLoop fuel prev data acc <> Err OutOfFuel.
Proof.
  revert prev data acc.
  induction fuel as [|fuel IH]; intros prev data acc Hf.
  - destruct data; [discriminate | simpl in Hf; lia].
  - destruct data as [|b data1]; [discriminate|].
    simpl. destruct (eqb b xff); [discriminate|].
    destruct (parseOpt prev b data1) as [[[oid v] data']|] eqn:E.
    + cbn [bind]. apply parseOpt_length in E. simpl in Hf. apply IH. lia.
    + cbn [bind]. unfold parseOpt in E.
      destruct (_ || _); [congruence|].
      destruct (parseExtOpt _ data1) as [[d data2]|] eqn:E1.
      2:{ cbn [bind] in E. unfold parseExtOpt in E1.
          repeat match type of E1 with
                 | context [if ?c then _ else _] => destruct c
                 | context [match ?l with _ => _ end] => destruct l
                 end; congruence. }
      cbn [bind] in E.
      destruct (parseExtOpt _ data2) as [[l data3]|] eqn:E2.
      2:{ cbn [bind] in E. unfold parseExtOpt in E2.
          repeat match type of E2 with
                 | context [if ?c then _ else _] => destruct c
                 | context [match ?l with _ => _ end] => destruct l
                 end; congruence. }
      cbn [bind] in E.
      destruct (len data3 <? l); [congruence|].
      destruct (parseOptionValue _ _) eqn:E3; [discriminate|].
      cbn [bind] in E.
      unfold parseOptionValue in E3.
      destruct (format _); try discriminate;
        destruct (_ || _); try discriminate.
      unfold decodeInt in E3.
      repeat match type of E3 with
             | context [match ?l with _ => _ end] => destruct l
             end; cbn [bind] in E3;
        try (destruct (_ || _) in E3); congruence.
Qed.

(** *** Option values *)

Lemma uint_maxLen id :
  format (optionDefs id) = valueUint -> maxLen (optionDefs id) <= 4.
Proof.
  unfold optionDefs.
  repeat match goal with
         | |- context [match ?x with _ => _ end] => destruct x
         end; cbn; intros; try discriminate; lia.
Qed.

Lemma decodeInt_ok b : len b <= 4 -> exists n, decodeInt b = Ok n.
Proof.
  unfold len. intros H.
  destruct b as [|? [|? [|? [|? [|? ?]]]]]; simpl in *; try lia; eauto.
Qed.

(** [parseOptionValue] never panics: [decodeInt] is only reached with at most
    four bytes. *)
Lemma parseOptionValue_total id buf : exists v, parseOptionValue id buf = Ok v.
Proof.
  unfold parseOptionValue.
  destruct (format (optionDefs id)) eqn:F; eauto;
    destruct (Z.ltb_spec (len buf) (minLen (optionDefs id)));
    destruct (Z.gtb_spec (len buf) (maxLen (optionDefs id)));
    cbn [orb]; eauto.
  pose proof (uint_maxLen id F).
  destruct (decodeInt_ok buf) as [n ->]; [lia|]. cbn [bind].
  destruct (_ || _); eauto.
Qed.

Lemma valueOf_eq id buf : parseOptionValue id buf = Ok (valueOf id buf).
Proof.
  unfold valueOf. destruct (parseOptionValue_total id buf) as [v ->].
  reflexivity.
Qed.

(** An option is skipped exactly when its id has no registry entry or its
    length is outside the entry's bounds. *)
Lemma valueOf_nil_iff id buf :
  valueOf id buf = VNil <->
  format (optionDefs id) = valueUnknown \/
  len buf < minLen (optionDefs id) \/ len buf > maxLen (optionDefs id).
Proof.
  unfold valueOf, parseOptionValue.
  destruct (format (optionDefs id)) eqn:F;
    [tauto | | | |];
    destruct (Z.ltb_spec (len buf) (minLen (optionDefs id)));
    destruct (Z.gtb_spec (len buf) (maxLen (optionDefs id)));
    cbn [orb]; try (split; [intros _; lia | reflexivity]);
    try (split; [discriminate | intros [?|[?|?]]; [discriminate | lia | lia]]).
  pose proof (uint_maxLen id F).
  destruct (decodeInt_ok buf) as [n ->]; [lia|]. cbn [bind].
  destruct (_ || _);
    (split; [discriminate | intros [?|[?|?]]; [discriminate | lia | lia]]).
Qed.

(** *** Decoding a sequence of options laid out on the wire *)

Lemma appendOpt_app acc oid v : appendOpt acc oid v = acc ++ keepOpt oid v.
Proof.
  unfold appendOpt, keepOpt. destruct v; try reflexivity.
  symmetry. apply app_nil_r.
Qed.

Lemma parseFrom_nil prev acc : parseFrom prev [] acc = Ok (acc, []).
Proof. reflexivity. Qed.

Lemma parseFrom_marker prev p acc : parseFrom prev (xff :: p) acc = Ok (acc, p).
Proof. reflexivity. Qed.

Lemma parseFrom_step prev b data1 acc oid v data' :
  eqb b xff = false ->
  parseOpt prev b data1 = Ok (oid, v, data') ->
  parseFrom prev (b :: data1) acc = parseFrom oid data' (appendOpt acc oid v).
Proof.
  intros Hb E. unfold parseFrom. simpl. rewrite Hb, E. cbn [bind].
  apply parseLoop_fuel. eapply parseOpt_length; eassumption.
Qed.

Lemma parseFrom_error prev b data1 acc e :
  eqb b xff = false ->
  parseOpt prev b data1 = Err e ->
  parseFrom prev (b :: data1) acc = Err e.
Proof.
  intros Hb E. unfold parseFrom. simpl. rewrite Hb, E. reflexivity.
Qed.

Lemma eqb_neq a b : a <> b -> eqb a b = false.
Proof.
  intros H. destruct (eqb a b) eqn:E; [|reflexivity].
  apply eqb_eq in E. contradiction.
Qed.

Lemma wireOpt_cons d v : exists hb tl, wireOpt d v = hb :: tl.
Proof.
  unfold wireOpt. rewrite writeOptHeader_cons. rewrite <- app_comm_cons. eauto.
Qed.

(** One option on the wire moves the loop to the next option: the running id
    becomes the option's id whether or not the option is kept. *)
Lemma parseFrom_wireOpt prev d v rest acc :
  wf_entry (d, v) ->
  parseFrom prev (wireOpt d v ++ rest) acc =
  parseFrom (uint8 (prev + d)) rest
            (acc ++ keepOpt (uint8 (prev + d)) (valueOf (uint8 (prev + d)) v)).
Proof.
  intros [Hd Hv]. cbn [fst snd] in *.
  destruct (wireOpt_cons d v) as (hb & tl & Hw).
  destruct (parseOpt_wire prev d v rest hb tl Hd Hv Hw) as [Hne Hp].
  rewrite Hw, <- app_comm_cons.
  rewrite valueOf_eq in Hp. cbn [bind] in Hp.
  rewrite (parseFrom_step _ _ _ _ _ _ _ (eqb_neq _ _ Hne) Hp).
  now rewrite appendOpt_app.
Qed.

Lemma parseFrom_wire es : forall prev rest acc,
  Forall wf_entry es ->
  parseFrom prev (wire es ++ rest) acc =
  parseFrom (lastId prev es) rest (acc ++ decodeEntries prev es).
Proof.
  induction es as [|[d v] es IH]; intros prev rest acc Hwf.
  - simpl. now rewrite app_nil_r.
  - inversion Hwf as [|? ? Hhd Htl]; subst.
    cbn [wire lastId decodeEntries]. rewrite <- app_assoc.
    rewrite parseFrom_wireOpt by assumption.
    rewrite IH by assumption. now rewrite <- app_assoc.
Qed.

Lemma parseFrom_tail prev tail p acc :
  is_tail tail p -> parseFrom prev tail acc = Ok (acc, p).
Proof. intros [[-> ->] | ->]; reflexivity. Qed.

Lemma parseBody_wire es tail p :
  Forall wf_entry es -> is_tail tail p ->
  parseBody (wire es ++ tail) = Ok (decodeEntries 0 es, p).
Proof.
  intros Hwf Ht. change (parseBody (wire es ++ tail))
    with (parseFrom 0 (wire es ++ tail) []).
  rewrite parseFrom_wire by assumption. cbn [app].
  now apply parseFrom_tail.
Qed.

Lemma wire_app es1 es2 : wire (es1 ++ es2) = wire es1 ++ wire es2.
Proof.
  induction es1 as [|[d v] es1 IH]; [reflexivity|].
  cbn [wire app]. now rewrite IH, app_assoc.
Qed.

Lemma decodeEntries_app es1 es2 prev :
  decodeEntries prev (es1 ++ es2) =
  decodeEntries prev es1 ++ decodeEntries (lastId prev es1) es2.
Proof.
  revert prev. induction es1 as [|[d v] es1 IH]; intros prev; [reflexivity|].
  cbn [decodeEntries lastId app]. now rewrite IH, app_assoc.
Qed.

Lemma specNibble_extendOpt v : 0 <= v -> fst (extendOpt v) = specNibble v.
Proof.
  intros H. unfold specNibble.
  destruct (Z.leb_spec v 12); [now rewrite extendOpt_direct by lia|].
  destruct (Z.leb_spec v 268); [now rewrite extendOpt_byte by lia|].
  now rewrite extendOpt_word by lia.
Qed.

Lemma specExt_writeExt v :
  0 <= v <= maxExt ->
  writeExt (fst (extendOpt v)) (snd (extendOpt v)) = specExt v.
Proof.
  unfold maxExt, extoptWordAddend. intros H. unfold specExt.
  destruct (Z.leb_spec v 12).
  { rewrite extendOpt_direct by lia. cbn [fst snd]. unfold writeExt.
    unfold extoptByteCode, extoptWordCode.
    destruct (Z.eqb_spec v 13); [lia|]. destruct (Z.eqb_spec v 14); [lia|].
    reflexivity. }
  destruct (Z.leb_spec v 268).
  { now rewrite extendOpt_byte by lia. }
  rewrite extendOpt_word by lia. cbn [fst snd]. unfold writeExt.
  unfold extoptByteCode, extoptWordCode.
  change (14 =? 13) with false. change (14 =? 14) with true. cbv iota.
  unfold uint16, PutUint16. rewrite (Z.mod_small (v - 269)) by lia.
  rewrite Z.shiftr_div_pow2 by lia. change (2 ^ 8) with 256.
  f_equal. f_equal. apply to_Z_inj. rewrite !to_of_Z.
  now rewrite Z.mod_mod by lia.
Qed.

Lemma specNibble_range v : 0 <= v -> 0 <= specNibble v <= 14.
Proof.
  intros H. unfold specNibble.
  destruct (Z.leb_spec v 12); [lia|]. destruct (Z.leb_spec v 268); lia.
Qed.

Lemma parseOpt_marker prev b data :
  Z.shiftr (to_Z b) 4 = 15 \/ Z.land (to_Z b) 15 = 15 ->
  parseOpt prev b data = Err ErrExtMarker.
Proof.
  intros H. unfold parseOpt, extoptError.
  destruct H as [-> | ->]; [reflexivity|].
  now rewrite orb_true_r.
Qed.

(** A truncated extension. *)
Lemma parseExtOpt_short nib data :
  0 <= nib < 15 -> len data < extSize nib ->
  parseExtOpt nib data = Err ErrTruncated.
Proof.
  unfold parseExtOpt, extSize, extoptByteCode, extoptWordCode, len.
  intros Hn H.
  destruct (Z.eqb_spec nib 13).
  { destruct data; [reflexivity | simpl in H; lia]. }
  destruct (Z.eqb_spec nib 14); [|lia].
  destruct data as [|? [|? ?]]; [reflexivity | reflexivity | simpl in H; lia].
Qed.

Lemma parseExtOpt_enough nib data :
  0 <= nib < 15 -> extSize nib <= len data ->
  exists v, parseExtOpt nib data = Ok (v, skipn (Z.to_nat (extSize nib)) data).
Proof.
  unfold parseExtOpt, extSize, extoptByteCode, extoptWordCode, len.
  intros Hn H.
  destruct (Z.eqb_spec nib 13).
  { destruct data; [simpl in H; lia | eauto]. }
  destruct (Z.eqb_spec nib 14); [|eauto].
  destruct data as [|? [|? ?]]; [simpl in H; lia | simpl in H; lia | eauto].
Qed.

Lemma parseOpt_truncated_ext prev b data :
  Z.shiftr (to_Z b) 4 <> 15 -> Z.land (to_Z b) 15 <> 15 ->
  len data < extSize (Z.shiftr (to_Z b) 4) + extSize (Z.land (to_Z b) 15) ->
  parseOpt prev b data = Err ErrTruncated.
Proof.
  intros Hd Hl H. destruct (nibbles_range b) as [Rd Rl].
  unfold parseOpt, extoptError.
  destruct (Z.eqb_spec (Z.shiftr (to_Z b) 4) 15); [contradiction|].
  destruct (Z.eqb_spec (Z.land (to_Z b) 15) 15); [contradiction|].
  cbn [orb].
  destruct (Z.lt_ge_cases (len data) (extSize (Z.shiftr (to_Z b) 4))).
  { now rewrite parseExtOpt_short by lia. }
  destruct (parseExtOpt_enough (Z.shiftr (to_Z b) 4) data) as [v ->]; [lia|lia|].
  cbn [bind]. rewrite parseExtOpt_short; [reflexivity | lia |].
  unfold len in *. rewrite length_skipn.
  assert (0 <= extSize (Z.shiftr (to_Z b) 4))
    by (unfold extSize; repeat destruct (_ =? _); lia).
  lia.
Qed.

(** A value shorter than the header announces. *)
Lemma parseOpt_truncated_value prev d l v hb tl :
  0 <= d <= maxExt -> 0 <= l <= maxExt -> len v < l ->
  writeOptHeader d l = hb :: tl ->
  hb <> xff /\ parseOpt prev hb (tl ++ v) = Err ErrTruncated.
Proof.
  intros Hd Hl Hv Hw. rewrite writeOptHeader_cons in Hw.
  remember (or _ _) as h eqn:Hh in Hw.
  injection Hw as Hhb Htl. subst hb tl h.
  pose proof (extendOpt_code d ltac:(lia)) as Hcd.
  pose proof (extendOpt_code l ltac:(lia)) as Hcl.
  set (cd := fst (extendOpt d)) in *. set (cl := fst (extendOpt l)) in *.
  assert (Hb : to_Z (or (of_Z (Z.shiftl cd 4)) (of_Z cl)) = 16 * cd + cl)
    by (apply hdr_byte; lia).
  destruct (hdr_nibbles cd cl) as [Hsh Hla]; [lia | lia |].
  split.
  { intros E. apply (f_equal to_Z) in E. rewrite Hb in E.
    change (to_Z xff) with 255 in E. lia. }
  unfold parseOpt. rewrite Hb, Hsh, Hla. unfold extoptError.
  destruct (Z.eqb_spec cd 15); [lia|]. destruct (Z.eqb_spec cl 15); [lia|].
  cbn [orb]. rewrite <- !app_assoc. unfold cd at 1 2.
  rewrite parseExtOpt_writeExt by lia. cbn [bind].
  unfold cl at 1 2. rewrite parseExtOpt_writeExt by lia. cbn [bind].
  destruct (Z.ltb_spec (len v) l); [reflexivity | lia].
Qed.

(** *** Every input is a sequence of wire options

    The statements below speak of inputs of the form [wire es ++ rest].  That
    is no restriction: whatever the loop of [parseBody] reads as an option is
    the layout [writeOpt] produces for some delta and value. *)

Lemma PutUint16_Uint16 b0 b1 : PutUint16 (Uint16 b0 b1) = [b0; b1].
Proof.
  unfold PutUint16. rewrite Uint16_eq.
  pose proof (to_Z_range b0). pose proof (to_Z_range b1).
  f_equal; [|f_equal]; apply to_Z_inj; rewrite to_of_Z.
  - rewrite Z.shiftr_div_pow2 by lia. change (2 ^ 8) with 256.
    Z.div_mod_to_equations. lia.
  - Z.div_mod_to_equations. lia.
Qed.

Lemma parseExtOpt_inv nib data v data' :
  0 <= nib < 15 ->
  parseExtOpt nib data = Ok (v, data') ->
  0 <= v <= maxExt /\ fst (extendOpt v) = nib /\
  data = writeExt nib (snd (extendOpt v)) ++ data'.
Proof.
  unfold maxExt, parseExtOpt, extoptByteCode, extoptWordCode,
    extoptByteAddend, extoptWordAddend.
  intros Hn.
  destruct (Z.eqb_spec nib 13) as [->|].
  { destruct data as [|b0 data1]; [discriminate|]. intros [= <- <-].
    pose proof (to_Z_range b0).
    rewrite extendOpt_byte by lia. cbn [fst snd].
    repeat split; try lia.
    unfold writeExt. cbn. replace (to_Z b0 + 13 - 13) with (to_Z b0) by lia.
    now rewrite of_to_Z. }
  destruct (Z.eqb_spec nib 14) as [->|].
  { destruct data as [|b0 [|b1 data1]]; try discriminate. intros [= <- <-].
    pose proof (Uint16_range b0 b1).
    rewrite extendOpt_word by lia. cbn [fst snd].
    repeat split; try lia.
    unfold writeExt, extoptByteCode, extoptWordCode.
    change (14 =? 13) with false. change (14 =? 14) with true. cbv iota.
    replace (Uint16 b0 b1 + 269 - 269) with (Uint16 b0 b1) by lia.
    unfold uint16. rewrite Z.mod_small by lia.
    now rewrite PutUint16_Uint16. }
  intros [= <- <-].
  rewrite extendOpt_direct by lia. cbn [fst snd].
  repeat split; try lia.
  unfold writeExt, extoptByteCode, extoptWordCode.
  destruct (Z.eqb_spec nib 13); [lia|]. destruct (Z.eqb_spec nib 14); [lia|].
  reflexivity.
Qed.

Lemma byte_of_nibbles b :
  or (of_Z (Z.shiftl (Z.shiftr (to_Z b) 4) 4)) (of_Z (Z.land (to_Z b) 15)) = b.
Proof.
  destruct (nibbles_range b) as [Rd Rl]. pose proof (to_Z_range b).
  apply to_Z_inj. rewrite hdr_byte by lia.
  rewrite Z.shiftr_div_pow2 by lia. change 15 with (Z.ones 4).
  rewrite Z.land_ones by lia. change (2 ^ 4) with 16.
  Z.div_mod_to_equations. lia.
Qed.

Lemma parseOpt_inv prev b data1 oid val data' :
  parseOpt prev b data1 = Ok (oid, val, data') ->
  exists d v, wf_entry (d, v) /\ b :: data1 = wireOpt d v ++ data' /\
              oid = uint8 (prev + d) /\ val = valueOf oid v.
Proof.
  unfold parseOpt, extoptError.
  destruct (nibbles_range b) as [Rd Rl].
  destruct (Z.eqb_spec (Z.shiftr (to_Z b) 4) 15); [discriminate|].
  destruct (Z.eqb_spec (Z.land (to_Z b) 15) 15); [discriminate|].
  cbn [orb].
  destruct (parseExtOpt _ data1) as [[d data2]|] eqn:E1; [|discriminate].
  cbn [bind].
  destruct (parseExtOpt _ data2) as [[l data3]|] eqn:E2; [|discriminate].
  cbn [bind].
  destruct (Z.ltb_spec (len data3) l) as [|Hl]; [discriminate|].
  rewrite valueOf_eq. cbn [bind]. intros [= <- <- <-].
  apply parseExtOpt_inv in E1 as (Hd & Cd & ->); [|lia].
  apply parseExtOpt_inv in E2 as (Hl' & Cl & ->); [|lia].
  set (v := firstn (Z.to_nat l) data3).
  assert (Hv : len v = l).
  { unfold v, len in *. rewrite length_firstn. lia. }
  exists d, v. unfold wf_entry. cbn [fst snd]. rewrite Hv.
  repeat split; try lia.
  unfold wireOpt. rewrite writeOptHeader_cons, Hv, Cd, Cl.
  rewrite byte_of_nibbles. cbn [app]. rewrite <- !app_assoc.
  unfold v. now rewrite firstn_skipn.
Qed.

(** Every input splits into well-formed wire options followed either by a
    clean end (nothing, or the payload marker and the payload) or by an option
    on which the loop fails. *)
Lemma parseFrom_decompose data : forall prev,
  exists es,
    Forall wf_entry es /\
    ((exists tail p, data = wire es ++ tail /\ is_tail tail p) \/
     (exists b rest e, data = wire es ++ b :: rest /\ b <> xff /\
                       parseOpt (lastId prev es) b rest = Err e)).
Proof.
  remember (List.length data) as n eqn:Hn. revert data Hn.
  induction n as [n IH] using lt_wf_ind. intros data Hn prev.
  destruct data as [|b data1].
  { exists []. split; [constructor|]. left. exists [], [].
    split; [reflexivity | left; split; reflexivity]. }
  destruct (byte_eq_dec b xff) as [->|Hb].
  { exists []. split; [constructor|]. left. exists (xff :: data1), data1.
    split; [reflexivity | right; reflexivity]. }
  destruct (parseOpt prev b data1) as [[[oid val] data']|e] eqn:E.
  - pose proof (parseOpt_length _ _ _ _ _ _ E) as Hlen.
    apply parseOpt_inv in E as (d & v & Hwf & Hw & -> & _).
    destruct (IH (List.length data') ltac:(simpl in Hn; lia) data' eq_refl
                 (uint8 (prev + d))) as (es & Hes & Hcase).
    exists ((d, v) :: es). split; [now constructor|].
    cbn [wire lastId]. rewrite Hw.
    destruct Hcase as [(tail & p & -> & Ht) | (b' & rest & e & -> & Hb' & He)].
    + left. exists tail, p. split; [now rewrite <- app_assoc | assumption].
    + right. exists b', rest, e.
      split; [now rewrite <- app_assoc | split; assumption].
  - exists []. split; [constructor|]. right.
    exists b, data1, e. repeat split; assumption.
Qed.

(** The three ways a single option can fail. *)
Lemma parseOpt_error_cases prev b rest e :
  parseOpt prev b rest = Err e ->
  (e = ErrExtMarker /\
   (Z.shiftr (to_Z b) 4 = 15 \/ Z.land (to_Z b) 15 = 15)) \/
  (e = ErrTruncated /\
   Z.shiftr (to_Z b) 4 <> 15 /\ Z.land (to_Z b) 15 <> 15 /\
   len rest < extSize (Z.shiftr (to_Z b) 4) + extSize (Z.land (to_Z b) 15)) \/
  (e = ErrTruncated /\
   exists d l v, 0 <= d <= maxExt /\ 0 <= l <= maxExt /\ len v < l /\
                 b :: rest = writeOptHeader d l ++ v).
Proof.
  unfold parseOpt, extoptError.
  destruct (nibbles_range b) as [Rd Rl].
  destruct (Z.eqb_spec (Z.shiftr (to_Z b) 4) 15) as [Hd|Hd];
    [intros [= <-]; left; split; [reflexivity | now left]|].
  destruct (Z.eqb_spec (Z.land (to_Z b) 15) 15) as [Hl|Hl];
    [intros [= <-]; left; split; [reflexivity | now right]|].
  cbn [orb]. intros H. right. revert H.
  assert (Hs : forall nib, 0 <= extSize nib)
    by (intros; unfold extSize; repeat destruct (_ =? _); lia).
  destruct (Z.lt_ge_cases (len rest) (extSize (Z.shiftr (to_Z b) 4)))
    as [Hshort|Hlong].
  { rewrite parseExtOpt_short by lia. intros [= <-]. left.
    repeat split; try assumption. pose proof (Hs (Z.land (to_Z b) 15)). lia. }
  destruct (parseExtOpt_enough (Z.shiftr (to_Z b) 4) rest) as [d E1];
    [lia | lia |].
  rewrite E1. cbn [bind].
  set (rest2 := skipn _ rest) in *.
  assert (Hlen2 : len rest2 = len rest - extSize (Z.shiftr (to_Z b) 4)).
  { unfold rest2, len in *. rewrite length_skipn.
    pose proof (Hs (Z.shiftr (to_Z b) 4)). lia. }
  destruct (Z.lt_ge_cases (len rest2) (extSize (Z.land (to_Z b) 15)))
    as [Hshort2|Hlong2].
  { rewrite parseExtOpt_short by lia. intros [= <-]. left.
    repeat split; try assumption. lia. }
  destruct (parseExtOpt_enough (Z.land (to_Z b) 15) rest2) as [l E2];
    [lia | lia |].
  rewrite E2. cbn [bind].
  destruct (Z.ltb_spec (len (skipn (Z.to_nat (extSize (Z.land (to_Z b) 15)))
                                   rest2)) l) as [Hv|Hv].
  2:{ rewrite valueOf_eq. discriminate. }
  intros [= <-]. right. split; [reflexivity|].
  apply parseExtOpt_inv in E1 as (Hd' & Cd & Hr1); [|lia].
  apply parseExtOpt_inv in E2 as (Hl' & Cl & Hr2); [|lia].
  exists d, l, (skipn (Z.to_nat (extSize (Z.land (to_Z b) 15))) rest2).
  repeat split; try lia.
  rewrite writeOptHeader_cons, Cd, Cl, byte_of_nibbles.
  cbn [app]. rewrite <- !app_assoc. f_equal.
  rewrite Hr1 at 1. f_equal. exact Hr2.
Qed.

(** *** Decoding: extension boundaries, hard errors, skipped options *)

Lemma parseBody_prefix es rest :
  Forall wf_entry es ->
  parseBody (wire es ++ rest) =
  parseFrom (lastId 0 es) rest (decodeEntries 0 es).
Proof.
  intros Hwf. change (parseBody (wire es ++ rest))
    with (parseFrom 0 (wire es ++ rest) []).
  now rewrite parseFrom_wire.
Qed.

(** So a successful [parseBody] has read well-formed options up to a clean
    end, and a failing one has met an option that fails in one of the three
    ways of [parseOpt_error_cases]. *)
Lemma parseBody_ok_inv data o p :
  parseBody data = Ok (o, p) ->
  exists es tail,
    Forall wf_entry es /\ data = wire es ++ tail /\ is_tail tail p /\
    o = decodeEntries 0 es.
Proof.
  intros H.
  destruct (parseFrom_decompose data 0) as (es & Hwf & Hcase).
  destruct Hcase as [(tail & p' & -> & Ht) | (b & rest & e & -> & Hb & He)].
  - rewrite (parseBody_wire _ _ _ Hwf Ht) in H. injection H as <- <-.
    exists es, tail. repeat split; assumption.
  - rewrite parseBody_prefix in H by assumption.
    rewrite (parseFrom_error _ _ _ _ _ (eqb_neq _ _ Hb) He) in H.
    discriminate.
Qed.

Lemma parseBody_err_inv data e :
  parseBody data = Err e ->
  exists es b rest,
    Forall wf_entry es /\ data = wire es ++ b :: rest /\ b <> xff /\
    parseOpt (lastId 0 es) b rest = Err e.
Proof.
  intros H.
  destruct (parseFrom_decompose data 0) as (es & Hwf & Hcase).
  destruct Hcase as [(tail & p' & -> & Ht) | (b & rest & e' & -> & Hb & He)].
  - rewrite (parseBody_wire _ _ _ Hwf Ht) in H. discriminate.
  - rewrite parseBody_prefix in H by assumption.
    rewrite (parseFrom_error _ _ _ _ _ (eqb_neq _ _ Hb) He) in H.
    injection H as ->. exists es, b, rest. repeat split; assumption.
Qed.

Ltac ext_bounds := unfold maxExt, extoptWordAddend; lia.

(** C2 (amended).  For every option delta and option length between 0 and
    65804 (the largest value a two-byte extension can carry), [writeOpt]'s
    header is one byte whose high and low nibbles are the nibbles the format
    prescribes for the delta and the length (the value itself up to 12; 13
    followed by one byte holding the value minus 13 up to 268; 14 followed by
    two big-endian bytes holding the value minus 269 from 269 on), followed by
    the delta's and then the length's extension bytes; neither nibble is 15.
    The decoder reads that header back as the same delta and length (so in
    particular at 13, 268 and 269), and a first byte other than the payload
    marker with a nibble equal to 15 makes [parseBody] fail. *)
Theorem ext_nibble_encoding delta length :
  0 <= delta <= maxExt -> 0 <= length <= maxExt ->
  exists hb,
    writeOptHeader delta length = hb :: specExt delta ++ specExt length /\
    Z.shiftr (to_Z hb) 4 = specNibble delta /\
    Z.land (to_Z hb) 15 = specNibble length /\
    specNibble delta <> 15 /\ specNibble length <> 15 /\
    (forall rest,
       parseExtOpt (specNibble delta) (specExt delta ++ rest) = Ok (delta, rest) /\
       parseExtOpt (specNibble length) (specExt length ++ rest) = Ok (length, rest)) /\
    (forall prev v rest, len v = length ->
       parseOpt prev hb (specExt delta ++ specExt length ++ v ++ rest) =
       Ok (uint8 (prev + delta), valueOf (uint8 (prev + delta)) v, rest)) /\
    (forall b data, b <> xff ->
       Z.shiftr (to_Z b) 4 = 15 \/ Z.land (to_Z b) 15 = 15 ->
       parseBody (b :: data) = Err ErrExtMarker).
Proof.
  intros Hd Hl.
  pose proof (specNibble_range delta ltac:(lia)) as Rd.
  pose proof (specNibble_range length ltac:(lia)) as Rl.
  assert (Hhdr : writeOptHeader delta length =
    or (of_Z (Z.shiftl (specNibble delta) 4)) (of_Z (specNibble length))
    :: specExt delta ++ specExt length).
  { rewrite writeOptHeader_cons, !specExt_writeExt, !specNibble_extendOpt
      by lia. reflexivity. }
  eexists. split; [exact Hhdr|].
  rewrite hdr_byte by lia.
  destruct (hdr_nibbles (specNibble delta) (specNibble length)) as [-> ->];
    [lia | lia |].
  repeat split; try lia.
  - rewrite <- specNibble_extendOpt, <- specExt_writeExt by lia.
    apply parseExtOpt_writeExt. lia.
  - rewrite <- specNibble_extendOpt, <- specExt_writeExt by lia.
    apply parseExtOpt_writeExt. lia.
  - intros prev v rest Hv. subst length.
    assert (Hw : wireOpt delta v =
      or (of_Z (Z.shiftl (specNibble delta) 4)) (of_Z (specNibble (len v)))
      :: (specExt delta ++ specExt (len v)) ++ v).
    { unfold wireOpt. rewrite Hhdr. reflexivity. }
    destruct (parseOpt_wire prev delta v rest _ _ Hd (proj2 Hl) Hw) as [_ Hp].
    rewrite valueOf_eq in Hp. cbn [bind] in Hp.
    rewrite <- Hp. f_equal. now rewrite <- !app_assoc.
  - intros b data Hb H.
    change (parseBody (b :: data)) with (parseFrom 0 (b :: data) []).
    apply parseFrom_error; [now apply eqb_neq | now apply parseOpt_marker].
Qed.

Lemma ext_nibble_encoding_witness :
  0 <= 268 <= maxExt /\ 0 <= 269 <= maxExt /\
  exists hb, writeOptHeader 268 269 = hb :: specExt 268 ++ specExt 269 /\
             Z.shiftr (to_Z hb) 4 = 13 /\ Z.land (to_Z hb) 15 = 14 /\
             parseExtOpt 13 (specExt 268) = Ok (268, []) /\
             parseExtOpt 14 (specExt 269) = Ok (269, []).
Proof.
  split; [ext_bounds|]. split; [ext_bounds|].
  destruct (ext_nibble_encoding 268 269) as (hb & H1 & H2 & H3 & _ & _ & H4 & _);
    [ext_bounds | ext_bounds |].
  exists hb. destruct (H4 []) as [H5 H6]. rewrite !app_nil_r in H5, H6.
  split; [exact H1|]. split; [exact H2|]. split; [exact H3|].
  split; [exact H5 | exact H6].
Defined.

(** A 65805-byte value: the two extension bytes hold 0, not the length minus
    269, and the header reads back as length 269. *)
Lemma ext_nibble_encoding_counterexample :
  exists v,
    len v = 65805 /\
    writeOpt (mkOpt URIPath (VBytes v)) [] 11 = Ok ([xbe; x00; x00] ++ v) /\
    Uint16 x00 x00 <> 65805 - 269 /\
    parseExtOpt 14 ([x00; x00] ++ v) = Ok (269, v).
Proof.
  exists (repeat x00 (Z.to_nat 65805)).
  assert (Hlen : len (repeat x00 (Z.to_nat 65805)) = 65805).
  { unfold len. rewrite repeat_length. apply Z2Nat.id. lia. }
  split; [exact Hlen|]. split; [|split].
  - unfold writeOpt, toBytes. cbn [Value bind]. rewrite Hlen.
    replace (writeOptHeader 11 65805) with [xbe; x00; x00]
      by (vm_compute; reflexivity).
    reflexivity.
  - vm_compute. discriminate.
  - reflexivity.
Qed.

(** C3.  After any sequence of well-formed options, [parseBody] returns an
    error, and so no options and no payload, when the next option's first byte
    (any byte but the payload marker) has 15 in its delta or in its length
    nibble, when the input ends before the one or two extension bytes the
    nibbles announce, and when the input ends before the announced number of
    value bytes. *)
Theorem parseBody_hard_errors es :
  Forall wf_entry es ->
  (forall b rest, b <> xff ->
     Z.shiftr (to_Z b) 4 = 15 \/ Z.land (to_Z b) 15 = 15 ->
     parseBody (wire es ++ b :: rest) = Err ErrExtMarker) /\
  (forall b rest, b <> xff ->
     Z.shiftr (to_Z b) 4 <> 15 -> Z.land (to_Z b) 15 <> 15 ->
     len rest < extSize (Z.shiftr (to_Z b) 4) + extSize (Z.land (to_Z b) 15) ->
     parseBody (wire es ++ b :: rest) = Err ErrTruncated) /\
  (forall d l v, 0 <= d <= maxExt -> 0 <= l <= maxExt -> len v < l ->
     parseBody (wire es ++ writeOptHeader d l ++ v) = Err ErrTruncated).
Proof.
  intros Hwf. repeat split.
  - intros b rest Hb H. rewrite parseBody_prefix by assumption.
    apply parseFrom_error; [now apply eqb_neq | now apply parseOpt_marker].
  - intros b rest Hb Hd Hl H. rewrite parseBody_prefix by assumption.
    apply parseFrom_error;
      [now apply eqb_neq | now apply parseOpt_truncated_ext].
  - intros d l v Hd Hl Hv. rewrite parseBody_prefix by assumption.
    rewrite writeOptHeader_cons, <- app_comm_cons.
    edestruct (parseOpt_truncated_value (lastId 0 es) d l v) as [Hne Hp];
      [eassumption .. | apply writeOptHeader_cons |].
    apply parseFrom_error; [now apply eqb_neq | exact Hp].
Qed.

Lemma wf_entry_intro d (v : list byte) :
  (0 <=? d) && (d <=? maxExt) && (len v <=? maxExt) = true -> wf_entry (d, v).
Proof.
  intros H. apply andb_prop in H as [H H3]. apply andb_prop in H as [H1 H2].
  unfold wf_entry. cbn [fst snd]. lia.
Qed.

Lemma parseBody_hard_errors_witness :
  let es := [(11, [x61])] in
  Forall wf_entry es /\
  parseBody (wire es ++ [xf0]) = Err ErrExtMarker /\
  parseBody (wire es ++ [x4f; x00]) = Err ErrExtMarker /\
  parseBody (wire es ++ [xd1]) = Err ErrTruncated /\
  parseBody (wire es ++ [x1e; x00]) = Err ErrTruncated /\
  parseBody (wire es ++ writeOptHeader 4 3 ++ [x78; x3d]) = Err ErrTruncated.
Proof.
  intros es.
  assert (Hwf : Forall wf_entry es).
  { repeat constructor; apply wf_entry_intro; reflexivity. }
  split; [exact Hwf|].
  destruct (parseBody_hard_errors es Hwf) as (H1 & H2 & H3).
  split; [|split; [|split; [|split]]].
  - apply H1; [discriminate | left; reflexivity].
  - apply H1; [discriminate | right; reflexivity].
  - apply H2; [discriminate | discriminate | discriminate | reflexivity].
  - apply H2; [discriminate | discriminate | discriminate | reflexivity].
  - apply H3; [ext_bounds | ext_bounds | reflexivity].
Defined.

(** C4.  In an input made of well-formed options followed by nothing or by
    the payload marker and a payload, an option whose id has no registry entry,
    or whose value is shorter than the entry's minimum or longer than its
    maximum, does not make [parseBody] fail: the result holds the options
    decoded from the entries before it and from the entries after it, and the
    payload; the option itself is not in it. *)
Theorem skipped_option_dropped es1 d v es2 tail p :
  Forall wf_entry es1 -> wf_entry (d, v) -> Forall wf_entry es2 ->
  is_tail tail p ->
  let oid := uint8 (lastId 0 es1 + d) in
  format (optionDefs oid) = valueUnknown \/
  len v < minLen (optionDefs oid) \/ len v > maxLen (optionDefs oid) ->
  parseBody (wire es1 ++ wireOpt d v ++ wire es2 ++ tail) =
  Ok (decodeEntries 0 es1 ++ decodeEntries oid es2, p).
Proof.
  intros H1 Hdv H2 Ht oid Hskip.
  apply valueOf_nil_iff in Hskip.
  rewrite parseBody_prefix by assumption.
  rewrite parseFrom_wireOpt by assumption. fold oid. rewrite Hskip.
  cbn [keepOpt appendOpt]. rewrite app_nil_r.
  rewrite parseFrom_wire by assumption.
  now apply parseFrom_tail.
Qed.

Lemma skipped_option_dropped_witness :
  let es1 := [(11, [x61])] in
  let es2 := [(2, [x78; x3d; x31])] in
  parseBody (wire es1 ++ wireOpt 2 [x01] ++ wire es2 ++ [xff; x2a]) =
  Ok ([mkOpt 11 (VString "a"); mkOpt 15 (VString "x=1")], [x2a]).
Proof.
  intros es1 es2.
  apply (skipped_option_dropped es1 2 [x01] es2 [xff; x2a] [x2a]).
  - repeat constructor; apply wf_entry_intro; reflexivity.
  - apply wf_entry_intro; reflexivity.
  - repeat constructor; apply wf_entry_intro; reflexivity.
  - right; reflexivity.
  - left; reflexivity.
Defined.

(** C10.  A skipped option still moves the running id: after an option with
    delta [d] the loop continues from id [OptionID(prev + d)] with the options
    collected so far, whether the option was skipped or kept, so the options
    after it get the same ids in both cases; the next option, if kept, has id
    [OptionID(OptionID(prev + d) + d2)]. *)
Theorem dropped_option_advances_id prev d v v' es tail p acc :
  wf_entry (d, v) -> wf_entry (d, v') -> Forall wf_entry es ->
  is_tail tail p ->
  let oid := uint8 (prev + d) in
  valueOf oid v = VNil -> valueOf oid v' <> VNil ->
  parseFrom prev (wireOpt d v ++ wire es ++ tail) acc =
    Ok (acc ++ decodeEntries oid es, p) /\
  parseFrom prev (wireOpt d v' ++ wire es ++ tail) acc =
    Ok (acc ++ mkOpt oid (valueOf oid v') :: decodeEntries oid es, p) /\
  (forall d2 v2 rest, wf_entry (d2, v2) ->
     parseFrom prev (wireOpt d v ++ wireOpt d2 v2 ++ rest) acc =
     parseFrom (uint8 (oid + d2)) rest
       (acc ++ keepOpt (uint8 (oid + d2)) (valueOf (uint8 (oid + d2)) v2))).
Proof.
  intros Hv Hv' Hes Ht oid Hnil Hkept. repeat split.
  - rewrite parseFrom_wireOpt by assumption. fold oid. rewrite Hnil.
    cbn [keepOpt appendOpt]. rewrite app_nil_r.
    rewrite parseFrom_wire by assumption. now apply parseFrom_tail.
  - rewrite parseFrom_wireOpt by assumption. fold oid.
    rewrite parseFrom_wire by assumption.
    rewrite (parseFrom_tail _ _ _ _ Ht). f_equal. f_equal.
    rewrite <- app_assoc. f_equal.
    unfold keepOpt, appendOpt. destruct (valueOf oid v'); try reflexivity.
    contradiction.
  - intros d2 v2 rest Hwf2.
    rewrite parseFrom_wireOpt by assumption. fold oid. rewrite Hnil.
    cbn [keepOpt appendOpt]. rewrite app_nil_r.
    now rewrite parseFrom_wireOpt by assumption.
Qed.

Lemma dropped_option_advances_id_witness :
  parseFrom 0 (wireOpt 4 [] ++ wire [(7, [x61])] ++ []) [] =
    Ok ([mkOpt 11 (VString "a")], []) /\
  parseFrom 0 (wireOpt 4 [x01] ++ wire [(7, [x61])] ++ []) [] =
    Ok ([mkOpt 4 (VBytes [x01]); mkOpt 11 (VString "a")], []).
Proof.
  destruct (dropped_option_advances_id 0 4 [] [x01] [(7, [x61])] [] [] [])
    as (H1 & H2 & _).
  - apply wf_entry_intro; reflexivity.
  - apply wf_entry_intro; reflexivity.
  - repeat constructor; apply wf_entry_intro; reflexivity.
  - left; split; reflexivity.
  - reflexivity.
  - discriminate.
  - split; [exact H1 | exact H2].
Defined.

(** *** Integer values *)

Lemma decodeInt_encodeInt v :
  0 <= v < 4294967296 -> decodeInt (encodeInt v) = Ok v.
Proof.
  intros Hv. unfold encodeInt.
  destruct (Z.eqb_spec v 0) as [->|]; [reflexivity|].
  destruct (Z.ltb_spec v 256).
  { cbn [decodeInt]. rewrite Uint32_eq, to_of_Z. change (to_Z x00) with 0.
    rewrite Z.mod_small by lia. f_equal; lia. }
  destruct (Z.ltb_spec v 65536).
  { unfold uint16, PutUint16. rewrite Z.mod_small by lia.
    cbn [decodeInt]. rewrite Uint32_eq, !to_of_Z. change (to_Z x00) with 0.
    rewrite Z.shiftr_div_pow2 by lia. change (2 ^ 8) with 256.
    f_equal; Z.div_mod_to_equations; lia. }
  destruct (Z.ltb_spec v 16777216).
  { unfold PutUint32. cbn [tl decodeInt].
    rewrite Uint32_eq, !to_of_Z. change (to_Z x00) with 0.
    rewrite !Z.shiftr_div_pow2 by lia.
    change (2 ^ 8) with 256. change (2 ^ 16) with 65536.
    f_equal; Z.div_mod_to_equations; lia. }
  unfold PutUint32. cbn [decodeInt].
  rewrite Uint32_eq, !to_of_Z. rewrite !Z.shiftr_div_pow2 by lia.
  change (2 ^ 8) with 256. change (2 ^ 16) with 65536.
  change (2 ^ 24) with 16777216.
  f_equal; Z.div_mod_to_equations; lia.
Qed.

Lemma len_encodeInt v : 0 <= len (encodeInt v) <= 4.
Proof.
  unfold encodeInt, len.
  repeat match goal with
         | |- context [if ?c then _ else _] => destruct c
         end; simpl; lia.
Qed.

(** *** Values held in the decoder's Go type survive the round trip *)

Lemma conforms_inv o :
  conforms o = true ->
  0 <= ID o <= 255 /\
  format (optionDefs (ID o)) <> valueUnknown /\
  minLen (optionDefs (ID o)) <= len (bytesOf o) <= maxLen (optionDefs (ID o)) /\
  mappable (Value o) = true.
Proof.
  unfold conforms. intros H.
  apply andb_prop in H as [H Hm]. apply andb_prop in H as [H0 H1].
  split; [lia|].
  destruct (format (optionDefs (ID o))), (Value o); try discriminate;
    repeat match type of Hm with
           | _ && _ = true => apply andb_prop in Hm as [Hm ?]
           end;
    (split; [discriminate | split; [lia | reflexivity]]).
Qed.

Lemma valueOf_in_bounds id buf :
  minLen (optionDefs id) <= len buf <= maxLen (optionDefs id) ->
  valueOf id buf =
  match format (optionDefs id) with
  | valueUnknown => VNil
  | valueUint =>
    match decodeInt buf with
    | Ok n => if (id =? ContentFormat) || (id =? Accept)
              then VMediaType (uint8 n) else VUint32 n
    | Err _ => VNil
    end
  | valueString => VString (string_of_list_byte buf)
  | valueOpaque | valueEmpty => VBytes buf
  end.
Proof.
  intros H. unfold valueOf, parseOptionValue.
  destruct (Z.ltb_spec (len buf) (minLen (optionDefs id))); [lia|].
  destruct (Z.gtb_spec (len buf) (maxLen (optionDefs id))); [lia|].
  cbn [orb].
  destruct (format (optionDefs id)); try reflexivity.
  destruct (decodeInt buf); cbn [bind]; [|reflexivity].
  destruct (_ || _); reflexivity.
Qed.

Lemma valueOf_canonical o :
  conforms o = true -> canonical o = true ->
  valueOf (ID o) (bytesOf o) = Value o.
Proof.
  intros Hc Hk. pose proof (conforms_inv o Hc) as (_ & _ & Hb & _).
  rewrite valueOf_in_bounds by assumption.
  unfold conforms in Hc. unfold canonical in Hk. unfold bytesOf, toBytes.
  apply andb_prop in Hc as [_ Hc].
  destruct (format (optionDefs (ID o))), (Value o); try discriminate.
  - reflexivity.
  - reflexivity.
  - apply andb_prop in Hc as [Hc _]. apply andb_prop in Hc as [H0 H1].
    unfold uint32. rewrite Z.mod_small by lia.
    rewrite decodeInt_encodeInt by lia. rewrite Hk.
    unfold uint8. rewrite Z.mod_small by lia. reflexivity.
  - apply andb_prop in Hc as [Hc _]. apply andb_prop in Hc as [H0 H1].
    rewrite decodeInt_encodeInt by lia.
    apply negb_true_iff in Hk. rewrite Hk. reflexivity.
  - now rewrite string_of_list_byte_of_string.
Qed.

Lemma keepOpt_canonical o :
  conforms o = true -> canonical o = true ->
  keepOpt (ID o) (valueOf (ID o) (bytesOf o)) = [o].
Proof.
  intros Hc Hk. rewrite valueOf_canonical by assumption.
  pose proof (conforms_inv o Hc) as (_ & _ & _ & Hm).
  destruct o as [id v]. cbn [ID Value] in *.
  destruct v; try discriminate; reflexivity.
Qed.

Lemma maxLen_bound id : maxLen (optionDefs id) <= 1034.
Proof.
  unfold optionDefs.
  repeat match goal with
         | |- context [match ?x with _ => _ end] => destruct x
         end; cbn; lia.
Qed.

(** *** Encoding a list of options *)

Lemma toBytes_bytesOf o : mappable (Value o) = true -> toBytes o = Ok (bytesOf o).
Proof.
  unfold bytesOf, toBytes. destruct (Value o); try discriminate; reflexivity.
Qed.

Lemma toBytes_unmappable o :
  mappable (Value o) = false -> toBytes o = Err PanicInvalidType.
Proof.
  unfold toBytes. destruct (Value o); try discriminate; reflexivity.
Qed.

Lemma writeOptsFrom_wire opts : forall prev buf,
  forallb mappable (map Value opts) = true ->
  writeOptsFrom prev buf opts = Ok (buf ++ wire (entriesOf prev opts)).
Proof.
  induction opts as [|o opts IH]; intros prev buf H.
  - cbn. now rewrite app_nil_r.
  - cbn [map forallb] in H. apply andb_prop in H as [Ho H].
    cbn [writeOptsFrom entriesOf wire]. unfold writeOpt.
    rewrite toBytes_bytesOf by assumption. cbn [bind].
    rewrite IH by assumption. unfold wireOpt. now rewrite <- !app_assoc.
Qed.

Lemma writeOptsFrom_panic opts : forall prev buf,
  forallb mappable (map Value opts) = false ->
  writeOptsFrom prev buf opts = Err PanicInvalidType.
Proof.
  induction opts as [|o opts IH]; intros prev buf H; [discriminate|].
  cbn [map forallb] in H. cbn [writeOptsFrom]. unfold writeOpt.
  destruct (mappable (Value o)) eqn:Ho.
  - rewrite toBytes_bytesOf by assumption. cbn [bind]. now apply IH.
  - now rewrite toBytes_unmappable.
Qed.

(** *** Sorting *)

Lemma insertOption_perm o l : Permutation (o :: l) (insertOption o l).
Proof.
  induction l as [|h t IH]; [reflexivity|].
  cbn. destruct (ID o <=? ID h); [reflexivity|].
  rewrite perm_swap. now constructor.
Qed.

Lemma sortOptions_perm l : Permutation l (sortOptions l).
Proof.
  induction l as [|o l IH]; [reflexivity|].
  cbn. rewrite <- insertOption_perm. now constructor.
Qed.

Lemma insertOption_sorted o l : ascending l -> ascending (insertOption o l).
Proof.
  unfold ascending. induction l as [|h t IH]; intros Hs.
  - repeat constructor.
  - cbn. destruct (Z.leb_spec (ID o) (ID h)).
    + constructor; [assumption | now constructor].
    + inversion Hs as [|? ? Ht Hh]; subst.
      constructor; [now apply IH|].
      destruct t as [|h' t']; cbn.
      * constructor. lia.
      * destruct (Z.leb_spec (ID o) (ID h')); constructor; try lia.
        now inversion Hh.
Qed.

Lemma sortOptions_sorted l : ascending (sortOptions l).
Proof.
  induction l as [|o l IH]; [constructor|].
  cbn. now apply insertOption_sorted.
Qed.

Lemma insertOption_head o l :
  ascending l -> Forall (fun x => ID o <= ID x) l -> insertOption o l = o :: l.
Proof.
  destruct l as [|h t]; [reflexivity|].
  intros _ H. inversion H; subst. cbn.
  destruct (Z.leb_spec (ID o) (ID h)); [reflexivity | lia].
Qed.

Lemma ascending_strong l :
  ascending l -> StronglySorted (fun a b => ID a <= ID b) l.
Proof.
  apply Sorted_StronglySorted. intros a b c. lia.
Qed.

Lemma strongly_sorted_nth {A} (R : A -> A -> Prop) l :
  StronglySorted R l ->
  forall i j a b, (i < j)%nat ->
    nth_error l i = Some a -> nth_error l j = Some b -> R a b.
Proof.
  induction 1 as [|x l Hl IH Hx]; intros i j a b Hij Hi Hj.
  - destruct i; discriminate.
  - destruct j as [|j]; [lia|]. cbn in Hj. destruct i as [|i].
    + injection Hi as <-. rewrite Forall_forall in Hx.
      apply Hx. eapply nth_error_In. eassumption.
    + cbn in Hi. apply (IH i j); [lia | assumption | assumption].
Qed.

(** The sorted list is in the order of [options.Less]. *)
Lemma sortOptions_Less l i j :
  (i < j < List.length (sortOptions l))%nat -> Less (sortOptions l) i j = true.
Proof.
  intros [Hij Hj]. unfold Less.
  destruct (nth_error (sortOptions l) i) as [a|] eqn:Ei;
    [|apply nth_error_None in Ei; lia].
  destruct (nth_error (sortOptions l) j) as [b|] eqn:Ej;
    [|apply nth_error_None in Ej; lia].
  pose proof (strongly_sorted_nth _ _ (ascending_strong _ (sortOptions_sorted l))
                _ _ _ _ Hij Ei Ej) as Hle. cbv beta in Hle.
  destruct (Z.eqb_spec (ID a) (ID b)); [now apply Nat.ltb_lt|].
  apply Z.ltb_lt. lia.
Qed.

(** A list already in ascending order is left as it is. *)
Lemma sortOptions_id l : ascending l -> sortOptions l = l.
Proof.
  intros H. apply ascending_strong in H.
  induction H as [|o l Hl IH Ho]; [reflexivity|].
  change (sortOptions (o :: l)) with (insertOption o (sortOptions l)).
  rewrite IH. apply insertOption_head; [|assumption].
  now apply StronglySorted_Sorted.
Qed.

Lemma forallb_perm {A} (f : A -> bool) l l' :
  Permutation l l' -> forallb f l = forallb f l'.
Proof.
  induction 1; cbn; try congruence.
  now rewrite !andb_assoc, (andb_comm (f y)).
Qed.

(** *** Deltas of a sorted list *)

Lemma entriesOf_delta opts : forall prev,
  ascending opts -> Forall (fun o => prev <= ID o) opts ->
  Forall (fun e => 0 <= fst e) (entriesOf prev opts).
Proof.
  induction opts as [|o opts IH]; intros prev Hs Hp; [constructor|].
  inversion Hp as [|? ? Ho Hrest]; subst.
  cbn [entriesOf]. constructor; [cbn; lia|].
  apply ascending_strong in Hs. inversion Hs as [|? ? Hs' Hall]; subst.
  apply IH; [now apply StronglySorted_Sorted | assumption].
Qed.

Lemma decodeEntries_entriesOf opts : forall prev,
  ascending opts -> 0 <= prev ->
  Forall (fun o => prev <= ID o) opts ->
  forallb conforms opts = true -> forallb canonical opts = true ->
  Forall wf_entry (entriesOf prev opts) /\
  decodeEntries prev (entriesOf prev opts) = opts.
Proof.
  induction opts as [|o opts IH]; intros prev Hs H0 Hp Hc Hk;
    [split; [constructor | reflexivity]|].
  inversion Hp as [|? ? Ho Hrest]; subst.
  cbn [forallb] in Hc, Hk.
  apply andb_prop in Hc as [Hco Hc]. apply andb_prop in Hk as [Hko Hk].
  apply ascending_strong in Hs. inversion Hs as [|? ? Hs' Hall]; subst.
  pose proof (conforms_inv o Hco) as (Hid & _ & Hb & _).
  pose proof (maxLen_bound (ID o)).
  destruct (IH (ID o)) as [IH1 IH2];
    [now apply StronglySorted_Sorted | lia | assumption | assumption
    | assumption |].
  cbn [entriesOf decodeEntries].
  replace (uint8 (prev + (ID o - prev))) with (ID o)
    by (unfold uint8; rewrite Z.mod_small by lia; lia).
  split.
  - constructor; [|assumption]. unfold wf_entry, maxExt, extoptWordAddend.
    cbn [fst snd]. lia.
  - rewrite keepOpt_canonical by assumption. now rewrite IH2.
Qed.

Lemma sorted_perm_eq (l1 : list Z) : forall l2,
  StronglySorted Z.le l1 -> StronglySorted Z.le l2 ->
  Permutation l1 l2 -> l1 = l2.
Proof.
  induction l1 as [|a t1 IH]; intros l2 H1 H2 Hp.
  - apply Permutation_nil in Hp. now subst.
  - destruct l2 as [|b t2].
    { apply Permutation_sym, Permutation_nil in Hp. discriminate. }
    inversion H1 as [|? ? S1 F1]; subst. inversion H2 as [|? ? S2 F2]; subst.
    assert (a = b).
    { assert (Ha : In a (b :: t2)) by (eapply Permutation_in; [eassumption | now left]).
      assert (Hb : In b (a :: t1))
        by (eapply Permutation_in; [apply Permutation_sym; eassumption | now left]).
      rewrite Forall_forall in F1, F2.
      destruct Ha as [->|Ha]; [reflexivity|]. destruct Hb as [->|Hb]; [reflexivity|].
      specialize (F1 _ Hb). specialize (F2 _ Ha). lia. }
    subst b. f_equal. apply IH; try assumption.
    eapply Permutation_cons_inv. eassumption.
Qed.

Lemma ascending_ids l : ascending l -> StronglySorted Z.le (map ID l).
Proof.
  intros H. apply ascending_strong in H.
  induction H as [|o l Hl IH Ho]; cbn; constructor; [assumption|].
  now apply Forall_map.
Qed.

Lemma sortOptions_ids l l' :
  Permutation l l' -> map ID (sortOptions l) = map ID (sortOptions l').
Proof.
  intros Hp. apply sorted_perm_eq; try (apply ascending_ids, sortOptions_sorted).
  apply Permutation_map.
  rewrite <- (sortOptions_perm l), <- (sortOptions_perm l'). assumption.
Qed.

Lemma entriesOf_ids l1 : forall l2 prev,
  map ID l1 = map ID l2 ->
  map fst (entriesOf prev l1) = map fst (entriesOf prev l2).
Proof.
  induction l1 as [|a l1 IH]; intros [|b l2] prev H; try discriminate;
    [reflexivity|].
  injection H as Hab H. cbn. rewrite Hab. f_equal. now apply IH.
Qed.

Lemma encodeBody_ok m :
  forallb mappable (map Value (opts m)) = true ->
  encodeBody m =
  Ok (writePayload (wire (entriesOf 0 (sortOptions (opts m)))) (payload m)).
Proof.
  intros H. unfold encodeBody, writeOpts.
  rewrite writeOptsFrom_wire; [reflexivity|].
  rewrite <- H. apply forallb_perm, Permutation_map, Permutation_sym,
    sortOptions_perm.
Qed.

Lemma encodeBody_panic m :
  forallb mappable (map Value (opts m)) = false ->
  encodeBody m = Err PanicInvalidType.
Proof.
  intros H. unfold encodeBody, writeOpts.
  rewrite writeOptsFrom_panic; [reflexivity|].
  rewrite <- H. apply forallb_perm, Permutation_map, Permutation_sym,
    sortOptions_perm.
Qed.

Lemma writePayload_tail buf p :
  exists tail, writePayload buf p = buf ++ tail /\ is_tail tail p.
Proof.
  destruct p as [|b p].
  - exists []. split; [symmetry; apply app_nil_r | left; split; reflexivity].
  - exists (xff :: b :: p). split; [reflexivity | right; reflexivity].
Qed.

(** *** Examples *)

(** The canonical integer encoding: no byte for 0, one for 255, two for 256. *)
Example encodeInt_examples :
  map encodeInt [0; 255; 256; 65536; 16777216] =
  [[]; [xff]; [x01; x00]; [x01; x00; x00]; [x01; x00; x00; x00]] /\
  decodeInt [] = Ok 0.
Proof. split; reflexivity. Qed.

(** [writeOpts] itself does not sort.  Given Uri-Query before Uri-Path it
    passes the delta 11 - 15 = -4 to [writeOpt], whose first byte then carries
    the nibble 12, and the decoder reads the unknown id 27. *)
Example writeOpts_unsorted :
  let opts := [mkOpt URIQuery (VString "x=1"); mkOpt URIPath (VString "a")] in
  map fst (entriesOf 0 opts) = [15; -4] /\
  writeOpts [] opts = Ok [xd3; x02; x78; x3d; x31; xc1; x61] /\
  parseBody [xd3; x02; x78; x3d; x31; xc1; x61] =
    Ok ([mkOpt URIQuery (VString "x=1")], []).
Proof. cbv zeta. split; [reflexivity|]. split; reflexivity. Qed.

(** *** Encoding: order of the options, round trip, failures *)

(** C5.  Whatever the order in which the options were added, the encoder
    writes them sorted by ascending id: the bytes of [writeOpts] are the
    options' wire layouts in that order, each with delta its id minus the
    previous id, the first one minus 0; every delta is non-negative, and the
    ids and deltas written do not depend on the order of the option list. *)
Theorem options_written_ascending m :
  Forall (fun o => 0 <= ID o <= 255) (opts m) ->
  forallb mappable (map Value (opts m)) = true ->
  let sorted := sortOptions (opts m) in
  Permutation (opts m) sorted /\ ascending sorted /\
  writeOpts [] sorted = Ok (wire (entriesOf 0 sorted)) /\
  encodeBody m = Ok (writePayload (wire (entriesOf 0 sorted)) (payload m)) /\
  Forall (fun e => 0 <= fst e) (entriesOf 0 sorted) /\
  (forall m', Permutation (opts m) (opts m') ->
     map ID (sortOptions (opts m')) = map ID sorted /\
     map fst (entriesOf 0 (sortOptions (opts m'))) = map fst (entriesOf 0 sorted)).
Proof.
  intros Hid Hmap sorted.
  pose proof (sortOptions_perm (opts m)) as Hp.
  pose proof (sortOptions_sorted (opts m)) as Hs.
  split; [exact Hp|]. split; [exact Hs|]. split; [|split; [|split]].
  - unfold writeOpts. rewrite writeOptsFrom_wire; [reflexivity|].
    rewrite <- Hmap. apply forallb_perm, Permutation_map, Permutation_sym, Hp.
  - now apply encodeBody_ok.
  - apply entriesOf_delta; [exact Hs|].
    eapply Permutation_Forall; [exact Hp|].
    eapply Forall_impl; [|exact Hid]. cbv beta. intros; lia.
  - intros m' Hp'.
    assert (E : map ID (sortOptions (opts m')) = map ID sorted)
      by (apply sortOptions_ids, Permutation_sym, Hp').
    split; [exact E | now apply entriesOf_ids].
Qed.

Lemma options_written_ascending_witness :
  let m := AddOption (AddOption (mkMsg 0 1 7 [] [] []) URIQuery (VString "x=1"))
                     URIPath (VString "a") in
  opts m = [mkOpt 15 (VString "x=1"); mkOpt 11 (VString "a")] /\
  encodeBody m = Ok [xb1; x61; x43; x78; x3d; x31] /\
  map fst (entriesOf 0 (sortOptions (opts m))) = [11; 4].
Proof.
  intros m. split; [reflexivity|].
  destruct (options_written_ascending m) as (_ & _ & _ & H & _ & _).
  - apply Forall_forall. intros o Ho.
    destruct Ho as [<-|[<-|[]]]; cbv; split; discriminate.
  - reflexivity.
  - split; [exact H | reflexivity].
Defined.

(** C1 (amended).  For every message whose options conform to the registry
    and hold their values in the Go type the decoder produces ([string] for
    text options, [[]byte] for opaque and empty ones, [MediaType] for
    Content-Format and Accept, [uint32] for the other integer options),
    encoding the options-and-payload region succeeds and decoding the result
    yields the same type, code, message id, token and payload and the same
    options, stably sorted by id: a permutation of the original in ascending
    id order. *)
Theorem body_roundtrip m :
  forallb conforms (opts m) = true -> forallb canonical (opts m) = true ->
  exists data,
    encodeBody m = Ok data /\
    decodeBody m data =
      Ok (mkMsg (typ m) (code m) (messageID m) (token m) (payload m)
                (sortOptions (opts m))) /\
    Permutation (opts m) (sortOptions (opts m)) /\
    ascending (sortOptions (opts m)).
Proof.
  intros Hc Hk.
  pose proof (sortOptions_perm (opts m)) as Hp.
  pose proof (sortOptions_sorted (opts m)) as Hs.
  assert (Hc' : forallb conforms (sortOptions (opts m)) = true)
    by (rewrite <- Hc; apply forallb_perm, Permutation_sym, Hp).
  assert (Hk' : forallb canonical (sortOptions (opts m)) = true)
    by (rewrite <- Hk; apply forallb_perm, Permutation_sym, Hp).
  assert (Hmap : forallb mappable (map Value (opts m)) = true).
  { rewrite forallb_forall in *. intros v Hv.
    apply in_map_iff in Hv as (o & <- & Ho).
    now apply conforms_inv, Hc. }
  assert (Hid : Forall (fun o => 0 <= ID o) (sortOptions (opts m))).
  { apply Forall_forall. intros o Ho. rewrite forallb_forall in Hc'.
    apply Hc', conforms_inv in Ho. lia. }
  destruct (decodeEntries_entriesOf (sortOptions (opts m)) 0)
    as [Hwf Hdec]; try assumption; [lia|].
  eexists. split; [now apply encodeBody_ok|].
  split; [|split; assumption].
  destruct (writePayload_tail (wire (entriesOf 0 (sortOptions (opts m))))
                              (payload m)) as (tail & -> & Ht).
  unfold decodeBody. rewrite (parseBody_wire _ _ _ Hwf Ht). cbn [bind].
  now rewrite Hdec.
Qed.

Lemma body_roundtrip_witness :
  let m := mkMsg 0 1 7 [] [x2a]
             [mkOpt URIQuery (VString "x=1"); mkOpt ContentFormat (VMediaType 50);
              mkOpt URIPath (VString "a"); mkOpt MaxAge (VUint32 300)] in
  exists data,
    encodeBody m = Ok data /\
    decodeBody m data =
      Ok (mkMsg 0 1 7 [] [x2a]
            [mkOpt URIPath (VString "a"); mkOpt ContentFormat (VMediaType 50);
             mkOpt MaxAge (VUint32 300); mkOpt URIQuery (VString "x=1")]).
Proof.
  intros m.
  destruct (body_roundtrip m) as (data & H1 & H2 & _);
    [reflexivity | reflexivity |].
  exists data. split; [exact H1 | exact H2].
Defined.

(** Content-Format 300 held in a [uint32] conforms to the registry (an
    integer of two bytes) and comes back as [MediaType] 44; Max-Age 5 held in
    an [int] comes back held in a [uint32]. *)
Lemma body_roundtrip_counterexample :
  let m := mkMsg 0 1 7 [] [] [mkOpt ContentFormat (VUint32 300)] in
  forallb conforms (opts m) = true /\
  writeOpts [] (opts m) = Ok [xc2; x01; x2c] /\
  parseBody [xc2; x01; x2c] = Ok ([mkOpt ContentFormat (VMediaType 44)], []) /\
  encodeBody m = Ok [xc2; x01; x2c] /\
  decodeBody m [xc2; x01; x2c] =
    Ok (mkMsg 0 1 7 [] [] [mkOpt ContentFormat (VMediaType 44)]) /\
  ~ Permutation (opts m) [mkOpt ContentFormat (VMediaType 44)] /\
  conforms (mkOpt MaxAge (VInt 5)) = true /\
  writeOpts [] [mkOpt MaxAge (VInt 5)] = Ok [xd1; x01; x05] /\
  parseBody [xd1; x01; x05] = Ok ([mkOpt MaxAge (VUint32 5)], []).
Proof.
  cbv zeta. split; [reflexivity|]. split; [reflexivity|].
  split; [reflexivity|]. split; [reflexivity|]. split; [reflexivity|].
  split; [|split; [reflexivity | split; reflexivity]].
  intros H. apply Permutation_length_1 in H. discriminate.
Qed.

(** C6 (amended).  The option encoder never returns [ErrOptionTooLong]: when
    every value has a Go type that [toBytes] maps to text, bytes or an integer,
    [writeOpts] succeeds and writes every option in full with its real length,
    whatever the registry's bound for it; when some value has another type,
    [toBytes] panics and the encoding is aborted.  No option is left out. *)
Theorem encode_failures buf opts :
  (forallb mappable (map Value opts) = true ->
     writeOpts buf opts = Ok (buf ++ wire (entriesOf 0 opts))) /\
  (forallb mappable (map Value opts) = false ->
     writeOpts buf opts = Err PanicInvalidType) /\
  writeOpts buf opts <> Err ErrOptionTooLong /\
  (forall m, opts = Coap.opts m -> encodeBody m <> Err ErrOptionTooLong).
Proof.
  split; [apply writeOptsFrom_wire|]. split; [apply writeOptsFrom_panic|].
  split.
  - unfold writeOpts.
    destruct (forallb mappable (map Value opts)) eqn:E.
    + now rewrite writeOptsFrom_wire.
    + now rewrite writeOptsFrom_panic.
  - intros m ->.
    destruct (forallb mappable (map Value (Coap.opts m))) eqn:E.
    + now rewrite encodeBody_ok.
    + now rewrite encodeBody_panic.
Qed.

Lemma encode_failures_witness :
  writeOpts [] [mkOpt ETag (VBytes [x01]); mkOpt URIPath VOther]
  = Err PanicInvalidType.
Proof.
  apply (encode_failures [] [mkOpt ETag (VBytes [x01]); mkOpt URIPath VOther]).
  reflexivity.
Defined.

(** If-None-Match admits no value bytes; one byte is written all the same. *)
Lemma encode_failures_counterexample :
  let o := mkOpt IfNoneMatch (VBytes [x01]) in
  toBytes o = Ok [x01] /\
  len [x01] > maxLen (optionDefs (ID o)) /\
  writeOpts [] [o] = Ok [x51; x01] /\
  encodeBody (mkMsg 0 1 7 [] [] [o]) = Ok [x51; x01].
Proof.
  cbv zeta. repeat split.
Qed.

End CoapFacts.

(** ** Pieces of bounded size *)

Module ChunkFacts.
Import Chunks.
Local Open Scope nat_scope.

Lemma chunkCount_lt c n i : 0 < c -> (i < chunkCount c n <-> c * i < n).
Proof.
  intros Hc. unfold chunkCount. split.
  - intros H. destruct (Nat.lt_ge_cases (c * i) n) as [|Hge]; [assumption|].
    assert ((n + c - 1) / c < S i); [|lia].
    apply Nat.Div0.div_lt_upper_bound; lia.
  - intros H. apply (Nat.div_le_lower_bound (n + c - 1) c (S i)); lia.
Qed.

Lemma firstn_add {A} (a b : nat) (l : list A) :
  firstn (a + b) l = firstn a l ++ firstn b (skipn a l).
Proof.
  revert l. induction a as [|a IH]; intros l; [reflexivity|].
  destruct l as [|x l]; [cbn; now rewrite firstn_nil|].
  cbn. now rewrite IH.
Qed.

Lemma concat_chunks_from {A} (c : nat) (l : list A) k : forall i,
  List.concat (map (chunk c l) (seq i k)) = firstn (c * k) (skipn (c * i) l).
Proof.
  induction k as [|k IH]; intros i.
  - now rewrite Nat.mul_0_r.
  - cbn [seq map List.concat]. rewrite IH. unfold chunk.
    replace (c * S k) with (c + c * k) by lia.
    rewrite firstn_add, skipn_skipn. do 3 f_equal. lia.
Qed.

(** The pieces, in order, make up the buffer. *)
Lemma concat_chunks {A} (c : nat) (l : list A) :
  0 < c -> List.concat (chunks c l) = l.
Proof.
  intros Hc. unfold chunks. rewrite concat_chunks_from.
  rewrite Nat.mul_0_r. cbn [skipn]. apply firstn_all2.
  destruct (Nat.lt_ge_cases (c * chunkCount c (List.length l)) (List.length l))
    as [H|H]; [|assumption].
  apply chunkCount_lt in H; [lia | assumption].
Qed.

Lemma chunk_length {A} (c : nat) (l : list A) i :
  List.length (chunk c l i) = Nat.min c (List.length l - c * i).
Proof. unfold chunk. now rewrite length_firstn, length_skipn. Qed.

(** Every piece but the last is full; the last one is not empty. *)
Lemma chunk_full {A} (c : nat) (l : list A) i :
  0 < c -> S i < chunkCount c (List.length l) ->
  List.length (chunk c l i) = c.
Proof.
  intros Hc H. apply chunkCount_lt in H; [|assumption].
  rewrite chunk_length. lia.
Qed.

Lemma chunk_nonempty {A} (c : nat) (l : list A) i :
  0 < c -> i < chunkCount c (List.length l) ->
  0 < List.length (chunk c l i) <= c.
Proof.
  intros Hc H. apply chunkCount_lt in H; [|assumption].
  rewrite chunk_length. lia.
Qed.

Lemma firstn_min {A} (c : nat) (l : list A) :
  firstn (Nat.min c (List.length l)) l = firstn c l.
Proof.
  destruct (Nat.le_gt_cases c (List.length l)).
  - now rewrite Nat.min_l.
  - rewrite Nat.min_r by lia. rewrite firstn_all. symmetry.
    apply firstn_all2. lia.
Qed.

Lemma nth_error_seq s k : forall j,
  nth_error (seq s k) j = if Nat.ltb j k then Some (s + j) else None.
Proof.
  revert s. induction k as [|k IH]; intros s j.
  - destruct j; reflexivity.
  - destruct j as [|j].
    + cbn. apply f_equal. lia.
    + cbn [seq nth_error]. rewrite IH.
      change (Nat.ltb (S j) (S k)) with (Nat.ltb j k).
      destruct (Nat.ltb j k); [apply f_equal; lia | reflexivity].
Qed.

End ChunkFacts.

(** ** The serial transport *)

Module SerialFacts.
Import Bytes BytesFacts Serial Chunks ChunkFacts SerialWire.

Section Tx.

Variable Crc16 : list byte -> Z.
Variable base64Encode : list byte -> list byte.
Variable Packet : Type.

Abbreviation SerialXport := (Serial.SerialXport Packet).

Lemma wrote_nil (sx : SerialXport) : wrote sx [] = sx.
Proof. destruct sx. unfold wrote. cbn. now rewrite app_nil_r. Qed.

Lemma wrote_wrote (sx : SerialXport) e1 e2 :
  wrote (wrote sx e1) e2 = wrote sx (e1 ++ e2).
Proof. unfold wrote. cbn. now rewrite app_assoc. Qed.

Lemma txLoop_events (data : list byte) k : forall i fuel sx,
  (i + k = chunkCount 124 (List.length data))%nat -> (k <= fuel)%nat ->
  txLoop Packet fuel data (Z.of_nat (Nat.min (124 * i) (List.length data))) sx =
  Ok (wrote sx (flat_map (burstEvents data) (seq i k))).
Proof.
  induction k as [|k IH]; intros i fuel sx Hik Hf.
  - assert (Hge : ~ (124 * i < List.length data)%nat).
    { intros H. apply chunkCount_lt in H; lia. }
    cbn [seq flat_map]. rewrite wrote_nil.
    destruct fuel; cbn [txLoop]; unfold len;
      destruct (Z.ltb_spec (Z.of_nat (Nat.min (124 * i) (List.length data)))
                           (Z.of_nat (List.length data))); try lia; reflexivity.
  - assert (Hlt : (124 * i < List.length data)%nat).
    { apply chunkCount_lt; lia. }
    destruct fuel as [|fuel]; [lia|].
    rewrite Nat.min_l by lia. cbn [txLoop]. unfold len.
    destruct (Z.ltb_spec (Z.of_nat (124 * i)) (Z.of_nat (List.length data)));
      [|lia].
    set (writeLen := Z.min 124 (Z.of_nat (List.length data) - Z.of_nat (124 * i))).
    assert (Hslice : slice data (Z.of_nat (124 * i)) (Z.of_nat (124 * i) + writeLen)
                     = chunk 124 data i).
    { unfold slice, chunk.
      replace (Z.to_nat (Z.of_nat (124 * i) + writeLen - Z.of_nat (124 * i)))
        with (Nat.min 124 (List.length (skipn (124 * i) data)))
        by (rewrite length_skipn; unfold writeLen; lia).
      rewrite Nat2Z.id. apply firstn_min. }
    rewrite Hslice.
    replace (Z.of_nat (124 * i) + writeLen)
      with (Z.of_nat (Nat.min (124 * S i) (List.length data)))
      by (unfold writeLen; lia).
    rewrite IH by lia. f_equal.
    cbn [seq flat_map]. unfold burstEvents at 2.
    destruct (Z.eqb_spec (Z.of_nat (124 * i)) 0) as [E|E].
    + assert (i = 0)%nat by lia. subst i. cbn [Nat.eqb].
      unfold txRaw, sleep, wrote. cbn. now rewrite <- !app_assoc.
    + destruct i as [|i]; [lia|]. cbn [Nat.eqb].
      unfold txRaw, sleep, wrote. cbn. now rewrite <- !app_assoc.
Qed.

(** C7.  For every payload, [Tx] returns without error having written to the
    port exactly: the base64 text of (16-bit big-endian length of payload plus
    checksum, payload, 16-bit big-endian checksum of the payload), cut into
    consecutive bursts of at most 124 bytes, each burst but the last of
    exactly 124 = 4 * 31 bytes; before the first burst the two bytes 6, 9;
    before every later burst a 20 ms pause and the two bytes 4, 20; after every
    burst a newline.  The bursts put together are the base64 text. *)
Theorem tx_frames (sx : SerialXport) (payload : list byte) :
  let data := base64Encode (frame Crc16 payload) in
  Tx Crc16 base64Encode Packet sx payload = Ok (wrote sx (txEvents data)) /\
  frame Crc16 payload =
    PutUint16 (uint16 (len payload + 2)) ++ payload ++ PutUint16 (Crc16 payload) /\
  List.concat (chunks 124 data) = data /\
  (forall i, (i < chunkCount 124 (List.length data))%nat ->
     (0 < List.length (chunk 124 data i) <= 124)%nat) /\
  (forall i, (S i < chunkCount 124 (List.length data))%nat ->
     List.length (chunk 124 data i) = (4 * 31)%nat) /\
  (forall i, burstEvents data i =
     (if Nat.eqb i 0 then [Write [x06; x09]] else [Sleep 20; Write [x04; x14]])
     ++ [Write (chunk 124 data i); Write [x0a]]).
Proof.
  intros data. split; [|split; [|split; [|split; [|split]]]].
  - unfold Tx. fold (frame Crc16 payload). fold data.
    apply (txLoop_events data _ 0%nat); [reflexivity|].
    unfold chunkCount. destruct (List.length data) as [|n]; [cbn; lia|].
    apply Nat.Div0.div_le_upper_bound. lia.
  - unfold frame. rewrite len_app. reflexivity.
  - apply concat_chunks. lia.
  - intros i Hi. apply chunk_nonempty; [lia | assumption].
  - intros i Hi. apply chunk_full; [lia | assumption].
  - reflexivity.
Qed.

End Tx.

(** The frame of the one-byte payload 01 under the instances: length 3,
    checksum 0x1021, one burst. *)
Example tx_example :
  Tx Instances.Crc16 Instances.base64Encode Instances.Packet
     (mkXport _ [] [] (mkScanner [] None) None) [x01] =
  Ok (mkXport _ [Write [x06; x09];
                 Write (list_byte_of_string "AAMBECE=");
                 Write [x0a]]
              [] (mkScanner [] None) None).
Proof. reflexivity. Qed.

Section Rx.

Variable Crc16 : list byte -> Z.
Variable base64Decode : list byte -> option (list byte).
Variable Packet : Type.
Variable NewPacket : Z -> result Packet.
Variable AddBytes : Packet -> list byte -> Packet * bool.
Variable GetBytes : Packet -> list byte.
Variable TrimEnd : Packet -> Z -> Packet.

Abbreviation rxLine' :=
  (rxLine Crc16 base64Decode Packet NewPacket AddBytes GetBytes TrimEnd).

(** The two ways out of [Rx] once a packet is full: on success the packet is
    dropped ([sx.pkt = nil]); on a checksum error it stays in [sx.pkt]. *)
Lemma rxLine_ok_clears_pkt sx line sx' b :
  rxLine' sx line = (sx', Some (Ok b)) -> pkt _ sx' = None.
Proof.
  unfold rxLine.
  destruct (_ || _); [discriminate|].
  destruct (base64Decode _) as [data|]; [|discriminate].
  assert (K : forall sx0 data0,
    match pkt _ sx0 with
    | Some p =>
      let '(p0, full) := AddBytes p data0 in
      if full then
        if negb (Crc16 (GetBytes p0) =? 0)
        then (setPkt _ sx0 (Some p0), Some (Err ErrCRC))
        else (setPkt _ (setPkt _ sx0 (Some p0)) None,
              Some (Ok (GetBytes (TrimEnd p0 2))))
      else (setPkt _ sx0 (Some p0), None)
    | None => (sx0, None)
    end = (sx', Some (Ok b)) -> pkt _ sx' = None).
  { intros sx0 data0. destruct (pkt _ sx0) as [p|]; [|discriminate].
    destruct (AddBytes p data0) as [p0 full].
    destruct full; [|discriminate].
    destruct (negb _); [discriminate|]. intros [= <- _]. reflexivity. }
  destruct (isStart _).
  - destruct data as [|d0 [|d1 data']]; try discriminate.
    destruct (NewPacket _); [apply K | discriminate].
  - apply K.
Qed.

Lemma rxLine_crc_keeps_pkt sx line sx' :
  (forall n, NewPacket n <> Err ErrCRC) ->
  rxLine' sx line = (sx', Some (Err ErrCRC)) ->
  exists p, pkt _ sx' = Some p /\ Crc16 (GetBytes p) <> 0.
Proof.
  intros Hnew. unfold rxLine.
  destruct (_ || _); [discriminate|].
  destruct (base64Decode _) as [data|]; [|discriminate].
  assert (K : forall sx0 data0,
    match pkt _ sx0 with
    | Some p =>
      let '(p0, full) := AddBytes p data0 in
      if full then
        if negb (Crc16 (GetBytes p0) =? 0)
        then (setPkt _ sx0 (Some p0), Some (Err ErrCRC))
        else (setPkt _ (setPkt _ sx0 (Some p0)) None,
              Some (Ok (GetBytes (TrimEnd p0 2))))
      else (setPkt _ sx0 (Some p0), None)
    | None => (sx0, None)
    end = (sx', Some (Err ErrCRC)) ->
    exists p, pkt _ sx' = Some p /\ Crc16 (GetBytes p) <> 0).
  { intros sx0 data0. destruct (pkt _ sx0) as [p|]; [|discriminate].
    destruct (AddBytes p data0) as [p0 full].
    destruct full; [|discriminate].
    destruct (Z.eqb_spec (Crc16 (GetBytes p0)) 0); [discriminate|].
    intros [= <-]. exists p0. split; [reflexivity | assumption]. }
  destruct (isStart _).
  - destruct data as [|d0 [|d1 data']]; try discriminate.
    destruct (NewPacket _) eqn:E; [apply K|].
    intros [= _ ->]. now apply Hnew in E.
  - apply K.
Qed.

End Rx.

(** C8.  A start line carrying the one-byte frame 01 with a wrong checksum
    makes [Rx] fail with the CRC error, as the claim says; but the full packet
    stays in [sx.pkt].  On the next call a continuation line is appended to it
    instead of being skipped: here the stale byte and the two new bytes pass
    the checksum, and [Rx] returns the byte of the frame it had rejected.  Had
    the packet been dropped, the second call would have skipped the line and
    timed out. *)
Theorem rx_crc_error_keeps_packet :
  let Rx := Serial.Rx Instances.Crc16 Instances.base64Decode Instances.Packet
              Instances.NewPacket Instances.AddBytes Instances.GetBytes
              Instances.TrimEnd in
  let line1 := [x06; x09] ++ list_byte_of_string "AAEB" in
  let line2 := [x04; x14] ++ list_byte_of_string "ECE=" in
  let sx0 := mkXport Instances.Packet [] [] (mkScanner [line1; line2] None) None in
  let stale := Instances.mkPacket 1 [x01] in
  let sx1 := mkXport Instances.Packet [] [] (mkScanner [line2] None) (Some stale) in
  Instances.base64Decode (list_byte_of_string "AAEB") = Some [x00; x01; x01] /\
  Instances.Crc16 [x01] <> 0 /\
  Rx sx0 = (sx1, Err ErrCRC) /\
  snd (Rx sx1) = Ok [x01] /\
  snd (Rx (setPkt _ sx1 None)) = Err ErrTimeout.
Proof.
  cbv zeta. split; [reflexivity|]. split; [discriminate|].
  split; [reflexivity|]. split; reflexivity.
Qed.

End SerialFacts.

(** ** The LoRa fragment transport *)

Module LoraFacts.
Import Bytes BytesFacts Lora Chunks ChunkFacts LoraWire.

Lemma chunkCount_le c n m : (0 < c -> n <= c * m -> chunkCount c n <= m)%nat.
Proof.
  intros Hc H. destruct (Nat.le_gt_cases (chunkCount c n) m) as [|Hgt];
    [assumption|].
  apply chunkCount_lt in Hgt; lia.
Qed.

Lemma lor_last i : 0 <= i < 128 -> Z.lor i COAP_LORA_LAST_FRAG = i + 128.
Proof.
  intros H. change COAP_LORA_LAST_FRAG with (Z.shiftl 1 7).
  rewrite (lor_shiftl i 1 7) by (change (2 ^ 7) with 128; lia).
  reflexivity.
Qed.

Lemma fragNumber_flag i last :
  0 <= i < 128 -> Z.land (i + flagIf last) 127 = i.
Proof.
  intros H. change 127 with (Z.ones 7). rewrite Z.land_ones by lia.
  change (2 ^ 7) with 128. unfold flagIf, COAP_LORA_LAST_FRAG.
  destruct last; Z.div_mod_to_equations; lia.
Qed.

Lemma lastFlag_flag i last :
  0 <= i < 128 -> Z.testbit (i + flagIf last) 7 = last.
Proof.
  intros H. unfold flagIf, COAP_LORA_LAST_FRAG. destruct last.
  - apply Z.testbit_true; [lia|]. change (2 ^ 7) with 128.
    Z.div_mod_to_equations. lia.
  - apply Z.testbit_false; [lia|]. change (2 ^ 7) with 128.
    Z.div_mod_to_equations. lia.
Qed.

Section SendFragments.

Variable Crc16 : list byte -> Z.
Variable xportTx : Segment -> option error.
Hypothesis tx_ok : forall seg, xportTx seg = None.

Variable s : LoraSesn.
Variable b : list byte.
Let segSz := Mtu s.
Hypothesis segSz_min : 5 <= segSz.

Let first := Z.to_nat (segSz - 4).
Let rest := skipn first b.
Let c := Z.to_nat (segSz - 1).
Let K := chunkCount c (List.length rest).
Let L := List.length b.

Hypothesis few : (List.length rest <= c * 127)%nat.

Lemma K_bound : (K <= 127)%nat.
Proof. apply chunkCount_le; [unfold c; lia | exact few]. Qed.

Lemma sendLoop_cont crc k : forall j fuel sent,
  (j + k = K)%nat -> (k <= fuel)%nat ->
  sendLoop xportTx fuel segSz b crc
           (Z.of_nat (Nat.min L (first + c * j))) (Z.of_nat (S j)) sent
  = (sent ++ map (contSeg c rest K) (seq j k), Ok tt).
Proof.
  pose proof K_bound as HK.
  assert (Hc : (0 < c)%nat) by (unfold c; lia).
  assert (Hn : List.length rest = (L - first)%nat)
    by (unfold rest, L; apply length_skipn).
  induction k as [|k IH]; intros j fuel sent Hjk Hf.
  - assert (Hge : ~ (c * j < List.length rest)%nat).
    { intros Hx. apply chunkCount_lt in Hx; [fold K in Hx; lia | assumption]. }
    cbn [seq map]. rewrite app_nil_r.
    destruct fuel; cbn [sendLoop]; unfold len; fold L;
      destruct (Z.ltb_spec (Z.of_nat (Nat.min L (first + c * j))) (Z.of_nat L));
      try lia; reflexivity.
  - assert (Hlt : (c * j < List.length rest)%nat).
    { apply chunkCount_lt; [assumption | fold K; lia]. }
    destruct fuel as [|fuel]; [lia|].
    rewrite Nat.min_r by lia. cbn [sendLoop]. unfold len. fold L.
    destruct (Z.ltb_spec (Z.of_nat (first + c * j)) (Z.of_nat L)); [|lia].
    destruct (Z.eqb_spec (Z.of_nat (first + c * j)) 0); [unfold first in *; lia|].
    assert (Hlast : (segSz - 1 >=? Z.of_nat L - Z.of_nat (first + c * j))
                    = Nat.eqb (S j) K).
    { destruct (Nat.eqb_spec (S j) K) as [E|E].
      - apply Z.geb_le.
        assert (~ (c * S j < List.length rest)%nat).
        { intros Hx. apply chunkCount_lt in Hx; [fold K in Hx; lia | assumption]. }
        unfold c in *. lia.
      - destruct (Z.geb_spec (segSz - 1) (Z.of_nat L - Z.of_nat (first + c * j)));
          [|reflexivity].
        assert (Hs : (S j < K)%nat) by lia.
        apply chunkCount_lt in Hs; [|assumption]. unfold c in *. lia. }
    rewrite Hlast.
    set (blkLen := if Nat.eqb (S j) K
                   then Z.of_nat L - Z.of_nat (first + c * j) else segSz - 1).
    assert (HblkLen : blkLen = Z.of_nat (Nat.min c (List.length rest - c * j))).
    { unfold blkLen. destruct (Nat.eqb_spec (S j) K) as [E|E].
      - assert (~ (c * S j < List.length rest)%nat).
        { intros Hx. apply chunkCount_lt in Hx; [fold K in Hx; lia | assumption]. }
        lia.
      - assert (Hs : (S j < K)%nat) by lia.
        apply chunkCount_lt in Hs; [|assumption]. unfold c in *. lia. }
    assert (Hslice : slice b (Z.of_nat (first + c * j))
                       (Z.of_nat (first + c * j) + blkLen)
                     = Ok (chunk c rest j)).
    { unfold slice, len. fold L.
      destruct (Z.leb_spec 0 (Z.of_nat (first + c * j))); [|lia].
      destruct (Z.leb_spec (Z.of_nat (first + c * j))
                           (Z.of_nat (first + c * j) + blkLen)); [|lia].
      destruct (Z.leb_spec (Z.of_nat (first + c * j) + blkLen) (Z.of_nat L));
        [|lia].
      cbn [andb]. f_equal. unfold chunk, rest.
      rewrite skipn_skipn, Nat2Z.id.
      replace (c * j + first)%nat with (first + c * j)%nat by lia.
      replace (Z.to_nat (Z.of_nat (first + c * j) + blkLen
                         - Z.of_nat (first + c * j)))
        with (Nat.min c (List.length (skipn (first + c * j) b)))
        by (rewrite length_skipn; fold L; lia).
      apply firstn_min. }
    assert (Hidx : uint8 (Z.of_nat (S j)) = Z.of_nat (S j))
      by (unfold uint8; apply Z.mod_small; lia).
    assert (Hseg :
      (let '(blkLen, fragNum) :=
         if Nat.eqb (S j) K
         then (Z.of_nat L - Z.of_nat (first + c * j),
               Z.lor (uint8 (Z.of_nat (S j))) COAP_LORA_LAST_FRAG)
         else (segSz - 1, uint8 (Z.of_nat (S j))) in
       bind (slice b (Z.of_nat (first + c * j))
                   (Z.of_nat (first + c * j) + blkLen))
            (fun s => Ok (blkLen, mkSeg (CoapLoraFrag fragNum) s)))
      = Ok (blkLen, contSeg c rest K j)).
    { unfold contSeg, blkLen in *. rewrite Hidx.
      destruct (Nat.eqb (S j) K).
      - rewrite Hslice. cbn [bind flagIf]. now rewrite lor_last by lia.
      - rewrite Hslice. cbn [bind flagIf]. now rewrite Z.add_0_r. }
    rewrite Hseg. rewrite tx_ok.
    replace (Z.of_nat (first + c * j) + blkLen)
      with (Z.of_nat (Nat.min L (first + c * S j))) by lia.
    replace (Z.of_nat (S j) + 1) with (Z.of_nat (S (S j))) by lia.
    rewrite IH by lia. cbn [seq map]. now rewrite <- app_assoc.
Qed.

Lemma K_le_rest : (K <= List.length rest)%nat.
Proof.
  apply chunkCount_le; [unfold c; lia|].
  assert (1 <= c)%nat by (unfold c; lia). nia.
Qed.

Lemma sendFragments_fragments fuel :
  b <> [] -> (List.length b <= fuel)%nat ->
  sendFragments Crc16 xportTx fuel s b
  = (fragments segSz (Crc16 b) b, Ok tt).
Proof.
  intros Hb Hf. pose proof K_le_rest as HK.
  assert (Hn : List.length rest = (L - first)%nat)
    by (unfold rest, L; apply length_skipn).
  assert (HL : (0 < L)%nat) by (unfold L; destruct b; [congruence | cbn; lia]).
  unfold sendFragments. fold segSz. cbv zeta.
  destruct fuel as [|fuel]; [fold L in Hf; lia|].
  cbn [sendLoop]. unfold len. fold L.
  destruct (Z.ltb_spec 0 (Z.of_nat L)); [|lia]. cbn [Z.eqb].
  assert (Hlast : (segSz - 4 >=? Z.of_nat L) = Nat.eqb K 0).
  { destruct (Nat.eqb_spec K 0) as [E|E].
    - apply Z.geb_le.
      destruct (Nat.eq_dec (List.length rest) 0) as [E0|E0];
        [unfold first in *; lia|].
      assert (0 < K)%nat; [|lia].
      apply chunkCount_lt; [unfold c|]; lia.
    - destruct (Z.geb_spec (segSz - 4) (Z.of_nat L)); [|reflexivity].
      exfalso. apply E. unfold K.
      replace (List.length rest) with 0%nat by (unfold first in *; lia).
      unfold chunkCount. apply Nat.div_small. unfold c. lia. }
  rewrite Hlast.
  set (blkLen := if Nat.eqb K 0 then Z.of_nat L else segSz - 4).
  assert (HblkLen : blkLen = Z.of_nat (Nat.min L first)).
  { unfold blkLen. rewrite <- Hlast.
    destruct (Z.geb_spec (segSz - 4) (Z.of_nat L)); unfold first; lia. }
  assert (Hslice : slice b 0 blkLen = Ok (firstn first b)).
  { unfold slice, len. fold L.
    destruct (Z.leb_spec 0 blkLen); [|lia].
    destruct (Z.leb_spec blkLen (Z.of_nat L)); [|lia].
    change (0 <=? 0) with true. change (Z.to_nat 0) with 0%nat.
    cbn [andb skipn]. f_equal.
    rewrite Z.sub_0_r, HblkLen, Nat2Z.id, Nat.min_comm.
    apply firstn_min. }
  assert (Hseg :
    (let '(blkLen, fragNum) :=
       if Nat.eqb K 0
       then (Z.of_nat L, Z.lor 0 COAP_LORA_LAST_FRAG) else (segSz - 4, 0) in
     bind (slice b 0 blkLen)
          (fun s => Ok (blkLen, mkSeg (CoapLoraFragStart fragNum (Crc16 b)) s)))
    = Ok (blkLen, mkSeg (CoapLoraFragStart (flagIf (Nat.eqb K 0)) (Crc16 b))
                        (firstn first b))).
  { unfold blkLen in *. destruct (Nat.eqb K 0); rewrite Hslice; reflexivity. }
  rewrite Hseg, tx_ok.
  replace (0 + blkLen) with (Z.of_nat (Nat.min L (first + c * 0)))
    by (rewrite HblkLen; f_equal; lia).
  change (0 + 1) with (Z.of_nat 1).
  rewrite (sendLoop_cont (Crc16 b) K 0%nat) by (fold L in Hf; lia).
  reflexivity.
Qed.

End SendFragments.

Lemma fragments_length segSz crc b :
  List.length (fragments segSz crc b) =
  S (chunkCount (Z.to_nat (segSz - 1))
                (List.length (skipn (Z.to_nat (segSz - 4)) b))).
Proof. unfold fragments. cbn. now rewrite length_map, length_seq. Qed.

Lemma fragments_concat segSz crc b :
  5 <= segSz -> List.concat (map blk (fragments segSz crc b)) = b.
Proof.
  intros H. unfold fragments. cbn [map List.concat blk].
  rewrite map_map. unfold contSeg. cbn [blk].
  change (map (fun j => chunk ?c ?l j) ?s) with (map (chunk c l) s).
  fold (chunks (Z.to_nat (segSz - 1)) (skipn (Z.to_nat (segSz - 4)) b)).
  rewrite concat_chunks by lia. apply firstn_skipn.
Qed.

(** C9 (amended).  For every non-empty payload of length L and every segment
    size S >= 5 with L <= (S-4) + 127*(S-1) (at most 128 segments, the range of
    the 7-bit fragment number), provided the transport accepts every segment,
    [sendFragments] returns nil after handing over segments such that: the
    first has a start header with the checksum of the whole payload, for which
    4 bytes are reserved, and carries the first S-4 payload bytes (all L if
    L <= S-4); every later one has a fragment header, for which 1 byte is
    reserved, and carries the next S-1 payload bytes, the last one the 1 to
    S-1 bytes that remain; the fragment number of the i-th segment, counting
    from 0, is i; the last-fragment flag is set on the last segment and on no
    other; the payload slices put together in order are the payload. *)
Theorem fragments_sent Crc16 xportTx s b fuel :
  let segSz := Mtu s in
  b <> [] -> 5 <= segSz -> len b <= (segSz - 4) + 127 * (segSz - 1) ->
  (forall seg, xportTx seg = None) -> (List.length b <= fuel)%nat ->
  exists f0 s0 later,
    sendFragments Crc16 xportTx fuel s b =
      (mkSeg (CoapLoraFragStart f0 (Crc16 b)) s0 :: later, Ok tt) /\
    s0 = firstn (Z.to_nat (segSz - 4)) b /\
    len s0 = Z.min (len b) (segSz - 4) /\
    Forall (fun seg => exists f, hdr seg = CoapLoraFrag f /\
                                 0 < len (blk seg) <= segSz - 1) later /\
    (forall i seg, (S i < List.length later)%nat ->
       nth_error later i = Some seg -> len (blk seg) = segSz - 1) /\
    (forall i seg,
       nth_error (mkSeg (CoapLoraFragStart f0 (Crc16 b)) s0 :: later) i = Some seg ->
       fragNumber (hdr seg) = Z.of_nat i /\
       (lastFlag (hdr seg) = true <-> i = List.length later)) /\
    List.concat (map blk (mkSeg (CoapLoraFragStart f0 (Crc16 b)) s0 :: later)) = b.
Proof.
  intros segSz Hb HS HL Htx Hf.
  set (first := Z.to_nat (segSz - 4)). set (c := Z.to_nat (segSz - 1)).
  set (rest := skipn first b). set (K := chunkCount c (List.length rest)).
  assert (Hrest : List.length rest = (List.length b - first)%nat)
    by apply length_skipn.
  assert (Hfew : (List.length rest <= c * 127)%nat)
    by (unfold len in HL; unfold c, first in *; lia).
  assert (HK : (K <= 127)%nat) by (apply chunkCount_le; [unfold c; lia | exact Hfew]).
  assert (Hc : (0 < c)%nat) by (unfold c; lia).
  pose proof (sendFragments_fragments Crc16 xportTx Htx s b HS Hfew fuel Hb Hf)
    as Hsend. fold segSz in Hsend.
  pose proof (fragments_concat segSz (Crc16 b) b HS) as Hcat.
  unfold fragments in Hsend, Hcat. fold first c rest K in Hsend, Hcat.
  set (later := map _ (seq 0 K)) in *.
  assert (Hnth : forall j seg, nth_error later j = Some seg ->
            (j < K)%nat /\
            seg = mkSeg (CoapLoraFrag (Z.of_nat (S j) + flagIf (Nat.eqb (S j) K)))
                        (chunk c rest j)).
  { intros j seg. unfold later. rewrite nth_error_map, nth_error_seq.
    destruct (Nat.ltb_spec j K); cbn [option_map]; [|discriminate].
    intros [= <-]. split; [assumption | reflexivity]. }
  assert (Hlen : List.length later = K)
    by (unfold later; now rewrite length_map, length_seq).
  exists (flagIf (Nat.eqb K 0)), (firstn first b), later.
  split; [exact Hsend|]. split; [reflexivity|].
  split; [unfold len; rewrite length_firstn; unfold first; lia|].
  split; [|split; [|split; [|exact Hcat]]].
  - apply Forall_forall. intros seg Hin.
    apply In_nth_error in Hin as [j Hj]. apply Hnth in Hj as [Hj ->].
    eexists. split; [reflexivity|]. cbn [blk]. unfold len.
    pose proof (chunk_nonempty c rest j Hc Hj). unfold c in *. lia.
  - intros i seg Hi Hseg. apply Hnth in Hseg as [Hj ->]. cbn [blk].
    unfold len. rewrite chunk_full; [unfold c; lia | assumption | lia].
  - intros [|j] seg Hseg.
    + cbn in Hseg. injection Hseg as <-.
      unfold fragNumber, lastFlag. cbn [hdr FragNum].
      split; [apply (fragNumber_flag 0); lia|].
      assert (Hfl : Z.testbit (flagIf (Nat.eqb K 0)) 7 = Nat.eqb K 0)
        by (apply (lastFlag_flag 0); lia).
      rewrite Hfl, Hlen.
      destruct (Nat.eqb_spec K 0); split; intros; try lia; congruence.
    + cbn [nth_error] in Hseg. apply Hnth in Hseg as [Hj ->].
      unfold fragNumber, lastFlag. cbn [hdr FragNum].
      split; [apply fragNumber_flag; lia|].
      rewrite lastFlag_flag by lia. rewrite Hlen.
      destruct (Nat.eqb_spec (S j) K); split; intros; try lia; congruence.
Qed.

Lemma fragments_sent_witness :
  let b := [x01; x02; x03; x04; x05; x06; x07] in
  exists f0 s0 later,
    sendFragments Instances.Crc16 (fun _ => None) 7 (mkSesn 6 0 51) b =
      (mkSeg (CoapLoraFragStart f0 (Instances.Crc16 b)) s0 :: later, Ok tt) /\
    s0 = [x01; x02] /\
    List.concat (map blk (mkSeg (CoapLoraFragStart f0 (Instances.Crc16 b)) s0
                          :: later)) = b.
Proof.
  intros b.
  destruct (fragments_sent Instances.Crc16 (fun _ => None) (mkSesn 6 0 51) b 7)
    as (f0 & s0 & later & H & Hs0 & _ & _ & _ & _ & Hcat).
  - discriminate.
  - vm_compute. discriminate.
  - vm_compute. discriminate.
  - reflexivity.
  - cbn. lia.
  - exists f0, s0, later. split; [exact H|]. split; [exact Hs0 | exact Hcat].
Defined.

(** With a segment size of 4 the first segment takes no payload byte and the
    loop starts over for ever; with 3 the first slice is out of range; with
    more than 128 segments fragment 128 carries the flag although it is not the
    last, and its number reads 0. *)
Lemma fragments_sent_counterexample :
  let send := sendFragments Instances.Crc16 (fun _ => None) in
  (forall fuel, snd (send fuel (mkSesn 4 0 51) [x01]) = Err OutOfFuel) /\
  send 10%nat (mkSesn 3 0 51) [x01] = ([], Err PanicSliceBounds) /\
  (exists segs seg,
     send 1000%nat (mkSesn 5 0 51) (repeat x00 514) = (segs, Ok tt) /\
     List.length segs = 130%nat /\
     nth_error segs 128 = Some seg /\
     lastFlag (hdr seg) = true /\ fragNumber (hdr seg) = 0).
Proof.
  cbv zeta. split; [|split].
  - intros fuel. unfold sendFragments. cbv zeta.
    change (Mtu (mkSesn 4 0 51)) with 4.
    generalize (@nil Segment). generalize 0 at 2.
    induction fuel as [|fuel IH]; intros idx sent; [reflexivity|].
    cbn [sendLoop]. cbn. apply IH.
  - reflexivity.
  - eexists. eexists. split; [vm_compute; reflexivity|].
    split; [reflexivity|]. split; [reflexivity|]. split; reflexivity.
Qed.

End LoraFacts.

(** ** More of message.go: integers, decoded options, accessors *)

Module CoapExtra.
Import Bytes BytesFacts Coap CoapMsg CoapWire CoapFacts.
Local Open Scope result_scope.

(** *** [encodeInt] and [decodeInt] *)

Ltac byte_ranges :=
  repeat match goal with
         | x : byte |- _ =>
           lazymatch goal with
           | _ : 0 <= to_Z x < 256 |- _ => fail
           | _ => pose proof (to_Z_range x)
           end
         end.

Lemma eqb_x00 x : eqb x x00 = (to_Z x =? 0).
Proof. reflexivity. Qed.

Lemma encodeInt_head_nonzero v b rest :
  0 <= v < 4294967296 -> encodeInt v = b :: rest -> to_Z b <> 0.
Proof.
  intros Hv. unfold encodeInt.
  destruct (Z.eqb_spec v 0); [discriminate|].
  destruct (Z.ltb_spec v 256).
  { intros [= <- _]. rewrite to_of_Z, Z.mod_small by lia. lia. }
  destruct (Z.ltb_spec v 65536).
  { unfold uint16, PutUint16. rewrite Z.mod_small by lia. intros [= <- _].
    rewrite to_of_Z, Z.shiftr_div_pow2 by lia. change (2 ^ 8) with 256.
    Z.div_mod_to_equations. lia. }
  destruct (Z.ltb_spec v 16777216).
  { unfold PutUint32. cbn [tl]. intros [= <- _].
    rewrite to_of_Z, Z.shiftr_div_pow2 by lia. change (2 ^ 16) with 65536.
    Z.div_mod_to_equations. lia. }
  unfold PutUint32. intros [= <- _].
  rewrite to_of_Z, Z.shiftr_div_pow2 by lia. change (2 ^ 24) with 16777216.
  Z.div_mod_to_equations. lia.
Qed.

Lemma encodeInt_bound v :
  0 <= v < 4294967296 -> v < 256 ^ len (encodeInt v).
Proof.
  intros Hv. unfold encodeInt.
  destruct (Z.eqb_spec v 0); [subst; cbn; lia|].
  destruct (Z.ltb_spec v 256); [cbn; lia|].
  destruct (Z.ltb_spec v 65536); [cbn; lia|].
  destruct (Z.ltb_spec v 16777216); cbn; lia.
Qed.

(** X1.  On the 32-bit unsigned integers [decodeInt] undoes [encodeInt], and
    the encoding is the shortest big-endian one: at most four bytes, as many
    as the value needs, no byte at all for 0 and never a leading zero byte. *)
Theorem encodeInt_roundtrip v :
  0 <= v < 4294967296 ->
  decodeInt (encodeInt v) = Ok v /\
  len (encodeInt v) <= 4 /\
  v < 256 ^ len (encodeInt v) /\
  (encodeInt v = [] <-> v = 0) /\
  (forall b rest, encodeInt v = b :: rest -> b <> x00).
Proof.
  intros Hv. split; [now apply decodeInt_encodeInt|].
  split; [apply len_encodeInt|]. split; [now apply encodeInt_bound|].
  split.
  - split.
    + intros E. pose proof (encodeInt_bound v Hv) as Hb. rewrite E in Hb.
      cbn in Hb. lia.
    + intros ->. reflexivity.
  - intros b rest E ->. apply (encodeInt_head_nonzero v _ _ Hv) in E.
    now apply E.
Qed.

Lemma encodeInt_roundtrip_witness :
  decodeInt (encodeInt 65536) = Ok 65536 /\ encodeInt 65536 = [x01; x00; x00].
Proof.
  destruct (encodeInt_roundtrip 65536) as (H & _); [lia|].
  split; [exact H | reflexivity].
Defined.

Lemma decodeInt_range b n : decodeInt b = Ok n -> 0 <= n < 256 ^ len b.
Proof.
  destruct b as [|b0 [|b1 [|b2 [|b3 [|? ?]]]]]; cbn [decodeInt];
    try discriminate; intros [= <-]; rewrite Uint32_eq;
    byte_ranges; change (to_Z x00) with 0;
    match goal with
    | |- context [256 ^ ?k] =>
      let v := eval vm_compute in (256 ^ k) in change (256 ^ k) with v
    end; lia.
Qed.

Lemma decodeInt_dropZeros b :
  len b <= 4 -> decodeInt (dropZeros b) = decodeInt b.
Proof.
  unfold len. intros H.
  destruct b as [|b0 [|b1 [|b2 [|b3 [|? ?]]]]]; try (cbn in H; lia);
    cbn [dropZeros]; rewrite ?eqb_x00;
    repeat match goal with
           | |- context [to_Z ?x =? 0] =>
             destruct (Z.eqb_spec (to_Z x) 0) as [?E|?E]
           end; cbn [decodeInt]; try reflexivity;
    f_equal; rewrite !Uint32_eq; change (to_Z x00) with 0; lia.
Qed.

Lemma of_Z_div_eq x q r k :
  0 <= r < k -> 0 < k -> x = to_Z q * k + r -> of_Z (x / k) = q.
Proof.
  intros Hr Hk ->. apply to_Z_inj. rewrite to_of_Z.
  pose proof (to_Z_range q).
  replace ((to_Z q * k + r) / k) with (to_Z q)
    by (Z.div_mod_to_equations; nia).
  apply Z.mod_small. lia.
Qed.

Lemma of_Z_low x hi q :
  x = hi * 256 + to_Z q -> of_Z x = q.
Proof.
  intros ->. apply to_Z_inj. rewrite to_of_Z.
  pose proof (to_Z_range q). Z.div_mod_to_equations. lia.
Qed.

Lemma dropZeros_length b : (List.length (dropZeros b) <= List.length b)%nat.
Proof.
  induction b as [|y l IH]; cbn; [lia|].
  destruct (eqb y x00); cbn in *; lia.
Qed.

Lemma dropZeros_fixed x rest : dropZeros (x :: rest) = x :: rest -> to_Z x <> 0.
Proof.
  cbn [dropZeros]. rewrite eqb_x00.
  destruct (Z.eqb_spec (to_Z x) 0) as [E|E]; [|intros _; exact E].
  intros Hz. apply (f_equal (@List.length byte)) in Hz.
  pose proof (dropZeros_length rest). cbn in Hz. lia.
Qed.

Lemma dropZeros_head b x rest : dropZeros b = x :: rest -> to_Z x <> 0.
Proof.
  induction b as [|y l IH]; cbn [dropZeros]; [discriminate|].
  rewrite eqb_x00. destruct (Z.eqb_spec (to_Z y) 0); [exact IH|].
  intros [= <- _]. assumption.
Qed.

Lemma dropZeros_idem b : dropZeros (dropZeros b) = dropZeros b.
Proof.
  induction b as [|y l IH]; [reflexivity|].
  cbn [dropZeros]. destruct (eqb y x00) eqn:E; [exact IH|].
  cbn [dropZeros]. now rewrite E.
Qed.

(** A byte string without a leading zero is the encoding of its value. *)
Lemma encodeInt_decodeInt_canonical b n :
  len b <= 4 -> dropZeros b = b -> decodeInt b = Ok n -> encodeInt n = b.
Proof.
  unfold len. intros H Hz.
  destruct b as [|b0 [|b1 [|b2 [|b3 [|? ?]]]]]; try (cbn in H; lia);
    cbn [decodeInt]; intros [= <-]; [reflexivity| | | |];
    apply dropZeros_fixed in Hz;
    rewrite Uint32_eq; change (to_Z x00) with 0;
    byte_ranges; unfold encodeInt.
  - destruct (Z.eqb_spec (0 * 16777216 + 0 * 65536 + 0 * 256 + to_Z b0) 0);
      [lia|].
    destruct (Z.ltb_spec (0 * 16777216 + 0 * 65536 + 0 * 256 + to_Z b0) 256);
      [|lia].
    f_equal. apply (of_Z_low _ 0). lia.
  - set (n := 0 * 16777216 + 0 * 65536 + to_Z b0 * 256 + to_Z b1).
    destruct (Z.eqb_spec n 0); [unfold n in *; lia|].
    destruct (Z.ltb_spec n 256); [unfold n in *; lia|].
    destruct (Z.ltb_spec n 65536); [|unfold n in *; lia].
    unfold uint16, PutUint16. rewrite (Z.mod_small n) by (unfold n; lia).
    rewrite Z.shiftr_div_pow2 by lia. change (2 ^ 8) with 256.
    f_equal; [|f_equal].
    + apply (of_Z_div_eq n b0 (to_Z b1) 256); unfold n; lia.
    + apply (of_Z_low n (to_Z b0)). unfold n. lia.
  - set (n := 0 * 16777216 + to_Z b0 * 65536 + to_Z b1 * 256 + to_Z b2).
    destruct (Z.eqb_spec n 0); [unfold n in *; lia|].
    destruct (Z.ltb_spec n 256); [unfold n in *; lia|].
    destruct (Z.ltb_spec n 65536); [unfold n in *; lia|].
    destruct (Z.ltb_spec n 16777216); [|unfold n in *; lia].
    unfold PutUint32. cbn [tl]. rewrite !Z.shiftr_div_pow2 by lia.
    change (2 ^ 8) with 256. change (2 ^ 16) with 65536.
    f_equal; [|f_equal; [|f_equal]].
    + apply (of_Z_div_eq n b0 (to_Z b1 * 256 + to_Z b2) 65536); unfold n; lia.
    + apply (of_Z_low _ (to_Z b0)).
      unfold n. Z.div_mod_to_equations. lia.
    + apply (of_Z_low n (to_Z b0 * 256 + to_Z b1)). unfold n. lia.
  - set (n := to_Z b0 * 16777216 + to_Z b1 * 65536 + to_Z b2 * 256 + to_Z b3).
    destruct (Z.eqb_spec n 0); [unfold n in *; lia|].
    destruct (Z.ltb_spec n 256); [unfold n in *; lia|].
    destruct (Z.ltb_spec n 65536); [unfold n in *; lia|].
    destruct (Z.ltb_spec n 16777216); [unfold n in *; lia|].
    unfold PutUint32. rewrite !Z.shiftr_div_pow2 by lia.
    change (2 ^ 8) with 256. change (2 ^ 16) with 65536.
    change (2 ^ 24) with 16777216.
    f_equal; [|f_equal; [|f_equal; [|f_equal]]].
    + apply (of_Z_div_eq n b0 (to_Z b1 * 65536 + to_Z b2 * 256 + to_Z b3)
                         16777216); unfold n; lia.
    + apply (of_Z_low _ (to_Z b0)). unfold n. Z.div_mod_to_equations. lia.
    + apply (of_Z_low _ (to_Z b0 * 256 + to_Z b1)).
      unfold n. Z.div_mod_to_equations. lia.
    + apply (of_Z_low n (to_Z b0 * 65536 + to_Z b1 * 256 + to_Z b2)).
      unfold n. lia.
Qed.

(** X2.  [decodeInt] accepts at most four bytes and panics on more.  Leading
    zero bytes do not change the value, which is below 256^len(b); encoding
    the value again gives the bytes without their leading zeros. *)
Theorem decodeInt_canonical b :
  if len b <=? 4
  then exists n, decodeInt b = Ok n /\ 0 <= n < 256 ^ len b /\
                 encodeInt n = dropZeros b
  else decodeInt b = Err PanicSliceBounds.
Proof.
  destruct (Z.leb_spec (len b) 4) as [H|H].
  - destruct (decodeInt_ok b H) as [n Hn]. exists n.
    split; [exact Hn|]. split; [now apply decodeInt_range|].
    apply encodeInt_decodeInt_canonical.
    + pose proof (dropZeros_length b). unfold len in *. lia.
    + apply dropZeros_idem.
    + now rewrite decodeInt_dropZeros.
  - unfold len in H.
    destruct b as [|b0 [|b1 [|b2 [|b3 [|? ?]]]]]; cbn in H; try lia.
    reflexivity.
Qed.

(** *** [parseOptionValue] and the options [parseBody] returns *)

(** X3.  [parseOptionValue] never panics, although [decodeInt] can: every
    integer entry of the registry admits at most four bytes, and the length is
    checked first.  It returns nil exactly when the id has no registry entry
    or the length is outside the entry's bounds. *)
Theorem parseOptionValue_never_panics optionID valueBuf :
  exists v,
    parseOptionValue optionID valueBuf = Ok v /\
    (v = VNil <->
     format (optionDefs optionID) = valueUnknown \/
     len valueBuf < minLen (optionDefs optionID) \/
     len valueBuf > maxLen (optionDefs optionID)).
Proof.
  exists (valueOf optionID valueBuf).
  split; [apply valueOf_eq | apply valueOf_nil_iff].
Qed.

Lemma empty_maxLen id :
  format (optionDefs id) = valueEmpty -> maxLen (optionDefs id) = 0.
Proof.
  unfold optionDefs.
  repeat match goal with
         | |- context [match ?x with _ => _ end] => destruct x
         end; cbn; intros; try discriminate; reflexivity.
Qed.

Lemma uint_minLen id :
  format (optionDefs id) = valueUint ->
  minLen (optionDefs id) = 0 /\ 2 <= maxLen (optionDefs id) <= 4.
Proof.
  unfold optionDefs.
  repeat match goal with
         | |- context [match ?x with _ => _ end] => destruct x
         end; cbn; intros; try discriminate; lia.
Qed.

Lemma valueOf_wellTyped id buf :
  0 <= id <= 255 -> valueOf id buf <> VNil ->
  wellTyped (mkOpt id (valueOf id buf)).
Proof.
  intros Hid Hv.
  assert (Hb : minLen (optionDefs id) <= len buf <= maxLen (optionDefs id)).
  { destruct (Z.lt_ge_cases (len buf) (minLen (optionDefs id)));
      [exfalso; apply Hv, valueOf_nil_iff; lia|].
    destruct (Z.lt_ge_cases (maxLen (optionDefs id)) (len buf));
      [exfalso; apply Hv, valueOf_nil_iff; lia|]. lia. }
  assert (Hf : format (optionDefs id) <> valueUnknown).
  { intros F. apply Hv, valueOf_nil_iff. now left. }
  unfold wellTyped. cbn [ID Value]. split; [exact Hid|].
  rewrite valueOf_in_bounds by assumption.
  destruct (format (optionDefs id)) eqn:F; try congruence.
  - apply empty_maxLen in F. pose proof (len_nonneg buf).
    destruct buf; [reflexivity | unfold len in *; cbn in *; lia].
  - pose proof (uint_maxLen id F) as Hm.
    destruct (decodeInt_ok buf) as [n Hn]; [lia|]. rewrite Hn.
    pose proof (decodeInt_range buf n Hn) as Hr.
    unfold ContentFormat, Accept.
    destruct (Z.eqb_spec id 12); [cbn [orb]|destruct (Z.eqb_spec id 17); cbn [orb]].
    + split; [now left|]. unfold uint8. apply Z.mod_pos_bound. lia.
    + split; [now right|]. unfold uint8. apply Z.mod_pos_bound. lia.
    + split; [assumption|]. split; [assumption|].
      assert (256 ^ len buf <= 256 ^ maxLen (optionDefs id))
        by (apply Z.pow_le_mono_r; lia).
      lia.
  - now rewrite list_byte_of_string_of_list_byte.
Qed.

Lemma decodeEntries_wellTyped es : forall prev,
  Forall wellTyped (decodeEntries prev es).
Proof.
  induction es as [|[d v] es IH]; intros prev; [constructor|].
  cbn [decodeEntries]. apply Forall_app. split; [|apply IH].
  unfold keepOpt, appendOpt.
  destruct (valueOf (uint8 (prev + d)) v) eqn:E; cbn [app];
    try constructor; try constructor;
    rewrite <- E; apply valueOf_wellTyped; try congruence;
    unfold uint8; pose proof (Z.mod_pos_bound (prev + d) 256 eq_refl); lia.
Qed.

(** X4.  Every option [parseBody] returns is well typed: its id is between 0
    and 255 and has a registry entry; a text option holds a [string] and an
    opaque one a [[]byte] of a length within the entry's bounds; an empty one
    holds no byte; Content-Format and Accept hold a [MediaType] below 256 and
    the other integer options a [uint32] below 256^maxLen. *)
Theorem parseBody_well_typed data o p :
  parseBody data = Ok (o, p) -> Forall wellTyped o.
Proof.
  intros H. apply parseBody_ok_inv in H as (es & tail & _ & _ & _ & ->).
  apply decodeEntries_wellTyped.
Qed.

Lemma parseBody_well_typed_witness :
  Forall wellTyped [mkOpt 7 (VUint32 5683); mkOpt 12 (VMediaType 50)].
Proof.
  apply (parseBody_well_typed [x72; x16; x33; x51; x32] _ []).
  reflexivity.
Defined.

Lemma len_encodeInt_pow v k :
  0 <= k <= 4 -> 0 <= v < 256 ^ k -> len (encodeInt v) <= k.
Proof.
  intros Hk Hv.
  assert (Hc : k = 0 \/ k = 1 \/ k = 2 \/ k = 3 \/ k = 4) by lia.
  unfold encodeInt.
  destruct Hc as [->|[->|[->|[->| ->]]]];
    match type of Hv with
    | context [256 ^ ?k] =>
      let v := eval vm_compute in (256 ^ k) in change (256 ^ k) with v in Hv
    end;
    destruct (Z.eqb_spec v 0); try (cbn; lia);
    destruct (Z.ltb_spec v 256); try (cbn; lia);
    destruct (Z.ltb_spec v 65536); try (cbn; lia);
    destruct (Z.ltb_spec v 16777216); cbn; lia.
Qed.

Lemma empty_minLen id :
  format (optionDefs id) = valueEmpty -> minLen (optionDefs id) = 0.
Proof.
  unfold optionDefs.
  repeat match goal with
         | |- context [match ?x with _ => _ end] => destruct x
         end; cbn; intros; try discriminate; reflexivity.
Qed.

Lemma wellTyped_conforms x :
  wellTyped x -> conforms x = true /\ canonical x = true.
Proof.
  destruct x as [id v]. unfold wellTyped, conforms, canonical, bytesOf, toBytes.
  cbn [ID Value]. intros [Hid H].
  assert (Hidb : (0 <=? id) && (id <=? 255) = true)
    by (apply andb_true_intro; split; apply Z.leb_le; lia).
  rewrite Hidb. cbn [andb].
  destruct (format (optionDefs id)) eqn:F, v; try contradiction.
  - subst b. rewrite (empty_minLen id F), (empty_maxLen id F).
    split; reflexivity.
  - split; [|reflexivity].
    apply andb_true_intro; split; apply Z.leb_le; lia.
  - destruct H as [Hmt Hv]. unfold uint32. rewrite Z.mod_small by lia.
    pose proof (len_encodeInt_pow v 1 ltac:(lia) ltac:(change (256 ^ 1) with 256; lia)).
    pose proof (len_encodeInt v).
    unfold ContentFormat, Accept in *.
    destruct Hmt as [-> | ->]; cbn [optionDefs minLen maxLen]; (split; [|reflexivity]);
      repeat (apply andb_true_intro; split);
      try apply Z.leb_le; try apply Z.ltb_lt; lia.
  - destruct H as (H12 & H17 & Hv).
    pose proof (uint_minLen id F) as [Hmin Hmax].
    pose proof (len_encodeInt_pow v (maxLen (optionDefs id)) ltac:(lia) Hv).
    pose proof (len_encodeInt v).
    assert (256 ^ maxLen (optionDefs id) <= 256 ^ 4)
      by (apply Z.pow_le_mono_r; lia).
    change (256 ^ 4) with 4294967296 in *.
    split.
    + repeat (apply andb_true_intro; split);
        try apply Z.leb_le; try apply Z.ltb_lt; lia.
    + apply negb_true_iff. unfold ContentFormat, Accept in *.
      destruct (Z.eqb_spec id 12); [lia|]. destruct (Z.eqb_spec id 17); [lia|].
      reflexivity.
  - split; [|reflexivity].
    apply andb_true_intro; split; apply Z.leb_le; lia.
Qed.

(** X5.  What [parseBody] returns can be written back: when the returned
    options are in ascending id order, [writeOpts] encodes them without error,
    and decoding those bytes, followed by nothing if the payload is empty or
    by the marker and the payload, returns the same options and payload. *)
Theorem reencode_decoded data o p :
  parseBody data = Ok (o, p) -> ascending o ->
  exists w,
    writeOpts [] o = Ok w /\
    (forall tail, is_tail tail p -> parseBody (w ++ tail) = Ok (o, p)).
Proof.
  intros H Hasc.
  assert (Hwt : Forall wellTyped o).
  { pose proof H as H'.
    apply parseBody_ok_inv in H' as (es' & tail' & _ & _ & _ & ->).
    apply decodeEntries_wellTyped. }
  assert (Hc : forallb conforms o = true /\ forallb canonical o = true).
  { rewrite !forallb_forall. rewrite Forall_forall in Hwt.
    split; intros x Hx; now apply wellTyped_conforms, Hwt. }
  destruct Hc as [Hc Hk].
  assert (Hmap : forallb mappable (map Value o) = true).
  { rewrite forallb_forall in *. intros v Hv.
    apply in_map_iff in Hv as (x & <- & Hx). now apply conforms_inv, Hc. }
  assert (Hid : Forall (fun x => 0 <= ID x) o).
  { rewrite Forall_forall in *. intros x Hx. apply Hwt in Hx as [Hx _]. lia. }
  destruct (decodeEntries_entriesOf o 0 Hasc ltac:(lia) Hid Hc Hk) as [Hwf Hdec].
  exists (wire (entriesOf 0 o)). split.
  - unfold writeOpts. now rewrite writeOptsFrom_wire.
  - intros tail Ht. rewrite (parseBody_wire _ _ _ Hwf Ht). now rewrite Hdec.
Qed.

Lemma reencode_decoded_witness :
  exists w,
    writeOpts [] [mkOpt 7 (VUint32 5683); mkOpt 12 (VMediaType 50)] = Ok w /\
    parseBody (w ++ [xff; x2a]) =
      Ok ([mkOpt 7 (VUint32 5683); mkOpt 12 (VMediaType 50)], [x2a]).
Proof.
  destruct (reencode_decoded [x72; x16; x33; x51; x32; xff; x2a]
              [mkOpt 7 (VUint32 5683); mkOpt 12 (VMediaType 50)] [x2a])
    as (w & Hw & Hp).
  - reflexivity.
  - repeat constructor; cbn; lia.
  - exists w. split; [exact Hw|]. apply Hp. right. reflexivity.
Defined.

(** *** Options of a message: add, set, remove, look up *)

Lemma optionValues_app o l1 l2 :
  optionValues o (l1 ++ l2) = optionValues o l1 ++ optionValues o l2.
Proof.
  induction l1 as [|v l1 IH]; [reflexivity|].
  cbn. destruct (o =? ID v); cbn; now rewrite IH.
Qed.

Lemma optionValues_added o id vals :
  optionValues o (map (mkOpt id) vals) = if o =? id then vals else [].
Proof.
  induction vals as [|v vals IH]; cbn [map optionValues ID Value];
    [now destruct (o =? id)|].
  rewrite IH. now destruct (o =? id).
Qed.

Lemma optionValues_Minus o id l :
  optionValues o (Minus l id) = if o =? id then [] else optionValues o l.
Proof.
  unfold Minus. induction l as [|v l IH]; cbn [filter optionValues];
    [now destruct (o =? id)|].
  destruct (Z.eqb_spec (ID v) id) as [E|E]; cbn [negb].
  - rewrite IH. destruct (Z.eqb_spec o id) as [->|]; [reflexivity|].
    destruct (Z.eqb_spec o (ID v)); [congruence | reflexivity].
  - cbn [optionValues]. rewrite IH.
    destruct (Z.eqb_spec o id) as [->|]; [|reflexivity].
    destruct (Z.eqb_spec id (ID v)); [congruence | reflexivity].
Qed.

Lemma firstValue_optionValues o l :
  firstValue o l = match optionValues o l with [] => VNil | v :: _ => v end.
Proof.
  induction l as [|v l IH]; [reflexivity|].
  cbn. now destruct (o =? ID v).
Qed.

Lemma opts_AddOption m id val :
  opts (AddOption m id val) = opts m ++ map (mkOpt id) (addedValues val).
Proof.
  unfold AddOption, addedValues. destruct val; cbn [opts setOpts map];
    try reflexivity.
  now rewrite map_map.
Qed.


Lemma Options_AddOption m id val o :
  Options (AddOption m id val) o =
  if o =? id then Options m o ++ addedValues val else Options m o.
Proof.
  unfold Options. rewrite opts_AddOption, optionValues_app.
  rewrite optionValues_added. destruct (o =? id); [reflexivity|].
  apply app_nil_r.
Qed.

Lemma Options_RemoveOption m id o :
  Options (RemoveOption m id) o = if o =? id then [] else Options m o.
Proof. unfold Options. apply optionValues_Minus. Qed.

Lemma Option_Options m o :
  Option m o = match Options m o with [] => VNil | v :: _ => v end.
Proof. apply firstValue_optionValues. Qed.



Lemma opts_RemoveOption m id : opts (RemoveOption m id) = Minus (opts m) id.
Proof. reflexivity. Qed.

(** X7.  After [RemoveOption] the id has no value left ([Options] is empty and
    [Option] is nil); the values of every other id are unchanged; removing
    twice is removing once. *)
Theorem RemoveOption_Options m opID o :
  Options (RemoveOption m opID) o = (if o =? opID then [] else Options m o) /\
  Option (RemoveOption m opID) opID = VNil /\
  RemoveOption (RemoveOption m opID) opID = RemoveOption m opID.
Proof.
  split; [|split].
  - apply Options_RemoveOption.
  - now rewrite Option_Options, Options_RemoveOption, Z.eqb_refl.
  - unfold RemoveOption, setOpts. cbn [typ code messageID token payload opts].
    f_equal. unfold Minus. induction (opts m) as [|v l IH]; [reflexivity|].
    cbn [filter]. destruct (negb (ID v =? opID)) eqn:E; [|exact IH].
    cbn [filter]. now rewrite E, IH.
Qed.

Lemma Options_SetOption m id val o :
  Options (SetOption m id val) o =
  if o =? id then addedValues val else Options m o.
Proof.
  unfold SetOption. rewrite Options_AddOption, Options_RemoveOption.
  now destruct (o =? id).
Qed.



(** *** Paths *)

Lemma assertStrings_strings l : assertStrings (map VString l) = Returns l.
Proof.
  induction l as [|x l IH]; [reflexivity|]. cbn. now rewrite IH.
Qed.

Lemma Split_nonempty s : Split s <> [].
Proof.
  destruct s as [|c rest]; [discriminate|].
  cbn. destruct (Ascii.eqb c "/"); [discriminate|].
  destruct (Split rest); discriminate.
Qed.

Lemma Join_cons x h t :
  Join (x :: h :: t) = String.append x (String "/"%char (Join (h :: t))).
Proof. reflexivity. Qed.

(** [strings.Join(strings.Split(s, "/"), "/")] is [s]. *)
Lemma Join_Split s : Join (Split s) = s.
Proof.
  induction s as [|c rest IH]; [reflexivity|].
  cbn [Split]. destruct (Ascii.eqb_spec c "/"%char) as [->|Hc].
  - destruct (Split rest) as [|h t] eqn:E; [now apply Split_nonempty in E|].
    rewrite Join_cons, IH. reflexivity.
  - destruct (Split rest) as [|h t] eqn:E; [now apply Split_nonempty in E|].
    destruct t as [|h2 t2].
    + cbn in IH. cbn. now rewrite IH.
    + rewrite Join_cons in IH. rewrite Join_cons. cbn [String.append].
      now rewrite IH.
Qed.

(** X9.  [Path] returns what [SetPath] was given, whatever Uri-Path options
    the message held before, and [PathString] joins it with slashes. *)
Theorem Path_SetPath m s :
  Path (SetPath m s) = Returns s /\
  PathString (SetPath m s) = Returns (Join s).
Proof.
  assert (E : Path (SetPath m s) = Returns s).
  { unfold Path, optionStrings, SetPath.
    rewrite Options_SetOption, Z.eqb_refl. apply assertStrings_strings. }
  split; [exact E|]. unfold PathString. now rewrite E.
Qed.

Lemma trimSlashes_spec s :
  match trimSlashes s with
  | Panics p => p = PanicIndexRange /\ allSlashes s = true
  | Returns s' =>
    allSlashes s = false /\
    exists k, s = String.append (string_of_list_ascii (repeat "/"%char k)) s' /\
              exists c rest, s' = String c rest /\ c <> "/"%char
  end.
Proof.
  induction s as [|c rest IH]; [split; reflexivity|].
  cbn [trimSlashes allSlashes].
  destruct (Ascii.eqb_spec c "/"%char) as [->|Hc]; cbn [andb].
  - destruct (trimSlashes rest) as [s'|p].
    + destruct IH as (Ha & k & Hk & Hs'). split; [exact Ha|].
      exists (S k). split; [cbn; now rewrite <- Hk | exact Hs'].
    + exact IH.
  - split; [reflexivity|]. exists 0%nat. split; [reflexivity|].
    exists c, rest. split; [reflexivity | exact Hc].
Qed.

(** X10.  [SetPathString] panics with an index out of range on the empty
    string and on a string made of slashes only.  On any other string it drops
    the leading slashes and stores the pieces between the remaining slashes as
    the Uri-Path options, so that [PathString] returns the string without its
    leading slashes. *)
Theorem SetPathString_PathString m s :
  match SetPathString m s with
  | Panics p => p = PanicIndexRange /\ allSlashes s = true
  | Returns m' =>
    allSlashes s = false /\
    exists k s',
      s = String.append (string_of_list_ascii (repeat "/"%char k)) s' /\
      (exists c rest, s' = String c rest /\ c <> "/"%char) /\
      Path m' = Returns (Split s') /\
      PathString m' = Returns s'
  end.
Proof.
  unfold SetPathString. pose proof (trimSlashes_spec s) as H.
  destruct (trimSlashes s) as [s'|p]; [|exact H].
  destruct H as (Ha & k & Hk & Hs'). split; [exact Ha|].
  exists k, s'. split; [exact Hk|]. split; [exact Hs'|].
  assert (E : Path (SetPath m (Split s')) = Returns (Split s')).
  { unfold Path, optionStrings, SetPath.
    rewrite Options_SetOption, Z.eqb_refl. apply assertStrings_strings. }
  split; [exact E|]. unfold PathString. rewrite E. now rewrite Join_Split.
Qed.





(** *** The order used to sort the options *)

(** X12.  On the indices of an option list [Less] is a strict total order:
    no index is less than itself, of two different indices exactly one is less
    than the other, and it is transitive.  It never puts a greater id before a
    smaller one, and between options of one id it puts the earlier index
    first. *)
Theorem Less_strict_total_order o i j k :
  (i < List.length o)%nat -> (j < List.length o)%nat ->
  (k < List.length o)%nat ->
  Less o i i = false /\
  (i <> j -> Less o j i = negb (Less o i j)) /\
  (Less o i j = true -> Less o j k = true -> Less o i k = true) /\
  (forall oi oj, nth_error o i = Some oi -> nth_error o j = Some oj ->
     Less o i j = true ->
     ID oi <= ID oj /\ (ID oi = ID oj -> (i < j)%nat)).
Proof.
  intros Hi Hj Hk. unfold Less.
  destruct (nth_error o i) as [oi|] eqn:Ei;
    [|apply nth_error_None in Ei; lia].
  destruct (nth_error o j) as [oj|] eqn:Ej;
    [|apply nth_error_None in Ej; lia].
  destruct (nth_error o k) as [ok|] eqn:Ek;
    [|apply nth_error_None in Ek; lia].
  repeat match goal with
  | |- context [?a =? ?b] => destruct (Z.eqb_spec a b)
  | |- context [?a <? ?b] => destruct (Z.ltb_spec a b)
  | |- context [(?a <? ?b)%nat] => destruct (Nat.ltb_spec a b)
  end; cbn [negb];
  (split; [reflexivity || lia|]);
  (split; [intros; reflexivity || lia|]);
  (split; [intros; reflexivity || discriminate || lia|]);
  intros ? ? [= <-] [= <-] ?; try discriminate; lia.
Qed.

Lemma Less_strict_total_order_witness :
  let o := [mkOpt URIPath (VString "a"); mkOpt ETag (VBytes [x01]);
            mkOpt URIPath (VString "b")] in
  Less o 1 0 = true /\ Less o 0 2 = true /\ Less o 1 2 = true /\
  Less o 2 0 = false.
Proof.
  intros o.
  destruct (Less_strict_total_order o 1 0 2) as (_ & H1 & H2 & _);
    [cbn; lia | cbn; lia | cbn; lia |].
  split; [reflexivity|]. split; [reflexivity|].
  split; [apply H2; reflexivity|].
  destruct (Less_strict_total_order o 0 2 0) as (_ & H3 & _);
    [cbn; lia | cbn; lia | cbn; lia |].
  rewrite H3 by lia. reflexivity.
Defined.

(** *** Every outcome of [parseBody] *)

(** X24.  [parseBody] returns for every input, and never with a panic:
    either the options and the payload, or one of the two errors
    [ErrExtMarker] (an option byte with 15 in a nibble) and [ErrTruncated]
    (the input ends inside an option).  When it succeeds the input is a
    sequence of well-formed options followed by nothing or by the payload
    marker and the payload, which is returned as it stands; when it fails the
    input is such a sequence followed by the beginning of an option that shows
    the error. *)
Theorem parseBody_outcomes data :
  match parseBody data with
  | Ok (o, p) =>
    exists es tail,
      Forall wf_entry es /\ data = wire es ++ tail /\
      (tail = [] /\ p = [] \/ tail = xff :: p) /\ o = decodeEntries 0 es
  | Err e =>
    exists es b rest,
      Forall wf_entry es /\ data = wire es ++ b :: rest /\ b <> xff /\
      (e = ErrExtMarker /\
       (Z.shiftr (to_Z b) 4 = 15 \/ Z.land (to_Z b) 15 = 15) \/
       e = ErrTruncated /\
       Z.shiftr (to_Z b) 4 <> 15 /\ Z.land (to_Z b) 15 <> 15 /\
       (len rest <
          extSize (Z.shiftr (to_Z b) 4) + extSize (Z.land (to_Z b) 15) \/
        exists d l v, 0 <= d <= maxExt /\ 0 <= l <= maxExt /\ len v < l /\
                      b :: rest = writeOptHeader d l ++ v))
  end.
Proof.
  destruct (parseBody data) as [[o p]|e] eqn:E.
  - apply parseBody_ok_inv in E as (es & tail & Hwf & Hd & Ht & Ho).
    exists es, tail. repeat split; assumption.
  - apply parseBody_err_inv in E as (es & b & rest & Hwf & Hd & Hb & He).
    exists es, b, rest. repeat split; try assumption.
    destruct (parseOpt_error_cases _ _ _ _ He)
      as [[-> H] | [(-> & H1 & H2 & H3) | (-> & d & l & v & H)]].
    + left. split; [reflexivity | exact H].
    + right. repeat split; try assumption. now left.
    + right.
      assert (Hn : Z.shiftr (to_Z b) 4 <> 15 /\ Z.land (to_Z b) 15 <> 15).
      { unfold parseOpt, extoptError in He.
        destruct (Z.eqb_spec (Z.shiftr (to_Z b) 4) 15);
          [cbn [orb] in He; discriminate|].
        destruct (Z.eqb_spec (Z.land (to_Z b) 15) 15);
          [cbn [orb] in He; discriminate|].
        split; assumption. }
      destruct Hn as [H1 H2]. repeat split; try assumption.
      right. exists d, l, v. exact H.
Qed.

End CoapExtra.

(** ** More on the serial transport *)

Module SerialExtra.
Import Bytes BytesFacts Serial Chunks ChunkFacts SerialWire SerialFacts.

Lemma written_app e1 e2 : written (e1 ++ e2) = written e1 ++ written e2.
Proof. apply flat_map_app. Qed.

Lemma written_burst data i :
  written (burstEvents data i) = txLine data i ++ [x0a].
Proof.
  unfold burstEvents, txLine, written.
  destruct (Nat.eqb i 0); cbn; now rewrite ?app_nil_r.
Qed.

Lemma written_bursts data l :
  written (flat_map (burstEvents data) l) =
  List.concat (map (fun line => line ++ [x0a]) (map (txLine data) l)).
Proof.
  induction l as [|i l IH]; [reflexivity|].
  cbn [flat_map map List.concat]. now rewrite written_app, written_burst, IH.
Qed.

Section Tx.

Variable Crc16 : list byte -> Z.
Variable base64Encode : list byte -> list byte.
Variable Packet : Type.

(** X13.  [Tx] returns nil for every payload and touches nothing but the
    port.  What it writes is a sequence of text lines, each ended by a
    newline: a marker of two bytes followed by 1 to 124 bytes of the base64
    text, so that a line and its newline take at most 127 bytes. *)
Theorem Tx_lines_fit (sx : Serial.SerialXport Packet) (payload : list byte) :
  let data := base64Encode (frame Crc16 payload) in
  exists sx',
    Tx Crc16 base64Encode Packet sx payload = Ok sx' /\
    written (port_tx _ sx') =
      written (port_tx _ sx)
      ++ List.concat (map (fun line => line ++ [x0a]) (txLines data)) /\
    Forall (fun line => 3 <= len line <= 126) (txLines data) /\
    List.concat (map (skipn 2) (txLines data)) = data /\
    port_rx _ sx' = port_rx _ sx /\ scanner _ sx' = scanner _ sx /\
    pkt _ sx' = pkt _ sx.
Proof.
  intros data. exists (wrote sx (txEvents data)).
  split; [|split; [|split; [|split]]].
  - unfold Tx. fold (frame Crc16 payload). fold data.
    apply (txLoop_events Packet data _ 0%nat); [reflexivity|].
    unfold chunkCount. destruct (List.length data) as [|n]; [cbn; lia|].
    apply Nat.Div0.div_le_upper_bound. lia.
  - unfold wrote. cbn [port_tx]. rewrite written_app. apply f_equal.
    apply written_bursts.
  - unfold txLines. apply Forall_forall. intros line Hin.
    apply in_map_iff in Hin as (i & <- & Hi). apply in_seq in Hi.
    assert (Hc : (0 < List.length (chunk 124 data i) <= 124)%nat).
    { split; [apply chunk_nonempty; lia|].
      unfold chunk. rewrite length_firstn. lia. }
    unfold txLine, len. rewrite length_app.
    destruct (Nat.eqb i 0); cbn [List.length]; lia.
  - unfold txLines. rewrite map_map.
    rewrite (map_ext _ (chunk 124 data)).
    + apply (concat_chunks 124 data). lia.
    + intros i. unfold txLine. now destruct (Nat.eqb i 0).
  - repeat split.
Qed.

End Tx.

Lemma stripCR_CRs k b line :
  stripCR (repeat x0d k ++ b :: line) = stripCR (b :: line).
Proof.
  induction k as [|k IH]; [reflexivity|].
  cbn [repeat app]. rewrite <- IH.
  destruct (repeat x0d k ++ b :: line) eqn:E; [|reflexivity].
  now destruct k.
Qed.

Lemma stripCR_only_CRs k : len (stripCR (repeat x0d k)) <= 1.
Proof.
  induction k as [|k IH]; [cbn; lia|].
  cbn [repeat]. destruct (repeat x0d k) eqn:E; [cbn; lia|].
  cbn [stripCR]. change (eqb x0d x0d) with true. cbv iota. exact IH.
Qed.

(** What [stripCR] leaves does not begin with a carriage return, unless it is
    a carriage return alone. *)
Lemma stripCR_head line b0 b1 rest :
  stripCR line = b0 :: b1 :: rest -> b0 <> x0d.
Proof.
  induction line as [|b line IH]; [discriminate|].
  cbn [stripCR]. destruct line as [|c line]; [discriminate|].
  destruct (eqb b x0d) eqn:E; [exact IH|].
  intros [= <- _ _] ->. discriminate.
Qed.

Section Rx.

Variable Crc16 : list byte -> Z.
Variable base64Decode : list byte -> option (list byte).
Variable Packet : Type.
Variable NewPacket : Z -> result Packet.
Variable AddBytes : Packet -> list byte -> Packet * bool.
Variable GetBytes : Packet -> list byte.
Variable TrimEnd : Packet -> Z -> Packet.

Abbreviation SX := (Serial.SerialXport Packet).
Abbreviation rxLine'' :=
  (rxLine Crc16 base64Decode Packet NewPacket AddBytes GetBytes TrimEnd).
Abbreviation rxLoop' :=
  (rxLoop Crc16 base64Decode Packet NewPacket AddBytes GetBytes TrimEnd).
Abbreviation Rx' :=
  (Rx Crc16 base64Decode Packet NewPacket AddBytes GetBytes TrimEnd).
Abbreviation feed' := (feed Crc16 Packet AddBytes GetBytes TrimEnd).

Lemma rxLine_unfold (sx : SX) line :
  rxLine'' sx line =
  let line := stripCR line in
  if (len line <? 2) || negb (isCont line || isStart line) then (sx, None)
  else
    match base64Decode (skipn 2 line) with
    | None => (sx, Some (Err ErrBase64))
    | Some data =>
      if isStart line then
        match data with
        | d0 :: d1 :: data' =>
          match NewPacket (Uint16 d0 d1) with
          | Err e => (setPkt _ sx None, Some (Err e))
          | Ok p => feed' (setPkt _ sx (Some p)) data'
          end
        | _ => (sx, None)
        end
      else feed' sx data
    end.
Proof. reflexivity. Qed.

Lemma feed_setScanner (sx : SX) sc data :
  feed' (setScanner _ sx sc) data =
  (setScanner _ (fst (feed' sx data)) sc, snd (feed' sx data)).
Proof.
  destruct sx as [tx rx sc0 [p|]]; unfold feed, setScanner, setPkt;
    cbn [pkt port_tx port_rx scanner]; [|reflexivity].
  destruct (AddBytes p data) as [p' [|]]; [|reflexivity].
  destruct (negb _); reflexivity.
Qed.

(** [rxLine] reads and writes [sx.pkt] only. *)
Lemma rxLine_setScanner (sx : SX) sc line :
  rxLine'' (setScanner _ sx sc) line =
  (setScanner _ (fst (rxLine'' sx line)) sc, snd (rxLine'' sx line)).
Proof.
  rewrite !rxLine_unfold. cbv zeta.
  destruct (_ || _); [reflexivity|].
  destruct (base64Decode _) as [data|]; [|reflexivity].
  destruct (isStart _); [|apply feed_setScanner].
  destruct data as [|d0 [|d1 data']]; try reflexivity.
  destruct (NewPacket _) as [p|e]; [|destruct sx; reflexivity].
  replace (setPkt _ (setScanner _ sx sc) (Some p))
    with (setScanner _ (setPkt _ sx (Some p)) sc) by (destruct sx; reflexivity).
  apply feed_setScanner.
Qed.

Lemma setScanner_setScanner (sx : SX) sc sc' :
  setScanner _ (setScanner _ sx sc) sc' = setScanner _ sx sc'.
Proof. reflexivity. Qed.

(** Only [Err()] of the scanner [sx] holds matters to the loop: the lines are
    the loop's argument, and every way out installs a scanner. *)
Lemma rxLoop_setScanner ls : forall (sx : SX) l,
  rxLoop' ls (setScanner _ sx (mkScanner l (scanErr (scanner _ sx)))) =
  rxLoop' ls sx.
Proof.
  induction ls as [|line ls IH]; intros sx l.
  - cbn [rxLoop scanner setScanner scanErr].
    destruct (scanErr (scanner _ sx)); reflexivity.
  - cbn [rxLoop]. rewrite rxLine_setScanner.
    destruct (rxLine'' sx line) as [sx' [r|]] eqn:E; cbn [fst snd].
    + reflexivity.
    + assert (Hs : scanErr (scanner _ sx') = scanErr (scanner _ sx)).
      { clear -E. revert E. rewrite rxLine_unfold. cbv zeta.
        assert (F : forall (s0 s1 : SX) d o, feed' s0 d = (s1, o) ->
                      scanner _ s1 = scanner _ s0).
        { intros s0 s1 d o. unfold feed. destruct (pkt _ s0) as [p|].
          - destruct (AddBytes p d) as [p' [|]].
            + destruct (negb _); intros [= <- _]; reflexivity.
            + intros [= <- _]. reflexivity.
          - intros [= <- _]. reflexivity. }
        destruct (_ || _); [now intros [= <-]|].
        destruct (base64Decode _) as [data|]; [|discriminate].
        destruct (isStart _).
        - destruct data as [|d0 [|d1 data']]; try (now intros [= <-]).
          destruct (NewPacket _) as [p|e]; [|discriminate].
          intros H. apply F in H. now rewrite H.
        - intros H. apply F in H. now rewrite H. }
      rewrite <- Hs. apply IH.
Qed.

Lemma rxLine_noise (sx : SX) line :
  noise line = true -> rxLine'' sx line = (sx, None).
Proof.
  unfold noise. intros H. rewrite rxLine_unfold. cbv zeta.
  apply andb_prop in H as [H1 H2].
  destruct (isStart _); [discriminate|]. destruct (isCont _); [discriminate|].
  now rewrite orb_true_r.
Qed.

Lemma rxLoop_noise (sx : SX) ls rest :
  forallb noise ls = true -> rxLoop' (ls ++ rest) sx = rxLoop' rest sx.
Proof.
  intros Hn. induction ls as [|line ls IH]; [reflexivity|].
  cbn [forallb] in Hn. apply andb_prop in Hn as [H1 H2].
  cbn [app rxLoop]. rewrite rxLine_noise by assumption. now apply IH.
Qed.

(** X14.  [Rx] passes over the lines that, after their leading carriage
    returns, begin with neither marker - empty lines, single bytes, echoed
    text - without any effect: it behaves as if the scanner had delivered the
    lines after them only. *)
Theorem Rx_skips_noise (sx : SX) ls rest :
  forallb noise ls = true ->
  lines (scanner _ sx) = ls ++ rest ->
  Rx' sx = Rx' (setScanner _ sx (mkScanner rest (scanErr (scanner _ sx)))).
Proof.
  intros Hn Hl. unfold Rx. rewrite Hl. cbn [setScanner scanner lines].
  fold (setScanner _ sx (mkScanner rest (scanErr (scanner _ sx)))).
  rewrite rxLoop_setScanner. now apply rxLoop_noise.
Qed.

(** X15.  Carriage returns at the head of a line that holds anything else are
    dropped before the line is looked at: [Rx] treats the line as if they were
    not there.  A line of carriage returns only is passed over. *)
Theorem Rx_leading_CRs (sx : SX) k b line rest :
  (lines (scanner _ sx) = (repeat x0d k ++ b :: line) :: rest ->
   Rx' sx = Rx' (setScanner _ sx (mkScanner ((b :: line) :: rest)
                                            (scanErr (scanner _ sx))))) /\
  (lines (scanner _ sx) = repeat x0d k :: rest ->
   Rx' sx = Rx' (setScanner _ sx (mkScanner rest (scanErr (scanner _ sx))))).
Proof.
  split; intros Hl; unfold Rx; rewrite Hl; cbn [setScanner scanner lines].
  - fold (setScanner _ sx (mkScanner ((b :: line) :: rest)
                                     (scanErr (scanner _ sx)))).
    rewrite rxLoop_setScanner. cbn [rxLoop].
    rewrite !rxLine_unfold. now rewrite stripCR_CRs.
  - fold (setScanner _ sx (mkScanner rest (scanErr (scanner _ sx)))).
    rewrite rxLoop_setScanner. cbn [rxLoop].
    rewrite rxLine_unfold. cbv zeta.
    pose proof (stripCR_only_CRs k) as Hk.
    destruct (Z.ltb_spec (len (stripCR (repeat x0d k))) 2); [|lia].
    reflexivity.
Qed.

Lemma isStart_not_isCont line : isStart line = true -> isCont line = false.
Proof.
  destruct line as [|b0 [|b1 tl]]; try discriminate. cbn.
  intros H. apply andb_prop in H as [H _].
  destruct b0; try discriminate; reflexivity.
Qed.

Lemma isStart_len line : isStart line = true -> (len line <? 2) = false.
Proof.
  destruct line as [|b0 [|b1 tl]]; try discriminate. intros _.
  apply Z.ltb_ge. unfold len. cbn [List.length]. lia.
Qed.

Lemma isCont_len line : isCont line = true -> (len line <? 2) = false.
Proof.
  destruct line as [|b0 [|b1 tl]]; try discriminate. intros _.
  apply Z.ltb_ge. unfold len. cbn [List.length]. lia.
Qed.

(** X16.  A start line whose text decodes to at least two bytes begins a new
    packet whatever was being reassembled: the outcome of [Rx] does not depend
    on the packet in progress, whose bytes are lost.  A start line whose text
    decodes to fewer than two bytes is passed over and leaves the packet in
    progress as it is. *)
Theorem Rx_start_line (sx : SX) line rest data :
  lines (scanner _ sx) = line :: rest ->
  isStart (stripCR line) = true ->
  base64Decode (skipn 2 (stripCR line)) = Some data ->
  (2 <= len data ->
   forall p, Rx' (setPkt _ sx p) = Rx' (setPkt _ sx None)) /\
  (len data < 2 ->
   Rx' sx = Rx' (setScanner _ sx (mkScanner rest (scanErr (scanner _ sx))))).
Proof.
  intros Hl Hs Hd. split.
  - intros Hlen p. unfold Rx. cbn [setPkt scanner]. rewrite Hl.
    cbn [rxLoop]. rewrite !rxLine_unfold. cbv zeta.
    rewrite Hs, (isStart_len _ Hs), orb_true_r, Hd. cbn [orb negb].
    destruct data as [|d0 [|d1 data']];
      try (unfold len in Hlen; cbn [List.length] in Hlen; lia).
    destruct (NewPacket _); reflexivity.
  - intros Hlen. unfold Rx. rewrite Hl. cbn [setScanner scanner lines].
    fold (setScanner _ sx (mkScanner rest (scanErr (scanner _ sx)))).
    rewrite rxLoop_setScanner. cbn [rxLoop]. rewrite rxLine_unfold. cbv zeta.
    rewrite Hs, (isStart_len _ Hs), orb_true_r, Hd. cbn [orb negb].
    destruct data as [|d0 [|d1 data']]; try reflexivity.
    unfold len in Hlen. cbn [List.length] in Hlen. lia.
Qed.

(** X17.  With no packet in progress a continuation line is passed over if
    its text decodes; if it does not, [Rx] returns the base64 error although
    the line belongs to no packet.  Neither changes [sx.pkt]. *)
Theorem Rx_continuation_without_packet (sx : SX) line rest :
  lines (scanner _ sx) = line :: rest ->
  pkt _ sx = None ->
  isCont (stripCR line) = true ->
  let sx' := setScanner _ sx (mkScanner rest (scanErr (scanner _ sx))) in
  match base64Decode (skipn 2 (stripCR line)) with
  | Some _ => Rx' sx = Rx' sx'
  | None => Rx' sx = (sx', Err ErrBase64)
  end.
Proof.
  intros Hl Hp Hc sx'. unfold Rx. rewrite Hl. cbn [rxLoop].
  rewrite rxLine_unfold. cbv zeta.
  assert (Hs : isStart (stripCR line) = false).
  { destruct (isStart (stripCR line)) eqn:E; [|reflexivity].
    apply isStart_not_isCont in E. congruence. }
  rewrite Hs, Hc, (isCont_len _ Hc). cbn [orb negb].
  destruct (base64Decode _) as [data|].
  - unfold feed. rewrite Hp. unfold sx'. cbn [setScanner scanner lines].
    fold (setScanner _ sx (mkScanner rest (scanErr (scanner _ sx)))).
    now rewrite rxLoop_setScanner.
  - reflexivity.
Qed.

Lemma feed_frame (s0 s1 : SX) d o :
  feed' s0 d = (s1, o) ->
  port_tx _ s1 = port_tx _ s0 /\ port_rx _ s1 = port_rx _ s0 /\
  scanner _ s1 = scanner _ s0 /\
  (forall b, o = Some (Ok b) -> pkt _ s1 = None).
Proof.
  unfold feed. destruct (pkt _ s0) as [p|].
  - destruct (AddBytes p d) as [p' [|]].
    + destruct (negb _); intros [= <- <-]; repeat split; discriminate.
    + intros [= <- <-]. repeat split; discriminate.
  - intros [= <- <-]. repeat split; discriminate.
Qed.

Lemma rxLine_frame (s0 s1 : SX) line o :
  rxLine'' s0 line = (s1, o) ->
  port_tx _ s1 = port_tx _ s0 /\ port_rx _ s1 = port_rx _ s0 /\
  scanner _ s1 = scanner _ s0 /\
  (forall b, o = Some (Ok b) -> pkt _ s1 = None).
Proof.
  rewrite rxLine_unfold. cbv zeta.
  destruct (_ || _); [intros [= <- <-]; repeat split; discriminate|].
  destruct (base64Decode _) as [data|];
    [|intros [= <- <-]; repeat split; discriminate].
  destruct (isStart _); [|apply feed_frame].
  destruct data as [|d0 [|d1 data']];
    try (intros [= <- <-]; repeat split; discriminate).
  destruct (NewPacket _) as [p|e];
    [|intros [= <- <-]; repeat split; discriminate].
  intros H. apply feed_frame in H. exact H.
Qed.

(** X18.  [Rx] never writes to the port.  When it returns a frame, no packet
    is left in progress, the scanner stays the same one and holds the lines
    after the one that completed the frame, so at least one line was
    consumed. *)
Theorem Rx_returns_frame (sx sx' : Serial.SerialXport Packet) r :
  Rx Crc16 base64Decode Packet NewPacket AddBytes GetBytes TrimEnd sx
  = (sx', r) ->
  port_tx _ sx' = port_tx _ sx /\
  (forall b, r = Ok b ->
     pkt _ sx' = None /\ port_rx _ sx' = port_rx _ sx /\
     scanErr (scanner _ sx') = scanErr (scanner _ sx) /\
     exists consumed line,
       lines (scanner _ sx) = consumed ++ line :: lines (scanner _ sx')).
Proof.
  unfold Rx.
  assert (G : forall ls (s0 : SX), rxLoop' ls s0 = (sx', r) ->
    port_tx _ sx' = port_tx _ s0 /\
    (forall b, r = Ok b ->
       pkt _ sx' = None /\ port_rx _ sx' = port_rx _ s0 /\
       scanErr (scanner _ sx') = scanErr (scanner _ s0) /\
       exists consumed line, ls = consumed ++ line :: lines (scanner _ sx'))).
  { induction ls as [|line ls IH]; intros s0.
    - cbn [rxLoop scanner setScanner scanErr].
      destruct (scanErr (scanner _ s0)) as [e|].
      + intros [= <- <-]. split; [reflexivity | discriminate].
      + intros [= <- <-]. split; [|discriminate].
        unfold newScanner. cbn [port_rx port_tx pkt setScanner].
        destruct (port_rx _ s0); reflexivity.
    - cbn [rxLoop]. destruct (rxLine'' s0 line) as [s1 [r1|]] eqn:E;
        apply rxLine_frame in E as (Htx & Hrx & Hsc & Hok).
      + intros [= <- <-]. cbn [setScanner port_tx port_rx pkt scanner lines
                                scanErr].
        split; [exact Htx|]. intros b ->.
        rewrite (Hok b eq_refl). repeat split; [exact Hrx|].
        exists [], line. reflexivity.
      + intros H. apply IH in H as [H1 H2]. split; [congruence|].
        intros b Hb. destruct (H2 b Hb) as (Hp & Hr & He & c & l & Hc).
        rewrite Hsc in He. repeat split; try congruence.
        exists (line :: c), l. now rewrite Hc. }
  intros H. now apply G in H.
Qed.

(** X25.  When the scanner has nothing but lines to pass over, [Rx] fails
    and leaves the packet in progress as it is.  If the scanner reports no
    error, [Rx] returns the timeout error and takes a new scanner on the port.
    If the scanner reports an error, [Rx] returns it and keeps the scanner, so
    that the next call returns the same error again. *)
Theorem Rx_exhausted (sx : Serial.SerialXport Packet) :
  let Rx := Rx Crc16 base64Decode Packet NewPacket AddBytes GetBytes TrimEnd in
  forallb noise (lines (scanner _ sx)) = true ->
  pkt _ (fst (Rx sx)) = pkt _ sx /\
  match scanErr (scanner _ sx) with
  | None =>
    Rx sx = (newScanner _ (setScanner _ sx (mkScanner [] None)),
             Err ErrTimeout)
  | Some e =>
    let sx' := setScanner _ sx (mkScanner [] (Some e)) in
    Rx sx = (sx', Err e) /\ Rx sx' = (sx', Err e)
  end.
Proof.
  intros Rx0 Hn. unfold Rx0, Rx.
  rewrite <- (app_nil_r (lines (scanner _ sx))).
  rewrite rxLoop_noise by assumption.
  cbn [rxLoop]. destruct (scanErr (scanner _ sx)) as [e|] eqn:E.
  - split; [reflexivity|]. cbv zeta. split; [reflexivity|].
    cbn [setScanner scanner lines app rxLoop scanErr]. reflexivity.
  - split; [|reflexivity]. unfold newScanner, setScanner.
    cbn [port_rx pkt]. destruct (port_rx _ sx); reflexivity.
Qed.

End Rx.

(** *** What [Tx] writes, [Rx] returns *)

Section Loopback.

Variable Crc16 : list byte -> Z.
Variable base64Encode : list byte -> list byte.
Variable base64Decode : list byte -> option (list byte).
Variable Packet : Type.
Variable NewPacket : Z -> result Packet.
Variable AddBytes : Packet -> list byte -> Packet * bool.
Variable GetBytes : Packet -> list byte.
Variable TrimEnd : Packet -> Z -> Packet.

(** [holds p n buf]: the packet [p] expects [n] bytes and has collected
    [buf]. *)
Variable holds : Packet -> Z -> list byte -> Prop.

Hypothesis NewPacket_ok : forall n, 0 <= n < 65536 ->
  exists p, NewPacket n = Ok p /\ holds p n [].
Hypothesis AddBytes_ok : forall p n buf d, holds p n buf ->
  holds (fst (AddBytes p d)) n (buf ++ d) /\
  snd (AddBytes p d) = (n <=? len (buf ++ d)).
Hypothesis GetBytes_ok : forall p n buf, holds p n buf -> GetBytes p = buf.
Hypothesis TrimEnd_ok : forall p n buf, holds p n buf ->
  GetBytes (TrimEnd p 2) = firstn (List.length buf - 2) buf.

Variable payload : list byte.

Hypothesis payload_fits : len payload + 2 < 65536.
Hypothesis crc_residue : Crc16 (payload ++ PutUint16 (Crc16 payload)) = 0.
Hypothesis encoded_len :
  len (base64Encode (frame Crc16 payload)) =
  4 * ((len (frame Crc16 payload) + 2) / 3).
Hypothesis decode_burst : forall i,
  (i < chunkCount 124 (List.length (base64Encode (frame Crc16 payload))))%nat ->
  base64Decode (chunk 124 (base64Encode (frame Crc16 payload)) i) =
  Some (chunk 93 (frame Crc16 payload) i).

Abbreviation body := (payload ++ PutUint16 (Crc16 payload)).
Abbreviation framed := (frame Crc16 payload).
Abbreviation data := (base64Encode (frame Crc16 payload)).
Abbreviation N := (chunkCount 124 (List.length data)).
Abbreviation feedL := (feed Crc16 Packet AddBytes GetBytes TrimEnd).
Abbreviation rxLineL :=
  (rxLine Crc16 base64Decode Packet NewPacket AddBytes GetBytes TrimEnd).
Abbreviation rxLoopL :=
  (rxLoop Crc16 base64Decode Packet NewPacket AddBytes GetBytes TrimEnd).

Lemma framed_eq :
  exists b0 b1, framed = b0 :: b1 :: body /\ Uint16 b0 b1 = len body.
Proof.
  unfold frame.
  assert (Hb : 0 <= len body < 65536).
  { pose proof payload_fits as Hp. unfold len in Hp |- *.
    rewrite length_app. cbn [PutUint16 List.length]. lia. }
  replace (uint16 (len body)) with (len body)
    by (unfold uint16; now rewrite Z.mod_small).
  destruct (Uint16_PutUint16 (len body) Hb) as (b0 & b1 & E & HU).
  exists b0, b1. rewrite E. split; [reflexivity | exact HU].
Qed.

Lemma length_framed : List.length framed = (List.length payload + 4)%nat.
Proof.
  destruct framed_eq as (b0 & b1 & -> & _). cbn [List.length].
  rewrite length_app. cbn. lia.
Qed.

Lemma lt_N i : (i < N)%nat <-> (93 * i < List.length framed)%nat.
Proof.
  rewrite chunkCount_lt by lia.
  pose proof encoded_len as H. unfold len in H.
  remember ((Z.of_nat (List.length framed) + 2) / 3) as q eqn:Eq.
  assert (Hq : 3 * q <= Z.of_nat (List.length framed) + 2 < 3 * q + 3)
    by (subst q; Z.div_mod_to_equations; lia).
  lia.
Qed.

Lemma append_burst j :
  skipn 2 (firstn (93 * S j) framed) ++ chunk 93 framed (S j) =
  skipn 2 (firstn (93 * S (S j)) framed).
Proof.
  replace (93 * S (S j))%nat with (93 * S j + 93)%nat by lia.
  rewrite firstn_add. rewrite skipn_app.
  replace (2 - List.length (firstn (93 * S j) framed))%nat with 0%nat
    by (rewrite length_firstn, length_framed; lia).
  reflexivity.
Qed.

(** Feeding the bytes of line [j] of [N]. *)
Lemma feed_result (sx : Serial.SerialXport Packet) p buf d j k :
  (S j + k = N)%nat -> pkt _ sx = Some p -> holds p (len body) buf ->
  buf ++ d = skipn 2 (firstn (93 * S j) framed) ->
  (k = 0%nat -> feedL sx d = (setPkt _ sx None, Some (Ok payload))) /\
  ((0 < k)%nat -> exists p',
     feedL sx d = (setPkt _ sx (Some p'), None) /\
     holds p' (len body) (skipn 2 (firstn (93 * S j) framed))).
Proof.
  intros HN Hp Hh Hd.
  destruct (AddBytes_ok p (len body) buf d Hh) as [Hh' Hfull].
  rewrite Hd in Hh', Hfull.
  pose proof length_framed as HF.
  assert (HL : len body = Z.of_nat (List.length framed) - 2).
  { rewrite HF, len_app. unfold len. cbn [PutUint16 List.length]. lia. }
  assert (Hlen : len (skipn 2 (firstn (93 * S j) framed)) =
                 Z.of_nat (Nat.min (93 * S j) (List.length framed)) - 2).
  { unfold len. rewrite length_skipn, length_firstn. lia. }
  unfold feed. rewrite Hp.
  destruct (AddBytes p d) as [p' full]. cbn [fst snd] in Hh', Hfull.
  split.
  - intros ->. assert (Hge : ~ (93 * S j < List.length framed)%nat).
    { rewrite <- lt_N. lia. }
    assert (Hall : skipn 2 (firstn (93 * S j) framed) = body).
    { rewrite firstn_all2 by lia.
      destruct framed_eq as (b0 & b1 & -> & _). reflexivity. }
    rewrite Hall in Hh'.
    rewrite Hfull, Hlen, HL.
    destruct (Z.leb_spec (Z.of_nat (List.length framed) - 2)
                (Z.of_nat (Nat.min (93 * S j) (List.length framed)) - 2));
      [|lia].
    rewrite (GetBytes_ok _ _ _ Hh'), crc_residue. cbn [Z.eqb negb].
    rewrite (TrimEnd_ok _ _ _ Hh'). do 3 f_equal.
    rewrite length_app. cbn [PutUint16 List.length].
    replace (List.length payload + 2 - 2)%nat with (List.length payload + 0)%nat
      by lia.
    rewrite firstn_app_2. cbn. apply app_nil_r.
  - intros Hk. assert (Hlt : (93 * S j < List.length framed)%nat).
    { rewrite <- lt_N. lia. }
    exists p'. split; [|exact Hh']. rewrite Hfull, Hlen, HL.
    destruct (Z.leb_spec (Z.of_nat (List.length framed) - 2)
                (Z.of_nat (Nat.min (93 * S j) (List.length framed)) - 2));
      [lia|].
    reflexivity.
Qed.

Lemma rxLine_cont (sx : Serial.SerialXport Packet) j :
  (S j < N)%nat ->
  rxLineL sx (txLine data (S j)) = feedL sx (chunk 93 framed (S j)).
Proof.
  intros Hj. rewrite rxLine_unfold. unfold txLine. cbn [Nat.eqb app].
  set (c := chunk 124 data (S j)).
  change (stripCR (x04 :: x14 :: c)) with (x04 :: x14 :: c). cbv zeta.
  rewrite (isCont_len (x04 :: x14 :: c)) by reflexivity.
  change (isCont (x04 :: x14 :: c)) with true.
  change (isStart (x04 :: x14 :: c)) with false.
  cbn [orb negb skipn]. unfold c. now rewrite decode_burst.
Qed.

Lemma rxLoop_cont rest k : forall j (sx : Serial.SerialXport Packet) p,
  (S j + k = N)%nat -> (0 < k)%nat -> pkt _ sx = Some p ->
  holds p (len body) (skipn 2 (firstn (93 * S j) framed)) ->
  rxLoopL (map (txLine data) (seq (S j) k) ++ rest) sx =
  (setScanner _ (setPkt _ sx None) (mkScanner rest (scanErr (scanner _ sx))),
   Ok payload).
Proof.
  induction k as [|k IH]; intros j sx p HN Hk Hp Hh; [lia|].
  cbn [seq map app rxLoop]. rewrite rxLine_cont by lia.
  destruct (feed_result sx p (skipn 2 (firstn (93 * S j) framed))
              (chunk 93 framed (S j)) (S j) k)
    as [H0 H1]; [lia | exact Hp | exact Hh | apply append_burst |].
  destruct k as [|k].
  - rewrite H0 by reflexivity. reflexivity.
  - destruct H1 as (p' & -> & Hh'); [lia|].
    rewrite (IH (S j) _ p'); [reflexivity | lia | lia | reflexivity | exact Hh'].
Qed.

(** X19.  [Rx] returns the payload that [Tx] was given when the scanner
    delivers the lines [Tx] wrote, whatever packet was in progress before and
    whatever lines follow, which stay in the scanner.  This holds for a payload
    of at most 65533 bytes, given of the collaborators that the checksum of
    the payload followed by its checksum is 0, that the base64 text has four
    characters for every three bytes, rounded up, that every burst of it
    decodes to the 93 bytes of the frame it encodes, and that the packet
    collects the bytes given to it and is full once it has as many as
    expected. *)
Theorem Rx_of_Tx (rx : Serial.SerialXport Packet) rest :
  lines (scanner _ rx) = txLines data ++ rest ->
  Rx Crc16 base64Decode Packet NewPacket AddBytes GetBytes TrimEnd rx =
  (setScanner _ (setPkt _ rx None) (mkScanner rest (scanErr (scanner _ rx))),
   Ok payload).
Proof.
  intros Hl. unfold Rx. rewrite Hl. unfold txLines.
  pose proof length_framed as HF.
  assert (HN : (0 < N)%nat) by (apply lt_N; lia).
  assert (EN : exists k, N = S k) by (exists (Nat.pred N); lia).
  destruct EN as [k EN]. rewrite EN.
  cbn [seq map app rxLoop].
  destruct framed_eq as (b0 & b1 & Hfr & HU).
  assert (Hfirst : rxLineL rx (txLine data 0) =
            match NewPacket (len body) with
            | Err e => (setPkt _ rx None, Some (Err e))
            | Ok p => feedL (setPkt _ rx (Some p)) (firstn 91 body)
            end).
  { rewrite rxLine_unfold. unfold txLine. cbn [Nat.eqb app].
    set (c := chunk 124 data 0).
    change (stripCR (x06 :: x09 :: c)) with (x06 :: x09 :: c). cbv zeta.
    rewrite (isStart_len (x06 :: x09 :: c)) by reflexivity.
    change (isStart (x06 :: x09 :: c)) with true.
    rewrite orb_true_r. cbn [orb negb skipn]. unfold c.
    rewrite decode_burst by lia. unfold chunk.
    rewrite Nat.mul_0_r. cbn [skipn]. rewrite Hfr.
    change (firstn 93 (b0 :: b1 :: body)) with (b0 :: b1 :: firstn 91 body).
    cbv beta iota. now rewrite HU. }
  rewrite Hfirst.
  destruct (NewPacket_ok (len body)) as (p & -> & Hh).
  { pose proof payload_fits as Hp. unfold len in Hp |- *.
    rewrite length_app. cbn [PutUint16 List.length]. lia. }
  destruct (feed_result (setPkt _ rx (Some p)) p [] (firstn 91 body) 0 k)
    as [H0 H1]; [lia | reflexivity | exact Hh | |].
  { rewrite Hfr. reflexivity. }
  destruct k as [|k].
  - rewrite H0 by reflexivity. reflexivity.
  - destruct H1 as (p' & -> & Hh'); [lia|].
    rewrite (rxLoop_cont rest (S k) 0 _ p');
      [reflexivity | lia | lia | reflexivity | exact Hh'].
Qed.

End Loopback.

Abbreviation RxI :=
  (Rx Instances.Crc16 Instances.base64Decode Instances.Packet
      Instances.NewPacket Instances.AddBytes Instances.GetBytes
      Instances.TrimEnd).

Lemma Rx_skips_noise_witness :
  let echo := list_byte_of_string "newtmgr> " in
  let frame1 := [x06; x09] ++ list_byte_of_string "AAMBECE=" in
  let sx := mkXport Instances.Packet [] []
              (mkScanner [[]; [x0d]; echo; [x06]; frame1] None) None in
  RxI sx = RxI (setScanner _ sx (mkScanner [frame1] None)).
Proof.
  intros echo frame1 sx.
  apply (Rx_skips_noise Instances.Crc16 Instances.base64Decode
           Instances.Packet Instances.NewPacket Instances.AddBytes
           Instances.GetBytes Instances.TrimEnd sx
           [[]; [x0d]; echo; [x06]] [frame1]); reflexivity.
Defined.

Lemma Rx_leading_CRs_witness :
  let text := list_byte_of_string "AAMBECE=" in
  let sx := mkXport Instances.Packet [] []
              (mkScanner [[x0d; x0d; x06; x09] ++ text] None) None in
  RxI sx = RxI (setScanner _ sx (mkScanner [[x06; x09] ++ text] None)).
Proof.
  intros text sx.
  apply (Rx_leading_CRs Instances.Crc16 Instances.base64Decode
           Instances.Packet Instances.NewPacket Instances.AddBytes
           Instances.GetBytes Instances.TrimEnd sx 2 x06 (x09 :: text) []).
  reflexivity.
Defined.

Lemma Rx_start_line_witness :
  let line := [x06; x09] ++ list_byte_of_string "AAMBECE=" in
  let sx := mkXport Instances.Packet [] [] (mkScanner [line] None) None in
  let stale := Some (Instances.mkPacket 9 [x07; x07]) in
  RxI (setPkt _ sx stale) = RxI (setPkt _ sx None).
Proof.
  intros line sx stale.
  destruct (Rx_start_line Instances.Crc16 Instances.base64Decode
              Instances.Packet Instances.NewPacket Instances.AddBytes
              Instances.GetBytes Instances.TrimEnd sx line []
              [x00; x03; x01; x10; x21]) as [H _];
    [reflexivity | reflexivity | reflexivity |].
  apply H. vm_compute. discriminate.
Defined.

Lemma Rx_continuation_without_packet_witness :
  let line := [x04; x14] ++ list_byte_of_string "ECE" in
  let sx := mkXport Instances.Packet [] [] (mkScanner [line; []] None) None in
  RxI sx = (setScanner _ sx (mkScanner [[]] None), Err ErrBase64).
Proof.
  intros line sx.
  apply (Rx_continuation_without_packet Instances.Crc16
           Instances.base64Decode Instances.Packet Instances.NewPacket
           Instances.AddBytes Instances.GetBytes Instances.TrimEnd
           sx line [[]]); reflexivity.
Defined.

Lemma Rx_returns_frame_witness :
  let line := [x06; x09] ++ list_byte_of_string "AAMBECE=" in
  let sx := mkXport Instances.Packet [Write [x0a]] []
              (mkScanner [[]; line; [x0d]] None) None in
  port_tx _ (fst (RxI sx)) = [Write [x0a]] /\
  pkt _ (fst (RxI sx)) = None.
Proof.
  intros line sx.
  destruct (Rx_returns_frame Instances.Crc16 Instances.base64Decode
              Instances.Packet Instances.NewPacket Instances.AddBytes
              Instances.GetBytes Instances.TrimEnd sx (fst (RxI sx))
              (snd (RxI sx))) as [H1 H2]; [reflexivity|].
  split; [exact H1|]. now destruct (H2 [x01] eq_refl).
Defined.

Lemma Rx_exhausted_witness :
  let sx := mkXport Instances.Packet [] [mkScanner [[x06]] None]
              (mkScanner [[]; [x0d; x0d]] None)
              (Some (Instances.mkPacket 3 [x01])) in
  RxI sx = (mkXport Instances.Packet [] [] (mkScanner [[x06]] None)
              (Some (Instances.mkPacket 3 [x01])), Err ErrTimeout).
Proof.
  intros sx.
  destruct (Rx_exhausted Instances.Crc16 Instances.base64Decode
              Instances.Packet Instances.NewPacket Instances.AddBytes
              Instances.GetBytes Instances.TrimEnd sx eq_refl) as [_ H].
  exact H.
Defined.

Lemma Rx_of_Tx_witness :
  let payload := list_byte_of_string
    "0123456789012345678901234567890123456789012345678901234567890123456789012345678901234567890123456789" in
  let text := Instances.base64Encode (frame Instances.Crc16 payload) in
  let rx := mkXport Instances.Packet [] []
              (mkScanner (txLines text ++ [[x0d]]) None)
              (Some (Instances.mkPacket 9 [x07])) in
  List.length (txLines text) = 2%nat /\
  RxI rx = (setScanner _ (setPkt _ rx None) (mkScanner [[x0d]] None),
            Ok payload).
Proof.
  intros payload text rx. split; [reflexivity|].
  apply (Rx_of_Tx Instances.Crc16 Instances.base64Encode
           Instances.base64Decode Instances.Packet Instances.NewPacket
           Instances.AddBytes Instances.GetBytes Instances.TrimEnd
           Instances.holds).
  - intros n _. exists (Instances.mkPacket n []). repeat split.
  - intros p n buf d [<- <-]. split; [split; reflexivity|].
    unfold Instances.AddBytes. cbn [snd Instances.buffer Instances.expectedLen].
    apply Z.geb_leb.
  - intros p n buf [_ H]. exact H.
  - intros p n buf [_ <-]. reflexivity.
  - vm_compute. reflexivity.
  - vm_compute. reflexivity.
  - vm_compute. reflexivity.
  - intros [|[|i]] Hi; [vm_compute; reflexivity | vm_compute; reflexivity |].
    exfalso. revert Hi. vm_compute. lia.
  - reflexivity.
Defined.

End SerialExtra.

(** ** More on the LoRa session *)

Module LoraExtra.
Import Bytes BytesFacts Lora Chunks ChunkFacts LoraWire LoraFacts.

Section SendFragments.

Variable Crc16 : list byte -> Z.
Variable xportTx : Segment -> option error.

Abbreviation accept := (fun _ : Segment => @None error).

(** The segments already handed over are only carried along. *)
Lemma sendLoop_sent tx fuel segSz b crc : forall off idx sent,
  sendLoop tx fuel segSz b crc off idx sent =
  (sent ++ fst (sendLoop tx fuel segSz b crc off idx []),
   snd (sendLoop tx fuel segSz b crc off idx [])).
Proof.
  induction fuel as [|fuel IH]; intros off idx sent; cbn [sendLoop].
  - destruct (off <? len b); cbn [fst snd]; now rewrite app_nil_r.
  - destruct (off <? len b); [|cbn [fst snd]; now rewrite app_nil_r].
    match goal with
    | |- context [match ?r with Ok _ => _ | Err _ => _ end] =>
      destruct r as [[blkLen seg]|e]
    end; [|cbn [fst snd]; now rewrite app_nil_r].
    destruct (tx seg) as [e|]; cbn [fst snd app]; [reflexivity|].
    rewrite (IH _ _ (sent ++ [seg])), (IH _ _ [seg]). cbn [fst snd].
    now rewrite <- app_assoc.
Qed.

Lemma sendLoop_deliver fuel segSz b crc : forall off idx,
  sendLoop xportTx fuel segSz b crc off idx [] =
  deliver xportTx (fst (sendLoop accept fuel segSz b crc off idx []))
                  (snd (sendLoop accept fuel segSz b crc off idx [])).
Proof.
  induction fuel as [|fuel IH]; intros off idx; cbn [sendLoop].
  - destruct (off <? len b); reflexivity.
  - destruct (off <? len b); [|reflexivity].
    match goal with
    | |- context [match ?r with Ok _ => _ | Err _ => _ end] =>
      destruct r as [[blkLen seg]|e]
    end; [|reflexivity].
    cbn [app]. rewrite (sendLoop_sent accept fuel _ _ _ _ _ [seg]).
    cbn [fst snd app deliver].
    destruct (xportTx seg) as [e|]; [reflexivity|].
    rewrite (sendLoop_sent xportTx fuel _ _ _ _ _ [seg]), IH. reflexivity.
Qed.

Lemma deliver_accepted segs r :
  (forall seg, In seg segs -> xportTx seg = None) ->
  deliver xportTx segs r = (segs, r).
Proof.
  induction segs as [|seg segs IH]; intros H; [reflexivity|].
  cbn [deliver]. rewrite (H seg) by now left.
  rewrite IH by (intros; apply H; now right). reflexivity.
Qed.

Lemma deliver_rejected segs r : forall k seg e,
  nth_error segs k = Some seg -> xportTx seg = Some e ->
  (forall j seg', (j < k)%nat -> nth_error segs j = Some seg' ->
     xportTx seg' = None) ->
  deliver xportTx segs r = (firstn (S k) segs, Err e).
Proof.
  induction segs as [|s0 segs IH]; intros k seg e Hk He Hbefore.
  - destruct k; discriminate.
  - destruct k as [|k].
    + cbn in Hk. injection Hk as ->. cbn [deliver]. now rewrite He.
    + cbn [deliver]. rewrite (Hbefore 0%nat s0) by (cbn; lia || reflexivity).
      cbn [nth_error] in Hk.
      rewrite (IH k seg e Hk He).
      * reflexivity.
      * intros j seg' Hj Hn. apply (Hbefore (S j) seg'); [lia | exact Hn].
Qed.

(** X20.  An error of the transport ends [sendFragments] at once: the
    segments handed over are those of the run in which the transport accepts
    everything, up to and including the first one it rejects, and the
    transport's error is returned.  If it rejects none of them, the run is
    that one. *)
Theorem sendFragments_stops_at_error fuel s b segs r :
  sendFragments Crc16 accept fuel s b = (segs, r) ->
  (forall k seg e,
     nth_error segs k = Some seg -> xportTx seg = Some e ->
     (forall j seg', (j < k)%nat -> nth_error segs j = Some seg' ->
        xportTx seg' = None) ->
     sendFragments Crc16 xportTx fuel s b = (firstn (S k) segs, Err e)) /\
  ((forall seg, In seg segs -> xportTx seg = None) ->
   sendFragments Crc16 xportTx fuel s b = (segs, r)).
Proof.
  unfold sendFragments. intros H.
  rewrite sendLoop_deliver, H. cbn [fst snd]. split.
  - intros k seg e. apply deliver_rejected.
  - apply deliver_accepted.
Qed.

(** X21.  The degenerate runs of [sendFragments].  An empty payload sends
    nothing, not even a start segment, and returns nil.  For a payload that is
    not empty, a segment size below 4 makes the first slice panic before
    anything is sent, and a segment size of exactly 4 leaves no room for
    payload in the start segment, so the loop hands the same empty start
    segment to the transport over and over and never ends. *)
Theorem sendFragments_degenerate fuel s b :
  sendFragments Crc16 xportTx fuel s [] = ([], Ok tt) /\
  (b <> [] -> Mtu s < 4 ->
   sendFragments Crc16 xportTx (S fuel) s b = ([], Err PanicSliceBounds)) /\
  (b <> [] -> Mtu s = 4 -> (forall seg, xportTx seg = None) ->
   sendFragments Crc16 xportTx fuel s b =
   (repeat (mkSeg (CoapLoraFragStart 0 (Crc16 b)) []) fuel, Err OutOfFuel)).
Proof.
  split; [|split].
  - unfold sendFragments. destruct fuel; reflexivity.
  - intros Hb Hs. unfold sendFragments. cbn [sendLoop].
    assert (Hl : 0 < len b) by (destruct b; [congruence | unfold len; cbn; lia]).
    destruct (Z.ltb_spec 0 (len b)); [|lia]. cbn [Z.eqb].
    destruct (Z.geb_spec (Mtu s - 4) (len b)); [lia|].
    unfold slice. destruct (Z.leb_spec 0 (Mtu s - 4)); [lia|].
    reflexivity.
  - intros Hb Hs Htx. unfold sendFragments. rewrite Hs.
    assert (Hl : 0 < len b) by (destruct b; [congruence | unfold len; cbn; lia]).
    assert (G : forall n idx sent,
      sendLoop xportTx n 4 b (Crc16 b) 0 idx sent =
      (sent ++ repeat (mkSeg (CoapLoraFragStart 0 (Crc16 b)) []) n,
       Err OutOfFuel)).
    { induction n as [|n IH]; intros idx sent; cbn [sendLoop];
        destruct (Z.ltb_spec 0 (len b)); try lia.
      - cbn [repeat]. now rewrite app_nil_r.
      - cbn [Z.eqb]. change (4 - 4) with 0.
        destruct (Z.geb_spec 0 (len b)); [lia|].
        unfold slice. change (0 <=? 0) with true.
        destruct (Z.leb_spec 0 (len b)); [|lia].
        cbn [andb bind Z.sub Z.to_nat skipn firstn].
        rewrite Htx. change (0 + 0) with 0. rewrite IH.
        cbn [repeat]. now rewrite <- app_assoc. }
    apply (G fuel 0 []).
Qed.

End SendFragments.

Lemma sendFragments_stops_at_error_witness :
  let b := [x01; x02; x03; x04; x05; x06; x07; x08; x09; x0a; x0b; x0c] in
  let s := mkSesn 6 0 51 in
  let tx (seg : Segment) :=
    match hdr seg with
    | CoapLoraFrag 1 => Some ErrXport
    | _ => None
    end in
  sendFragments Instances.Crc16 tx 12 s b =
  ([mkSeg (CoapLoraFragStart 0 (Instances.Crc16 b)) [x01; x02];
    mkSeg (CoapLoraFrag 1) [x03; x04; x05; x06; x07]], Err ErrXport).
Proof.
  intros b s tx.
  destruct (sendFragments_stops_at_error Instances.Crc16 tx 12 s b
              [mkSeg (CoapLoraFragStart 0 (Instances.Crc16 b)) [x01; x02];
               mkSeg (CoapLoraFrag 1) [x03; x04; x05; x06; x07];
               mkSeg (CoapLoraFrag 130) [x08; x09; x0a; x0b; x0c]]
              (Ok tt)) as [H _]; [vm_compute; reflexivity|].
  apply (H 1%nat (mkSeg (CoapLoraFrag 1) [x03; x04; x05; x06; x07]) ErrXport);
    [reflexivity | reflexivity |].
  intros [|j] seg' Hj; [|lia]. intros [= <-]. reflexivity.
Defined.

Lemma sendFragments_degenerate_witness :
  sendFragments Instances.Crc16 (fun _ => None) 3 (mkSesn 4 0 51) [x01] =
  (repeat (mkSeg (CoapLoraFragStart 0 (Instances.Crc16 [x01])) []) 3,
   Err OutOfFuel) /\
  sendFragments Instances.Crc16 (fun _ => None) 1 (mkSesn 0 2 51) [x01] =
  ([], Err PanicSliceBounds).
Proof.
  destruct (sendFragments_degenerate Instances.Crc16 (fun _ => None) 3
              (mkSesn 4 0 51) [x01]) as (_ & _ & H3).
  destruct (sendFragments_degenerate Instances.Crc16 (fun _ => None) 0
              (mkSesn 0 2 51) [x01]) as (_ & H2 & _).
  split.
  - apply H3; [discriminate | reflexivity | reflexivity].
  - apply H2; [discriminate | vm_compute; reflexivity].
Defined.

End LoraExtra.

(** ** Opening and closing a LoRa session *)

Module LoraLifecycleFacts.
Import LoraLifecycle.

Lemma locksHeld_app a b : locksHeld (a ++ b) = locksHeld a + locksHeld b.
Proof.
  induction a as [|c a IH]; [reflexivity|].
  cbn [app locksHeld]. destruct c; lia.
Qed.

(** X22.  [Open] returns nil exactly when the session was closed and both
    [mgmt.NewTransceiver] and [AddListener] succeed; only then is the session
    open afterwards if it was not before.  When either of the two fails,
    [Open] returns without unlocking the transport it has locked: the
    transport has been locked once more than unlocked.  In every other case
    locks and unlocks are balanced. *)
Theorem Open_failure_keeps_lock newTransceiver addListener s s' r :
  Open newTransceiver addListener s = (s', r) ->
  (r = None <->
   isOpen s = false /\ newTransceiver = None /\ addListener = None) /\
  (isOpen s' = true <-> isOpen s = true \/ r = None) /\
  locksHeld (calls s') =
    locksHeld (calls s) +
    (if isOpen s then 0 else match r with None => 0 | Some _ => 1 end) /\
  (r = Some SesnAlreadyOpenError -> s' = s).
Proof.
  unfold Open.
  destruct (isOpen s) eqn:Eo;
    [|destruct newTransceiver as [e|]; [|destruct addListener as [e|]]];
    intros [= <- <-]; cbn [isOpen calls called];
    rewrite ?Eo, ?locksHeld_app; cbn [locksHeld];
    (split; [|split; [|split]]);
    try lia; try discriminate; try reflexivity;
    intuition (discriminate || congruence).
Qed.

Lemma Open_failure_keeps_lock_witness :
  let s := mkLoraSesn false false false [] in
  let s' := fst (Open None (Some ErrXport) s) in
  isOpen s' = false /\ locksHeld (calls s') = 1 /\
  locksHeld (calls (fst (Open None (Some ErrXport) s'))) = 2.
Proof.
  intros s s'.
  destruct (Open_failure_keeps_lock None (Some ErrXport) s s'
              (Some (Other ErrXport)) eq_refl) as (_ & _ & H1 & _).
  destruct (Open_failure_keeps_lock None (Some ErrXport) s'
              (fst (Open None (Some ErrXport) s'))
              (Some (Other ErrXport)) eq_refl) as (_ & _ & H2 & _).
  split; [reflexivity|]. split; [exact H1|]. rewrite H2, H1. reflexivity.
Defined.

(** X23.  The life cycle of a session.  [Open] on an open session and [Close]
    on a closed one return their errors and change nothing.  After an [Open]
    that returned nil, [Close] returns nil and leaves the session closed,
    without transceiver and stop channel and with the transport's lock
    balanced; a second [Close] is refused, and the session can be opened
    again. *)
Theorem Open_Close_lifecycle newTransceiver addListener s :
  (isOpen s = true ->
   Open newTransceiver addListener s = (s, Some SesnAlreadyOpenError)) /\
  (isOpen s = false -> Close s = (s, Some SesnClosedError)) /\
  (forall s1, Open newTransceiver addListener s = (s1, None) ->
     isOpen s1 = true /\
     exists s2,
       Close s1 = (s2, None) /\
       isOpen s2 = false /\ txvr s2 = false /\ stopChan s2 = false /\
       locksHeld (calls s2) = locksHeld (calls s) /\
       Close s2 = (s2, Some SesnClosedError) /\
       snd (Open None None s2) = None).
Proof.
  split; [|split].
  - intros H. unfold Open. now rewrite H.
  - intros H. unfold Close. now rewrite H.
  - intros s1. unfold Open. destruct (isOpen s); [discriminate|].
    destruct newTransceiver; [discriminate|].
    destruct addListener; [discriminate|].
    intros [= <-]. split; [reflexivity|]. eexists. split; [reflexivity|].
    cbn [isOpen txvr stopChan calls called].
    rewrite !locksHeld_app. cbn [locksHeld].
    repeat split; lia.
Qed.

Lemma Open_Close_lifecycle_witness :
  let s := mkLoraSesn false false false [] in
  exists s1 s2, Open None None s = (s1, None) /\ Close s1 = (s2, None) /\
                isOpen s2 = false /\ locksHeld (calls s2) = 0.
Proof.
  intros s.
  destruct (Open_Close_lifecycle None None s) as (_ & _ & H).
  destruct (H (fst (Open None None s)) eq_refl)
    as (_ & s2 & H2 & H3 & _ & _ & H4 & _).
  exists (fst (Open None None s)), s2. repeat split; assumption.
Defined.

End LoraLifecycleFacts.
